(** * Cube-surface topology and the games played on it

    A shallow embedding of the logic layer of the cube puzzle suite:
    the edge-transition engine ([faceTransitions]), and the state machines
    of Snake, Minesweeper, Tetris and Nonogram, followed by the properties
    established about them.

    Conventions of the embedding.
    - A JavaScript [number] that holds a grid coordinate, a counter or a
      score is an integer of [Z]; the engine only adds, subtracts,
      multiplies and compares such numbers, and the results stay far inside
      the range where the arithmetic of JavaScript numbers is exact.
    - A string-literal union type is an inductive type; an [enum] whose
      members are strings is an inductive type together with the string
      each member denotes.
    - A function that may return [null] returns an [option].
    - [console.log] calls have no effect on the values computed and are
      left out. *)

From Stdlib Require Import String Ascii Decimal DecimalString DecimalZ.
From Stdlib Require Import ZArith List Bool Lia Permutation.
Import ListNotations.
Open Scope Z_scope.

(* ===================================================================== *)
(** * Types (types/index) *)
(* ===================================================================== *)

(** [enum CubeFace]. *)
Inductive CubeFace : Type := TOP | BOTTOM | FRONT | BACK | LEFT | RIGHT.

(** The string value of each member of the enum. *)
Definition CubeFace_value (f : CubeFace) : string :=
  match f with
  | TOP => "top" | BOTTOM => "bottom" | FRONT => "front"
  | BACK => "back" | LEFT => "left" | RIGHT => "right"
  end%string.

(** [===] on faces. *)
Definition CubeFace_eqb (a b : CubeFace) : bool :=
  match a, b with
  | TOP, TOP | BOTTOM, BOTTOM | FRONT, FRONT
  | BACK, BACK | LEFT, LEFT | RIGHT, RIGHT => true
  | _, _ => false
  end.

(** [interface CubePosition]. *)
Record CubePosition : Type := mkCubePosition {
  face : CubeFace;
  x : Z;
  y : Z
}.

(** [type EdgeDirection = 'top' | 'bottom' | 'left' | 'right']. *)
Inductive EdgeDirection : Type := E_top | E_bottom | E_left | E_right.

Definition EdgeDirection_eqb (a b : EdgeDirection) : bool :=
  match a, b with
  | E_top, E_top | E_bottom, E_bottom | E_left, E_left | E_right, E_right => true
  | _, _ => false
  end.

(** [interface EdgeTransition]. *)
Record EdgeTransition : Type := mkEdgeTransition {
  fromFace : CubeFace;
  toFace : CubeFace;
  fromEdge : EdgeDirection;
  toEdge : EdgeDirection;
  flipX : bool;
  flipY : bool;
  rotationOffset : Z
}.

(** The [{ dx, dy }] objects passed as directions. *)
Record Delta : Type := mkDelta { dx : Z; dy : Z }.

(* ===================================================================== *)
(** * Edge transitions (utils/faceTransitions) *)
(* ===================================================================== *)

Definition EDGE_TRANSITIONS : list EdgeTransition :=
  [ (* FRONT face edges *)
    mkEdgeTransition FRONT TOP E_top E_bottom false false 0;
    mkEdgeTransition FRONT BOTTOM E_bottom E_top false false 0;
    mkEdgeTransition FRONT LEFT E_left E_right false false 0;
    mkEdgeTransition FRONT RIGHT E_right E_left false false 0;
    (* BACK face edges *)
    mkEdgeTransition BACK TOP E_top E_top true false 180;
    mkEdgeTransition BACK BOTTOM E_bottom E_bottom true false 180;
    mkEdgeTransition BACK RIGHT E_left E_right false false 0;
    mkEdgeTransition BACK LEFT E_right E_left false false 0;
    (* LEFT face edges *)
    mkEdgeTransition LEFT TOP E_top E_left false true (-90);
    mkEdgeTransition LEFT BOTTOM E_bottom E_left false false 90;
    mkEdgeTransition LEFT BACK E_left E_right false false 0;
    mkEdgeTransition LEFT FRONT E_right E_left false false 0;
    (* RIGHT face edges *)
    mkEdgeTransition RIGHT TOP E_top E_right false false 90;
    mkEdgeTransition RIGHT BOTTOM E_bottom E_right false true (-90);
    mkEdgeTransition RIGHT FRONT E_left E_right false false 0;
    mkEdgeTransition RIGHT BACK E_right E_left false false 0;
    (* TOP face edges *)
    mkEdgeTransition TOP BACK E_top E_top true false 180;
    mkEdgeTransition TOP FRONT E_bottom E_top false false 0;
    mkEdgeTransition TOP LEFT E_left E_top false true 90;
    mkEdgeTransition TOP RIGHT E_right E_top false false (-90);
    (* BOTTOM face edges *)
    mkEdgeTransition BOTTOM FRONT E_top E_bottom false false 0;
    mkEdgeTransition BOTTOM BACK E_bottom E_bottom true false 180;
    mkEdgeTransition BOTTOM LEFT E_left E_bottom false false (-90);
    mkEdgeTransition BOTTOM RIGHT E_right E_bottom false true 90 ].

(** The predicate given to [Array.prototype.find]. *)
Definition leaves (f : CubeFace) (edge : EdgeDirection) (t : EdgeTransition) : bool :=
  CubeFace_eqb (fromFace t) f && EdgeDirection_eqb (fromEdge t) edge.

Definition getEdgeTransition (f : CubeFace) (edge : EdgeDirection)
  : option EdgeTransition :=
  find (leaves f edge) EDGE_TRANSITIONS.

Definition getEdgeAtPosition (position : CubePosition) (gridSize : Z)
  : option EdgeDirection :=
  if y position =? gridSize - 1 then Some E_top
  else if y position =? 0 then Some E_bottom
  else if x position =? 0 then Some E_left
  else if x position =? gridSize - 1 then Some E_right
  else None.

Definition getEdgeForDirection (position : CubePosition) (direction : Delta)
  (gridSize : Z) : option EdgeDirection :=
  let newX := x position + dx direction in
  let newY := y position + dy direction in
  if newY >=? gridSize then Some E_top
  else if newY <? 0 then Some E_bottom
  else if newX <? 0 then Some E_left
  else if newX >=? gridSize then Some E_right
  else None.

Definition transformPositionAcrossEdge (position : CubePosition)
  (direction : Delta) (gridSize : Z) : option CubePosition :=
  match getEdgeForDirection position direction gridSize with
  | None =>
      Some (mkCubePosition (face position)
              (x position + dx direction) (y position + dy direction))
  | Some edge =>
      match getEdgeTransition (face position) edge with
      | None => None
      | Some transition =>
          let edgeCoord :=
            match edge with
            | E_top | E_bottom => x position
            | E_left | E_right => y position
            end in
          let transformedCoord :=
            if flipX transition || flipY transition
            then gridSize - 1 - edgeCoord else edgeCoord in
          match toEdge transition with
          | E_top =>
              Some (mkCubePosition (toFace transition) transformedCoord (gridSize - 1))
          | E_bottom =>
              Some (mkCubePosition (toFace transition) transformedCoord 0)
          | E_left =>
              Some (mkCubePosition (toFace transition) 0 transformedCoord)
          | E_right =>
              Some (mkCubePosition (toFace transition) (gridSize - 1) transformedCoord)
          end
      end
  end.

Definition movePosition (position : CubePosition) (direction : Delta)
  (gridSize : Z) : CubePosition :=
  let newX := x position + dx direction in
  let newY := y position + dy direction in
  if (newX >=? 0) && (newX <? gridSize) && (newY >=? 0) && (newY <? gridSize)
  then mkCubePosition (face position) newX newY
  else
    match transformPositionAcrossEdge position direction gridSize with
    | Some result => result
    | None => position
    end.

Definition positionsEqual (a b : CubePosition) : bool :=
  CubeFace_eqb (face a) (face b) && (x a =? x b) && (y a =? y b).

(** A position is legal for a grid when both coordinates lie in
    [[0, gridSize)]. *)
Definition validPosition (gridSize : Z) (p : CubePosition) : Prop :=
  0 <= x p < gridSize /\ 0 <= y p < gridSize.

(** The four one-cell orthogonal moves. *)
Definition unitDeltas : list Delta :=
  [ mkDelta 0 1; mkDelta 0 (-1); mkDelta 1 0; mkDelta (-1) 0 ].

Definition oppositeDelta (d : Delta) : Delta := mkDelta (- dx d) (- dy d).

(** The pairs of faces joined through an edge of FRONT. *)
Definition frontPair (a b : CubeFace) : Prop :=
  (a = FRONT /\ (b = LEFT \/ b = RIGHT \/ b = TOP \/ b = BOTTOM)) \/
  (b = FRONT /\ (a = LEFT \/ a = RIGHT \/ a = TOP \/ a = BOTTOM)).

(** The loop of [getLinePositions], [steps] being the number of iterations
    left: it stops early when the next position is [start]. *)
Fixpoint lineFrom (start : CubePosition) (direction : Delta) (gridSize : Z)
  (steps : nat) (current : CubePosition) (positions : list CubePosition)
  : list CubePosition :=
  match steps with
  | O => positions
  | S steps' =>
      let next := movePosition current direction gridSize in
      if CubeFace_eqb (face next) (face start) && (x next =? x start)
         && (y next =? y start)
      then positions
      else lineFrom start direction gridSize steps' next (positions ++ [next])
  end.

(** [getLinePositions]; [maxSteps] is [None] when the argument is left
    out, and then defaults to [gridSize * 4]. *)
Definition getLinePositions (start : CubePosition) (direction : Delta)
  (gridSize : Z) (maxSteps : option Z) : list CubePosition :=
  let maxSteps' :=
    match maxSteps with Some m => m | None => gridSize * 4 end in
  lineFrom start direction gridSize (Z.to_nat maxSteps') start [].

(** [getTransitionRotation]: [transition?.rotationOffset || 0]. *)
Definition getTransitionRotation (f : CubeFace) (edge : EdgeDirection) : Z :=
  match getEdgeTransition f edge with
  | Some transition => rotationOffset transition
  | None => 0
  end.

(* ===================================================================== *)
(** * Faces (utils/cubeCoordinates) *)
(* ===================================================================== *)

Definition getAllFaces : list CubeFace :=
  [FRONT; BACK; LEFT; RIGHT; TOP; BOTTOM].

Definition getOppositeFace (f : CubeFace) : CubeFace :=
  match f with
  | FRONT => BACK
  | BACK => FRONT
  | LEFT => RIGHT
  | RIGHT => LEFT
  | TOP => BOTTOM
  | BOTTOM => TOP
  end.

Definition getAdjacentFaces (f : CubeFace) : list CubeFace :=
  match f with
  | FRONT => [TOP; BOTTOM; LEFT; RIGHT]
  | BACK => [TOP; BOTTOM; RIGHT; LEFT]
  | LEFT => [TOP; BOTTOM; BACK; FRONT]
  | RIGHT => [TOP; BOTTOM; FRONT; BACK]
  | TOP => [BACK; FRONT; LEFT; RIGHT]
  | BOTTOM => [FRONT; BACK; LEFT; RIGHT]
  end.

(* ===================================================================== *)
(** * Position keys *)
(* ===================================================================== *)

(** How a template literal renders an integer-valued number: its decimal
    digits, with a leading minus sign when negative. *)
Definition numberToString (n : Z) : string :=
  NilZero.string_of_int (Z.to_int n).

(** [posKey = (p) => `${p.face}-${p.x}-${p.y}`], declared in
    [getAllNeighbors] and again in the Minesweeper and Nonogram modules. *)
Definition posKey (p : CubePosition) : string :=
  (CubeFace_value (face p) ++ "-" ++ numberToString (x p) ++ "-"
     ++ numberToString (y p))%string.

(** [key.split('-')]. *)
Fixpoint splitDash (s : string) : list string :=
  match s with
  | EmptyString => [EmptyString]
  | String c rest =>
      if Ascii.eqb c "-" then EmptyString :: splitDash rest
      else match splitDash rest with
           | piece :: pieces => String c piece :: pieces
           | [] => [String c EmptyString]
           end
  end.

Definition isDigit (c : ascii) : bool :=
  match c with
  | "0" | "1" | "2" | "3" | "4" | "5" | "6" | "7" | "8" | "9" => true
  | _ => false
  end%char.

Fixpoint digitPrefix (s : string) : string :=
  match s with
  | EmptyString => EmptyString
  | String c rest => if isDigit c then String c (digitPrefix rest) else EmptyString
  end.

(** [parseInt] on the pieces of a key: the value of the longest prefix of
    decimal digits, and [None] for [NaN] when the piece does not start
    with a digit.  (Leading white space, signs and a [0x] prefix, which
    [parseInt] also accepts, cannot occur in a piece of a key of a legal
    position.) *)
Definition parseInt (s : string) : option Z :=
  option_map Z.of_int (NilZero.int_of_string (digitPrefix s)).

(** The cast [face as CubeFace]: the member of the enum with that value. *)
Definition CubeFace_of_value (s : string) : option CubeFace :=
  find (fun f => String.eqb (CubeFace_value f) s)
       [TOP; BOTTOM; FRONT; BACK; LEFT; RIGHT].

(** [parseKey].  The result is [None] when the first piece is not the
    value of a face or a coordinate is [NaN]; this does not happen for the
    key of a legal position ([parseKey_posKey] below). *)
Definition parseKey (key : string) : option CubePosition :=
  match splitDash key with
  | f :: a :: b :: _ =>
      match CubeFace_of_value f, parseInt a, parseInt b with
      | Some f', Some a', Some b' => Some (mkCubePosition f' a' b')
      | _, _, _ => None
      end
  | _ => None
  end.

(* ===================================================================== *)
(** * Neighbours (utils/faceTransitions) *)
(* ===================================================================== *)

Definition NEIGHBOR_DELTAS : list Delta :=
  [ mkDelta 0 1;       (* up *)
    mkDelta 0 (-1);    (* down *)
    mkDelta (-1) 0;    (* left *)
    mkDelta 1 0;       (* right *)
    mkDelta (-1) 1;    (* up-left *)
    mkDelta 1 1;       (* up-right *)
    mkDelta (-1) (-1); (* down-left *)
    mkDelta 1 (-1) ].  (* down-right *)

Definition isVerticalEdge (e : EdgeDirection) : bool :=
  match e with E_left | E_right => true | E_top | E_bottom => false end.

Definition transformSecondaryDelta (f : CubeFace) (crossedEdge : EdgeDirection)
  (parallelDelta : Delta) : option Delta :=
  match getEdgeTransition f crossedEdge with
  | None => None
  | Some transition =>
      let sourceIsVerticalEdge := isVerticalEdge crossedEdge in
      let targetIsVerticalEdge := isVerticalEdge (toEdge transition) in
      let parallelAmount :=
        if sourceIsVerticalEdge then dy parallelDelta else dx parallelDelta in
      let flipped :=
        if flipX transition || flipY transition
        then - parallelAmount else parallelAmount in
      if targetIsVerticalEdge then Some (mkDelta 0 flipped)
      else Some (mkDelta flipped 0)
  end.

(** The common tail of the two one-edge branches of [getDiagonalNeighbor]. *)
Definition stepOnNewFace (onNewFace : CubePosition) (secondaryDelta : option Delta)
  (gridSize : Z) : option CubePosition :=
  match secondaryDelta with
  | Some sd =>
      let finalX := x onNewFace + dx sd in
      let finalY := y onNewFace + dy sd in
      if (finalX >=? 0) && (finalX <? gridSize) && (finalY >=? 0)
         && (finalY <? gridSize)
      then Some (mkCubePosition (face onNewFace) finalX finalY)
      else None
  | None => None
  end.

Definition getDiagonalNeighbor (position : CubePosition) (delta : Delta)
  (gridSize : Z) : option CubePosition :=
  let newX := x position + dx delta in
  let newY := y position + dy delta in
  let crossingLeft := newX <? 0 in
  let crossingRight := newX >=? gridSize in
  let crossingBottom := newY <? 0 in
  let crossingTop := newY >=? gridSize in
  if negb crossingLeft && negb crossingRight && negb crossingBottom
     && negb crossingTop
  then Some (mkCubePosition (face position) newX newY)
  else if (crossingLeft || crossingRight) && negb crossingBottom
          && negb crossingTop
  then
    let onNewFace := movePosition position (mkDelta (dx delta) 0) gridSize in
    let edgeCrossed := if crossingLeft then E_left else E_right in
    let secondaryDelta :=
      transformSecondaryDelta (face position) edgeCrossed (mkDelta 0 (dy delta)) in
    stepOnNewFace onNewFace secondaryDelta gridSize
  else if (crossingTop || crossingBottom) && negb crossingLeft
          && negb crossingRight
  then
    let onNewFace := movePosition position (mkDelta 0 (dy delta)) gridSize in
    let edgeCrossed := if crossingTop then E_top else E_bottom in
    let secondaryDelta :=
      transformSecondaryDelta (face position) edgeCrossed (mkDelta (dx delta) 0) in
    stepOnNewFace onNewFace secondaryDelta gridSize
  else
    let path1 :=
      movePosition (movePosition position (mkDelta (dx delta) 0) gridSize)
        (mkDelta 0 (dy delta)) gridSize in
    let path2 :=
      movePosition (movePosition position (mkDelta 0 (dy delta)) gridSize)
        (mkDelta (dx delta) 0) gridSize in
    if CubeFace_eqb (face path1) (face path2) && (x path1 =? x path2)
       && (y path1 =? y path2)
    then Some path1
    else Some path1.

(** [seen.has(key)] for a [Set<string>] kept as the list of its members. *)
Definition setHas (seen : list string) (key : string) : bool :=
  existsb (String.eqb key) seen.

(** The body shared by the two branches of the loop of [getAllNeighbors]:
    push the neighbour unless its key has been seen. *)
Definition pushUnseen (acc : list CubePosition * list string)
  (neighbor : CubePosition) : list CubePosition * list string :=
  let (neighbors, seen) := acc in
  let key := posKey neighbor in
  if setHas seen key then acc else (neighbors ++ [neighbor], key :: seen).

Definition neighborStep (position : CubePosition) (gridSize : Z)
  (acc : list CubePosition * list string) (delta : Delta)
  : list CubePosition * list string :=
  if (dx delta =? 0) || (dy delta =? 0)
  then pushUnseen acc (movePosition position delta gridSize)
  else match getDiagonalNeighbor position delta gridSize with
       | Some neighbor => pushUnseen acc neighbor
       | None => acc
       end.

Definition getAllNeighbors (position : CubePosition) (gridSize : Z)
  : list CubePosition :=
  fst (fold_left (neighborStep position gridSize) NEIGHBOR_DELTAS ([], [])).

(** A cell touching no edge of its face. *)
Definition interiorCell (gridSize : Z) (p : CubePosition) : Prop :=
  0 < x p < gridSize - 1 /\ 0 < y p < gridSize - 1.

(** A cell on exactly one edge of its face (so not a corner). *)
Definition onOneEdge (gridSize : Z) (p : CubePosition) : Prop :=
  validPosition gridSize p /\
  (((x p = 0 \/ x p = gridSize - 1) /\ 0 < y p < gridSize - 1) \/
   ((y p = 0 \/ y p = gridSize - 1) /\ 0 < x p < gridSize - 1)).

(* ===================================================================== *)
(** * The random source *)
(* ===================================================================== *)

(** [Math.random] is the only source of randomness of Snake, Minesweeper
    and Tetris.  A run of the program is modelled against a random source
    [rnd]: the [k]-th call of [Math.random] made by the function being
    run draws [rnd k], and the expression
    [Math.floor(Math.random() * n)], the only way the three games use a
    draw, evaluates to [rnd k mod n].  At every call site [n] is a positive
    integer, so the expression ranges over exactly [0 .. n-1], as does the
    model when [rnd] ranges over all functions. *)
Definition RandomSource : Type := nat -> nat.

Definition randomBelow (rnd : RandomSource) (k n : nat) : nat :=
  Nat.modulo (rnd k) n.

(* ===================================================================== *)
(** * Snake (games/snake/SnakeGame) *)
(* ===================================================================== *)

Module Snake.

Inductive SnakeDirection : Type := dir_up | dir_down | dir_left | dir_right.

Definition SnakeDirection_eqb (a b : SnakeDirection) : bool :=
  match a, b with
  | dir_up, dir_up | dir_down, dir_down
  | dir_left, dir_left | dir_right, dir_right => true
  | _, _ => false
  end.

Inductive SnakeAction : Type :=
| Move
| ChangeDirection (payload : SnakeDirection)
| Pause
| Resume.

Definition DIRECTION_DELTAS (d : SnakeDirection) : Delta :=
  match d with
  | dir_up => mkDelta 0 1
  | dir_down => mkDelta 0 (-1)
  | dir_left => mkDelta (-1) 0
  | dir_right => mkDelta 1 0
  end.

Definition OPPOSITE_DIRECTIONS (d : SnakeDirection) : SnakeDirection :=
  match d with
  | dir_up => dir_down
  | dir_down => dir_up
  | dir_left => dir_right
  | dir_right => dir_left
  end.

(** [readonly gridSize = 8] of the class. *)
Definition classGridSize : nat := 8.

Definition allFaces : list CubeFace := [FRONT; BACK; LEFT; RIGHT; TOP; BOTTOM].

(** One iteration of the [do ... while] of [spawnFood]: three draws. *)
Definition drawPosition (rnd : RandomSource) (k : nat) : CubePosition :=
  mkCubePosition
    (nth (randomBelow rnd k (length allFaces)) allFaces FRONT)
    (Z.of_nat (randomBelow rnd (k + 1) classGridSize))
    (Z.of_nat (randomBelow rnd (k + 2) classGridSize)).

(** [snake.some((segment) => positionsEqual(segment, position))]. *)
Definition occupies (snake : list CubePosition) (position : CubePosition) : bool :=
  existsb (fun segment => positionsEqual segment position) snake.

(** The loop of [spawnFood], [more] being the number of iterations still
    allowed after the current one. *)
Fixpoint spawnFoodFrom (rnd : RandomSource) (k : nat) (snake : list CubePosition)
  (more : nat) : CubePosition :=
  let position := drawPosition rnd k in
  match more with
  | O => position
  | S more' =>
      if occupies snake position
      then spawnFoodFrom rnd (k + 3) snake more'
      else position
  end.

(** [maxAttempts = 1000]: the body runs once and at most 999 times more. *)
Definition spawnFood (rnd : RandomSource) (snake : list CubePosition)
  : CubePosition :=
  spawnFoodFrom rnd 0 snake 999.

Section WithCamera.

(** The camera bookkeeping of Snake is floating-point vector algebra of
    the 3D library (quaternions, [atan2]); it is kept abstract.
    [CameraUp] is the [{ x, y, z }] triple stored in the state,
    [transformDirectionAcrossEdge] the function of that name of
    [faceTransitions], and [rotateCameraUp from to up] the vector
    obtained by applying to [up] the quaternion that takes the normal of
    face [from] to the normal of face [to], normalised. *)
Variable CameraUp : Type.
Variable transformDirectionAcrossEdge :
  CubeFace -> SnakeDirection -> CameraUp -> SnakeDirection.
Variable rotateCameraUp : CubeFace -> CubeFace -> CameraUp -> CameraUp.

(** [interface SnakeGameState].  The inherited fields [pieces] and
    [winner] are set to [[]] and [undefined] by [init] and never written
    again; they are left out. *)
Record SnakeGameState : Type := mkSnakeGameState {
  snake : list CubePosition;
  direction : SnakeDirection;
  nextDirection : SnakeDirection;
  food : CubePosition;
  score : Z;
  speed : Z;
  isGameOver : bool;
  isPaused : bool;
  gridSize : Z;
  cameraUp : CameraUp
}.

Definition init (rnd : RandomSource) (initialCameraUp : CameraUp)
  : SnakeGameState :=
  let initialSnake :=
    [ mkCubePosition FRONT 4 4; mkCubePosition FRONT 3 4;
      mkCubePosition FRONT 2 4 ] in
  mkSnakeGameState initialSnake dir_right dir_right
    (spawnFood rnd initialSnake) 0 200 false false
    (Z.of_nat classGridSize) initialCameraUp.

Definition isValidAction (state : SnakeGameState) (action : SnakeAction) : bool :=
  if isGameOver state
     && negb (match action with Pause => true | _ => false end)
  then false
  else
    match action with
    | Move => negb (isPaused state)
    | ChangeDirection payload =>
        negb (SnakeDirection_eqb payload
                (OPPOSITE_DIRECTIONS (direction state)))
    | Pause | Resume => true
    end.

(** [moveSnake].  The result is [None] when the snake has no segment:
    [snake[0]] is then [undefined] and [movePosition] throws. *)
Definition moveSnake (rnd : RandomSource) (state : SnakeGameState)
  : option SnakeGameState :=
  if isPaused state || isGameOver state then Some state
  else
    match snake state with
    | [] => None
    | head :: _ =>
        let delta := DIRECTION_DELTAS (nextDirection state) in
        let newHead := movePosition head delta (gridSize state) in
        let crossed := negb (CubeFace_eqb (face newHead) (face head)) in
        let direction' :=
          if crossed
          then transformDirectionAcrossEdge (face head) (nextDirection state)
                 (cameraUp state)
          else nextDirection state in
        let newCameraUp :=
          if crossed
          then rotateCameraUp (face head) (face newHead) (cameraUp state)
          else cameraUp state in
        let hitSelf := occupies (snake state) newHead in
        if hitSelf
        then Some (mkSnakeGameState (snake state) direction'
                     (nextDirection state) (food state) (score state)
                     (speed state) true (isPaused state) (gridSize state)
                     newCameraUp)
        else
          let eatingFood := positionsEqual newHead (food state) in
          let newSnake :=
            if eatingFood then newHead :: snake state
            else removelast (newHead :: snake state) in
          let newFood := if eatingFood then spawnFood rnd newSnake else food state in
          let newScore := if eatingFood then score state + 10 else score state in
          let newSpeed := Z.max 80 (200 - (newScore / 50) * 20) in
          Some (mkSnakeGameState newSnake direction' direction' newFood
                  newScore newSpeed (isGameOver state) (isPaused state)
                  (gridSize state) newCameraUp)
    end.

Definition applyAction (rnd : RandomSource) (state : SnakeGameState)
  (action : SnakeAction) : option SnakeGameState :=
  match action with
  | ChangeDirection payload =>
      if negb (SnakeDirection_eqb payload
                 (OPPOSITE_DIRECTIONS (direction state)))
      then Some (mkSnakeGameState (snake state) (direction state) payload
                   (food state) (score state) (speed state)
                   (isGameOver state) (isPaused state) (gridSize state)
                   (cameraUp state))
      else Some state
  | Pause =>
      Some (mkSnakeGameState (snake state) (direction state)
              (nextDirection state) (food state) (score state) (speed state)
              (isGameOver state) true (gridSize state) (cameraUp state))
  | Resume =>
      Some (mkSnakeGameState (snake state) (direction state)
              (nextDirection state) (food state) (score state) (speed state)
              (isGameOver state) false (gridSize state) (cameraUp state))
  | Move => moveSnake rnd state
  end.

(** The head that [moveSnake] computes for a state. *)
Definition nextHead (state : SnakeGameState) (head : CubePosition) : CubePosition :=
  movePosition head (DIRECTION_DELTAS (nextDirection state)) (gridSize state).

(** [checkGameOver]: the [isOver] field of the object returned. *)
Definition checkGameOver (state : SnakeGameState) : bool := isGameOver state.

Definition getValidActions (state : SnakeGameState) : list SnakeAction :=
  if negb (isGameOver state)
  then
    if isPaused state then [Resume]
    else
      [Move; Pause]
      ++ map ChangeDirection
           (filter (fun dir =>
                      negb (SnakeDirection_eqb dir
                              (OPPOSITE_DIRECTIONS (direction state))))
              [dir_up; dir_down; dir_left; dir_right])
  else [].

End WithCamera.

Arguments snake {CameraUp} _.
Arguments direction {CameraUp} _.
Arguments nextDirection {CameraUp} _.
Arguments food {CameraUp} _.
Arguments score {CameraUp} _.
Arguments speed {CameraUp} _.
Arguments isGameOver {CameraUp} _.
Arguments isPaused {CameraUp} _.
Arguments gridSize {CameraUp} _.
Arguments cameraUp {CameraUp} _.
Arguments mkSnakeGameState {CameraUp}.
Arguments isValidAction {CameraUp}.
Arguments moveSnake {CameraUp}.
Arguments applyAction {CameraUp}.
Arguments nextHead {CameraUp}.
Arguments checkGameOver {CameraUp}.
Arguments getValidActions {CameraUp}.

End Snake.

(* ===================================================================== *)
(** * JavaScript [Map<string, V>] *)
(* ===================================================================== *)

(** A [Map] keeps its entries in insertion order, one entry per key;
    [set] on a key already present replaces the value in place.  The
    order matters: Minesweeper shuffles the keys as [Map.keys] lists
    them. *)
Module JsMap.

Section Operations.
Variable V : Type.

Fixpoint get (m : list (string * V)) (key : string) : option V :=
  match m with
  | [] => None
  | (k, v) :: rest => if String.eqb k key then Some v else get rest key
  end.

Fixpoint set (m : list (string * V)) (key : string) (value : V)
  : list (string * V) :=
  match m with
  | [] => [(key, value)]
  | (k, v) :: rest =>
      if String.eqb k key then (k, value) :: rest
      else (k, v) :: set rest key value
  end.

Definition keys (m : list (string * V)) : list string := map fst m.

End Operations.

Arguments get {V}.
Arguments set {V}.
Arguments keys {V}.

End JsMap.

(** [for (let i = 0; i < n; i++)]: the values taken by [i]. *)
Definition upTo (n : Z) : list Z := map Z.of_nat (seq 0 (Z.to_nat n)).

(** [array[i] = v] for an index within the array. *)
Fixpoint update {A : Type} (l : list A) (i : nat) (v : A) : list A :=
  match l, i with
  | [], _ => []
  | _ :: rest, O => v :: rest
  | a :: rest, S i' => a :: update rest i' v
  end.

(* ===================================================================== *)
(** * Minesweeper (games/minesweeper/MinesweeperGame) *)
(* ===================================================================== *)

Module Minesweeper.

Record MinesweeperCell : Type := mkMinesweeperCell {
  isMine : bool;
  isRevealed : bool;
  isFlagged : bool;
  adjacentMines : Z
}.

(** [interface MinesweeperGameState]; the inherited [pieces] and [winner]
    are set by [init] and never written again, and are left out. *)
Record MinesweeperGameState : Type := mkMinesweeperGameState {
  cells : list (string * MinesweeperCell);
  mineCount : Z;
  flagCount : Z;
  revealedCount : Z;
  isFirstClick : bool;
  isGameOver : bool;
  isWon : bool;
  gridSize : Z;
  totalMines : Z;
  explodedMine : option CubePosition
}.

Inductive MinesweeperAction : Type :=
| Reveal (payload : CubePosition)
| Flag (payload : CubePosition)
| Chord (payload : CubePosition).

Definition payload (action : MinesweeperAction) : CubePosition :=
  match action with Reveal p | Flag p | Chord p => p end.

Record MinesweeperConfig : Type := mkMinesweeperConfig {
  configGridSize : Z;
  configTotalMines : Z
}.

Definition DEFAULT_CONFIG : MinesweeperConfig := mkMinesweeperConfig 8 60.

Definition ALL_FACES : list CubeFace := [FRONT; BACK; LEFT; RIGHT; TOP; BOTTOM].

(** The positions visited by the three nested loops of [init]. *)
Definition allPositions (gridSize : Z) : list CubePosition :=
  flat_map (fun f =>
    flat_map (fun a => map (fun b => mkCubePosition f a b) (upTo gridSize))
      (upTo gridSize)) ALL_FACES.

Definition emptyCell : MinesweeperCell := mkMinesweeperCell false false false 0.

Definition init (config : MinesweeperConfig) : MinesweeperGameState :=
  let cells :=
    fold_left (fun m p => JsMap.set m (posKey p) emptyCell)
      (allPositions (configGridSize config)) [] in
  mkMinesweeperGameState cells 0 0 0 true false false
    (configGridSize config) (configTotalMines config) None.

(** [[a[i], a[j]] = [a[j], a[i]]]. *)
Definition swap (a : list string) (i j : nat) : list string :=
  match nth_error a i, nth_error a j with
  | Some ai, Some aj => update (update a i aj) j ai
  | _, _ => a
  end.

(** The Fisher-Yates loop [for (let i = ...; i > 0; i--)], the [k]-th draw
    being the next one. *)
Fixpoint shuffleFrom (rnd : RandomSource) (k i : nat) (a : list string)
  : list string :=
  match i with
  | O => a
  | S i' => shuffleFrom rnd (k + 1) i' (swap a i (randomBelow rnd k (i + 1)))
  end.

Definition shuffle (rnd : RandomSource) (a : list string) : list string :=
  shuffleFrom rnd 0 (length a - 1) a.

(** [array.slice(0, n)]. *)
Definition sliceTo {A : Type} (n : Z) (l : list A) : list A :=
  if n <? 0 then firstn (length l - Z.to_nat (- n)) l
  else firstn (Z.to_nat n) l.

Definition setMine (c : MinesweeperCell) : MinesweeperCell :=
  mkMinesweeperCell true (isRevealed c) (isFlagged c) (adjacentMines c).

Definition setAdjacentMines (c : MinesweeperCell) (n : Z) : MinesweeperCell :=
  mkMinesweeperCell (isMine c) (isRevealed c) (isFlagged c) n.

Definition setRevealed (c : MinesweeperCell) : MinesweeperCell :=
  mkMinesweeperCell (isMine c) true (isFlagged c) (adjacentMines c).

Definition setFlagged (c : MinesweeperCell) (b : bool) : MinesweeperCell :=
  mkMinesweeperCell (isMine c) (isRevealed c) b (adjacentMines c).

(** [neighborCell?.isMine], and likewise for the flag. *)
Definition mineAt (m : list (string * MinesweeperCell)) (p : CubePosition) : bool :=
  match JsMap.get m (posKey p) with Some c => isMine c | None => false end.

Definition flagAt (m : list (string * MinesweeperCell)) (p : CubePosition) : bool :=
  match JsMap.get m (posKey p) with Some c => isFlagged c | None => false end.

(** The count made for one cell by the last loop of [placeMines].  A key
    that [parseKey] cannot read back has no neighbour in the map; every key
    of a map built by [init] is read back ([parseKey_posKey]). *)
Definition countAdjacentMines (m : list (string * MinesweeperCell))
  (key : string) (gridSize : Z) : Z :=
  match parseKey key with
  | Some pos =>
      Z.of_nat (length (filter (mineAt m) (getAllNeighbors pos gridSize)))
  | None => 0
  end.

Definition placeMines (rnd : RandomSource)
  (cells : list (string * MinesweeperCell)) (safePosition : CubePosition)
  (gridSize totalMines : Z) : list (string * MinesweeperCell) :=
  let newCells := cells in
  let safeNeighbors := getAllNeighbors safePosition gridSize in
  let safeZone :=
    fold_left (fun zone neighbor =>
                 if setHas zone (posKey neighbor) then zone
                 else posKey neighbor :: zone)
      safeNeighbors [posKey safePosition] in
  let availablePositions :=
    filter (fun key => negb (setHas safeZone key)) (JsMap.keys newCells) in
  let shuffled := shuffle rnd availablePositions in
  let minePositions := sliceTo totalMines shuffled in
  let mined :=
    fold_left (fun m key =>
                 match JsMap.get m key with
                 | Some cell => JsMap.set m key (setMine cell)
                 | None => m
                 end) minePositions newCells in
  fold_left (fun m entry =>
               let '(key, cell) := entry in
               if isMine cell then m
               else JsMap.set m key
                      (setAdjacentMines cell (countAdjacentMines m key gridSize)))
    mined mined.

Record RevealResult : Type := mkRevealResult {
  resultCells : list (string * MinesweeperCell);
  hitMine : bool;
  revealed : Z
}.

(** The [while (toReveal.length > 0)] loop of [revealCell].  The array
    [toReveal] is used as a stack whose top is the head of the list.  The
    loop is run for at most [fuel] tests of its condition; [None] means
    that the fuel ran out. *)
Fixpoint floodFill (fuel : nat) (gridSize : Z)
  (newCells : list (string * MinesweeperCell)) (toReveal : list CubePosition)
  (visited : list string) (revealedCount : Z)
  : option (list (string * MinesweeperCell) * Z) :=
  match fuel with
  | O => None
  | S fuel' =>
      match toReveal with
      | [] => Some (newCells, revealedCount)
      | current :: rest =>
          let currentKey := posKey current in
          if setHas visited currentKey
          then floodFill fuel' gridSize newCells rest visited revealedCount
          else
            let visited' := currentKey :: visited in
            match JsMap.get newCells currentKey with
            | None =>
                floodFill fuel' gridSize newCells rest visited' revealedCount
            | Some currentCell =>
                if isRevealed currentCell || isFlagged currentCell
                   || isMine currentCell
                then floodFill fuel' gridSize newCells rest visited'
                       revealedCount
                else
                  let newCells' :=
                    JsMap.set newCells currentKey (setRevealed currentCell) in
                  let toReveal' :=
                    if adjacentMines currentCell =? 0
                    then fold_left
                           (fun stack neighbor =>
                              if setHas visited' (posKey neighbor) then stack
                              else neighbor :: stack)
                           (getAllNeighbors current gridSize) rest
                    else rest in
                  floodFill fuel' gridSize newCells' toReveal' visited'
                    (revealedCount + 1)
            end
      end
  end.

(** Enough fuel for any run of the loop ([floodFill_terminates]): a run
    reveals each cell at most once and pushes at most 8 positions per cell
    revealed. *)
Definition floodFuel (cells : list (string * MinesweeperCell)) : nat :=
  9 * length cells + 2.

Definition revealCell (cells : list (string * MinesweeperCell))
  (position : CubePosition) (gridSize : Z) : option RevealResult :=
  let newCells := cells in
  let key := posKey position in
  match JsMap.get newCells key with
  | None => Some (mkRevealResult newCells false 0)
  | Some cell =>
      if isRevealed cell || isFlagged cell
      then Some (mkRevealResult newCells false 0)
      else if isMine cell
      then Some (mkRevealResult (JsMap.set newCells key (setRevealed cell)) true 1)
      else
        match floodFill (floodFuel newCells) gridSize newCells [position] [] 0 with
        | Some (filled, revealedCount) =>
            Some (mkRevealResult filled false revealedCount)
        | None => None
        end
  end.

Record ChordResult : Type := mkChordResult {
  chordCells : list (string * MinesweeperCell);
  chordHitMine : bool;
  chordRevealed : Z;
  chordExplodedMine : option CubePosition
}.

Definition chordStep (gridSize : Z) (acc : option ChordResult)
  (neighbor : CubePosition) : option ChordResult :=
  match acc with
  | None => None
  | Some r =>
      match JsMap.get (chordCells r) (posKey neighbor) with
      | Some neighborCell =>
          if negb (isFlagged neighborCell) && negb (isRevealed neighborCell)
          then
            match revealCell (chordCells r) neighbor gridSize with
            | Some result =>
                Some (mkChordResult (resultCells result)
                        (if hitMine result then true else chordHitMine r)
                        (chordRevealed r + revealed result)
                        (if hitMine result then Some neighbor
                         else chordExplodedMine r))
            | None => None
            end
          else Some r
      | None => Some r
      end
  end.

Definition chordReveal (cells : list (string * MinesweeperCell))
  (position : CubePosition) (gridSize : Z) : option ChordResult :=
  let unchanged := Some (mkChordResult cells false 0 None) in
  match JsMap.get cells (posKey position) with
  | None => unchanged
  | Some cell =>
      if negb (isRevealed cell) || (adjacentMines cell =? 0) then unchanged
      else
        let neighbors := getAllNeighbors position gridSize in
        let flagCount := Z.of_nat (length (filter (flagAt cells) neighbors)) in
        if negb (flagCount =? adjacentMines cell) then unchanged
        else fold_left (chordStep gridSize) neighbors unchanged
  end.

Definition isValidAction (state : MinesweeperGameState)
  (action : MinesweeperAction) : bool :=
  if isGameOver state then false
  else
    match JsMap.get (cells state) (posKey (payload action)) with
    | None => false
    | Some cell =>
        match action with
        | Reveal _ => negb (isRevealed cell) && negb (isFlagged cell)
        | Flag _ => negb (isRevealed cell)
        | Chord _ => isRevealed cell && (adjacentMines cell >? 0)
        end
    end.

(** [applyAction]; [None] only if a flood fill ran out of fuel, which
    does not happen ([minesweeper_applyAction_total]). *)
Definition applyAction (rnd : RandomSource) (state : MinesweeperGameState)
  (action : MinesweeperAction) : option MinesweeperGameState :=
  if isGameOver state then Some state
  else
    match action with
    | Reveal position =>
        let cells' :=
          if isFirstClick state
          then placeMines rnd (cells state) position (gridSize state)
                 (totalMines state)
          else cells state in
        match revealCell cells' position (gridSize state) with
        | None => None
        | Some result =>
            let newRevealedCount := revealedCount state + revealed result in
            let totalCells := 6 * gridSize state * gridSize state in
            let nonMineCells := totalCells - totalMines state in
            let won := newRevealedCount >=? nonMineCells in
            Some (mkMinesweeperGameState (resultCells result)
                    (totalMines state) (flagCount state) newRevealedCount
                    false (hitMine result || won)
                    (won && negb (hitMine result)) (gridSize state)
                    (totalMines state)
                    (if hitMine result then Some position else None))
        end
    | Flag position =>
        let key := posKey position in
        match JsMap.get (cells state) key with
        | None => Some state
        | Some cell =>
            if isRevealed cell then Some state
            else
              let newFlagged := negb (isFlagged cell) in
              Some (mkMinesweeperGameState
                      (JsMap.set (cells state) key (setFlagged cell newFlagged))
                      (mineCount state)
                      (flagCount state + (if newFlagged then 1 else -1))
                      (revealedCount state) (isFirstClick state)
                      (isGameOver state) (isWon state) (gridSize state)
                      (totalMines state) (explodedMine state))
        end
    | Chord position =>
        match chordReveal (cells state) position (gridSize state) with
        | None => None
        | Some result =>
            let newRevealedCount := revealedCount state + chordRevealed result in
            let totalCells := 6 * gridSize state * gridSize state in
            let nonMineCells := totalCells - totalMines state in
            let won := newRevealedCount >=? nonMineCells in
            Some (mkMinesweeperGameState (chordCells result)
                    (mineCount state) (flagCount state) newRevealedCount
                    (isFirstClick state) (chordHitMine result || won)
                    (won && negb (chordHitMine result)) (gridSize state)
                    (totalMines state) (chordExplodedMine result))
        end
    end.

(** The number of cells of a map that hold a mine. *)
Definition countMines (m : list (string * MinesweeperCell)) : nat :=
  length (filter (fun entry => isMine (snd entry)) m).

(** [checkGameOver]: [isOver], and [winner], which is [1] or [undefined]. *)
Definition checkGameOver (state : MinesweeperGameState) : bool * option Z :=
  (isGameOver state, if isWon state then Some 1 else None).

(** The actions pushed by one iteration of the loop of [getValidActions]. *)
Definition cellActions (pos : CubePosition) (cell : MinesweeperCell)
  : list MinesweeperAction :=
  (if negb (isRevealed cell) && negb (isFlagged cell) then [Reveal pos] else [])
  ++ (if negb (isRevealed cell) then [Flag pos] else [])
  ++ (if isRevealed cell && (adjacentMines cell >? 0) then [Chord pos] else []).

(** The loop of [getValidActions] over the entries of the map.  A key
    that [parseKey] cannot read back would give a payload with a [NaN]
    coordinate, which positions of the model do not have: the result is
    then [None]. *)
Fixpoint actionsOf (entries : list (string * MinesweeperCell))
  : option (list MinesweeperAction) :=
  match entries with
  | [] => Some []
  | (key, cell) :: rest =>
      match parseKey key, actionsOf rest with
      | Some pos, Some actions => Some (cellActions pos cell ++ actions)
      | _, _ => None
      end
  end.

Definition getValidActions (state : MinesweeperGameState)
  : option (list MinesweeperAction) :=
  if isGameOver state then Some [] else actionsOf (cells state).

End Minesweeper.

(* ===================================================================== *)
(** * Tetris (games/tetris/TetrisGame) *)
(* ===================================================================== *)

Module Tetris.

(** Reading or writing the grid outside its arrays (a [TypeError], or a
    sparse array, in JavaScript) and running out of fuel in the loop of
    [hardDrop] leave the domain of the model: the functions below then
    return [None].  On the grids built by [init] and kept by the game,
    [height] layers of [depth] rows of [width] cells, every access made
    after a bounds check is inside the arrays. *)
Definition andThen {A B : Type} (o : option A) (f : A -> option B) : option B :=
  match o with Some a => f a | None => None end.

Notation "'let?' a ':=' o 'in' k" := (andThen o (fun a => k))
  (at level 10, a name, o at level 100, k at level 200).

Record Vec3 : Type := mkVec3 { x : Z; y : Z; z : Z }.

Inductive Tetracube : Type :=
| cube_I | cube_O | cube_L | cube_J | cube_T | cube_S | cube_Z
| cube_Tower | cube_Corner.

Record Shape : Type := mkShape { shapeCells : list Vec3; shapeColor : string }.

Definition TETRACUBES (t : Tetracube) : Shape :=
  match t with
  | cube_I => mkShape [mkVec3 0 0 0; mkVec3 1 0 0; mkVec3 2 0 0; mkVec3 3 0 0] "#00f5ff"
  | cube_O => mkShape [mkVec3 0 0 0; mkVec3 1 0 0; mkVec3 0 0 1; mkVec3 1 0 1] "#ffd700"
  | cube_L => mkShape [mkVec3 0 0 0; mkVec3 1 0 0; mkVec3 2 0 0; mkVec3 2 0 1] "#f97316"
  | cube_J => mkShape [mkVec3 0 0 0; mkVec3 1 0 0; mkVec3 2 0 0; mkVec3 0 0 1] "#3b82f6"
  | cube_T => mkShape [mkVec3 0 0 0; mkVec3 1 0 0; mkVec3 2 0 0; mkVec3 1 0 1] "#a855f7"
  | cube_S => mkShape [mkVec3 0 0 0; mkVec3 1 0 0; mkVec3 1 0 1; mkVec3 2 0 1] "#22c55e"
  | cube_Z => mkShape [mkVec3 1 0 0; mkVec3 2 0 0; mkVec3 0 0 1; mkVec3 1 0 1] "#ef4444"
  | cube_Tower => mkShape [mkVec3 0 0 0; mkVec3 1 0 0; mkVec3 0 1 0; mkVec3 1 1 0] "#ec4899"
  | cube_Corner => mkShape [mkVec3 0 0 0; mkVec3 1 0 0; mkVec3 0 0 1; mkVec3 0 1 0] "#14b8a6"
  end.

Definition TETRACUBE_TYPES : list Tetracube :=
  [cube_I; cube_O; cube_L; cube_J; cube_T; cube_S; cube_Z; cube_Tower; cube_Corner].

Record FallingPiece3D : Type := mkFallingPiece3D {
  type : Tetracube;
  position : Vec3;
  rotationX : Z;
  rotationY : Z;
  rotationZ : Z
}.

Record GridCell3D : Type := mkGridCell3D { filled : bool; color : string }.

(** [interface Tetris3DGameState]; the inherited [pieces] and [winner] are
    never written after [init] and are left out. *)
Record Tetris3DGameState : Type := mkTetris3DGameState {
  grid : list (list (list GridCell3D));
  currentPiece : option FallingPiece3D;
  nextPiece : Tetracube;
  heldPiece : option Tetracube;
  canHold : bool;
  score : Z;
  level : Z;
  layersCleared : Z;
  fallSpeed : Z;
  isGameOver : bool;
  isPaused : bool;
  width : Z;
  depth : Z;
  height : Z
}.

Inductive MoveDirection : Type :=
| move_left | move_right | move_forward | move_backward.

Inductive RotationAxis : Type :=
| rot_x | rot_x_neg | rot_y | rot_y_neg | rot_z | rot_z_neg.

Inductive DropKind : Type := soft | hard.

Inductive Tetris3DAction : Type :=
| Move (payload : MoveDirection)
| Rotate (payload : RotationAxis)
| Drop (payload : DropKind)
| Tick
| Hold
| Pause
| Resume.

Inductive Axis : Type := axis_x | axis_y | axis_z.

Definition rotateOnce (axis : Axis) (point : Vec3) : Vec3 :=
  match axis with
  | axis_x => mkVec3 (x point) (- z point) (y point)
  | axis_y => mkVec3 (z point) (y point) (- x point)
  | axis_z => mkVec3 (- y point) (x point) (z point)
  end.

(** [rotatePoint]; [%] is the remainder of JavaScript, [Z.rem]. *)
Definition rotatePoint (point : Vec3) (axis : Axis) (times : Z) : Vec3 :=
  let rotations := Z.rem (Z.rem times 4 + 4) 4 in
  Nat.iter (Z.to_nat rotations) (rotateOnce axis) point.

(** [getPieceCells].  The rotation fields hold multiples of 90 (they start
    at 0 and [rotatePiece] adds or subtracts 90 modulo 360), so the
    divisions by 90 are exact; all coordinates are integers, on which
    [Math.round] is the identity. *)
Definition getPieceCells (piece : FallingPiece3D) : list Vec3 :=
  map (fun cell =>
         let r1 := rotatePoint cell axis_x (rotationX piece / 90) in
         let r2 := rotatePoint r1 axis_y (rotationY piece / 90) in
         let r3 := rotatePoint r2 axis_z (rotationZ piece / 90) in
         mkVec3 (x (position piece) + x r3) (y (position piece) + y r3)
           (z (position piece) + z r3))
      (shapeCells (TETRACUBES (type piece))).

Definition cubeWidth : Z := 6.
Definition cubeDepth : Z := 6.
Definition cubeHeight : Z := 12.

Definition emptyCell : GridCell3D := mkGridCell3D false "".

Definition emptyLayer (depth width : Z) : list (list GridCell3D) :=
  map (fun _ => map (fun _ => emptyCell) (upTo width)) (upTo depth).

Definition randomTetracube (rnd : RandomSource) (k : nat) : Tetracube :=
  nth (randomBelow rnd k (length TETRACUBE_TYPES)) TETRACUBE_TYPES cube_I.

Definition spawnPiece (t : Tetracube) : FallingPiece3D :=
  mkFallingPiece3D t
    (mkVec3 (cubeWidth / 2 - 1) (cubeHeight - 2) (cubeDepth / 2 - 1)) 0 0 0.

Definition init (rnd : RandomSource) : Tetris3DGameState :=
  let grid := map (fun _ => emptyLayer cubeDepth cubeWidth) (upTo cubeHeight) in
  let firstPiece := randomTetracube rnd 0 in
  let nextPiece := randomTetracube rnd 1 in
  mkTetris3DGameState grid (Some (spawnPiece firstPiece)) nextPiece None true
    0 1 0 1000 false false cubeWidth cubeDepth cubeHeight.

(** [grid[y][z][x]] for non-negative indices. *)
Definition gridAt (grid : list (list (list GridCell3D))) (cy cz cx : Z)
  : option GridCell3D :=
  let? layer := nth_error grid (Z.to_nat cy) in
  let? row := nth_error layer (Z.to_nat cz) in
  nth_error row (Z.to_nat cx).

(** [grid[y][z][x] = cell] for non-negative indices. *)
Definition gridSet (grid : list (list (list GridCell3D))) (cy cz cx : Z)
  (cell : GridCell3D) : option (list (list (list GridCell3D))) :=
  let? layer := nth_error grid (Z.to_nat cy) in
  let? row := nth_error layer (Z.to_nat cz) in
  let? _ := nth_error row (Z.to_nat cx) in
  Some (update grid (Z.to_nat cy)
          (update layer (Z.to_nat cz) (update row (Z.to_nat cx) cell))).

Definition inBounds (state : Tetris3DGameState) (cell : Vec3) : bool :=
  (0 <=? x cell) && (x cell <? width state)
  && (0 <=? z cell) && (z cell <? depth state)
  && (0 <=? y cell) && (y cell <? height state).

(** The loop of [isValidPosition] over the cells of the piece. *)
Fixpoint cellsFree (state : Tetris3DGameState) (cells : list Vec3) : option bool :=
  match cells with
  | [] => Some true
  | cell :: rest =>
      if negb (inBounds state cell) then Some false
      else
        let? placed := gridAt (grid state) (y cell) (z cell) (x cell) in
        if filled placed then Some false else cellsFree state rest
  end.

Definition isValidPosition (state : Tetris3DGameState) (piece : FallingPiece3D)
  : option bool :=
  cellsFree state (getPieceCells piece).

Definition withPiece (state : Tetris3DGameState) (piece : FallingPiece3D)
  : Tetris3DGameState :=
  mkTetris3DGameState (grid state) (Some piece) (nextPiece state)
    (heldPiece state) (canHold state) (score state) (level state)
    (layersCleared state) (fallSpeed state) (isGameOver state)
    (isPaused state) (width state) (depth state) (height state).

Definition withScore (state : Tetris3DGameState) (newScore : Z)
  : Tetris3DGameState :=
  mkTetris3DGameState (grid state) (currentPiece state) (nextPiece state)
    (heldPiece state) (canHold state) newScore (level state)
    (layersCleared state) (fallSpeed state) (isGameOver state)
    (isPaused state) (width state) (depth state) (height state).

Definition withPaused (state : Tetris3DGameState) (paused : bool)
  : Tetris3DGameState :=
  mkTetris3DGameState (grid state) (currentPiece state) (nextPiece state)
    (heldPiece state) (canHold state) (score state) (level state)
    (layersCleared state) (fallSpeed state) (isGameOver state)
    paused (width state) (depth state) (height state).

Definition translate (piece : FallingPiece3D) (d : Vec3) : FallingPiece3D :=
  mkFallingPiece3D (type piece)
    (mkVec3 (x (position piece) + x d) (y (position piece) + y d)
       (z (position piece) + z d))
    (rotationX piece) (rotationY piece) (rotationZ piece).

(** The piece one cell lower, as [softDrop], [tick] and [hardDrop] build it. *)
Definition lowered (piece : FallingPiece3D) : FallingPiece3D :=
  mkFallingPiece3D (type piece)
    (mkVec3 (x (position piece)) (y (position piece) - 1) (z (position piece)))
    (rotationX piece) (rotationY piece) (rotationZ piece).

Definition movePiece (state : Tetris3DGameState) (direction : MoveDirection)
  : option Tetris3DGameState :=
  match currentPiece state with
  | None => Some state
  | Some piece =>
      let delta :=
        match direction with
        | move_left => mkVec3 (-1) 0 0
        | move_right => mkVec3 1 0 0
        | move_forward => mkVec3 0 0 (-1)
        | move_backward => mkVec3 0 0 1
        end in
      let newPiece := translate piece delta in
      let? ok := isValidPosition state newPiece in
      if ok then Some (withPiece state newPiece) else Some state
  end.

Definition kicks : list Vec3 :=
  [ mkVec3 (-1) 0 0; mkVec3 1 0 0; mkVec3 0 0 (-1); mkVec3 0 0 1;
    mkVec3 0 1 0; mkVec3 0 (-1) 0; mkVec3 (-2) 0 0; mkVec3 2 0 0;
    mkVec3 0 0 (-2); mkVec3 0 0 2 ].

Fixpoint tryKicks (state : Tetris3DGameState) (newPiece : FallingPiece3D)
  (ks : list Vec3) : option Tetris3DGameState :=
  match ks with
  | [] => Some state
  | kick :: rest =>
      let kickedPiece := translate newPiece kick in
      let? ok := isValidPosition state kickedPiece in
      if ok then Some (withPiece state kickedPiece)
      else tryKicks state newPiece rest
  end.

Definition rotatePiece (state : Tetris3DGameState) (axis : RotationAxis)
  : option Tetris3DGameState :=
  match currentPiece state with
  | None => Some state
  | Some piece =>
      let isNegative :=
        match axis with
        | rot_x_neg | rot_y_neg | rot_z_neg => true
        | _ => false
        end in
      let cleanAxis :=
        match axis with
        | rot_x | rot_x_neg => axis_x
        | rot_y | rot_y_neg => axis_y
        | rot_z | rot_z_neg => axis_z
        end in
      let delta := if isNegative then -90 else 90 in
      let newPiece :=
        match cleanAxis with
        | axis_x =>
            mkFallingPiece3D (type piece) (position piece)
              (Z.rem (rotationX piece + delta + 360) 360)
              (rotationY piece) (rotationZ piece)
        | axis_y =>
            mkFallingPiece3D (type piece) (position piece) (rotationX piece)
              (Z.rem (rotationY piece + delta + 360) 360) (rotationZ piece)
        | axis_z =>
            mkFallingPiece3D (type piece) (position piece) (rotationX piece)
              (rotationY piece) (Z.rem (rotationZ piece + delta + 360) 360)
        end in
      let? ok := isValidPosition state newPiece in
      if ok then Some (withPiece state newPiece)
      else tryKicks state newPiece kicks
  end.

Definition softDrop (state : Tetris3DGameState) : option Tetris3DGameState :=
  match currentPiece state with
  | None => Some state
  | Some piece =>
      let newPiece := lowered piece in
      let? ok := isValidPosition state newPiece in
      if ok then Some (withScore (withPiece state newPiece) (score state + 1))
      else Some state
  end.

(** Stamping the cells of the piece into the copy of the grid. *)
Fixpoint placeCells (state : Tetris3DGameState)
  (grid : list (list (list GridCell3D))) (cells : list Vec3) (c : string)
  : option (list (list (list GridCell3D))) :=
  match cells with
  | [] => Some grid
  | cell :: rest =>
      if (0 <=? y cell) && (y cell <? height state)
         && (0 <=? z cell) && (z cell <? depth state)
         && (0 <=? x cell) && (x cell <? width state)
      then
        let? grid' := gridSet grid (y cell) (z cell) (x cell) (mkGridCell3D true c) in
        placeCells state grid' rest c
      else placeCells state grid rest c
  end.

(** The two inner loops of the layer scan, over the [(z, x)] pairs in the
    order visited; they stop at the first cell that is not filled. *)
Fixpoint layerComplete (grid : list (list (list GridCell3D))) (ly : Z)
  (coords : list (Z * Z)) : option bool :=
  match coords with
  | [] => Some true
  | (cz, cx) :: rest =>
      let? cell := gridAt grid ly cz cx in
      if filled cell then layerComplete grid ly rest else Some false
  end.

Definition layerCoords (depth width : Z) : list (Z * Z) :=
  flat_map (fun cz => map (fun cx => (cz, cx)) (upTo width)) (upTo depth).

Fixpoint completedLayersIn (grid : list (list (list GridCell3D)))
  (depth width : Z) (ys : list Z) : option (list Z) :=
  match ys with
  | [] => Some []
  | ly :: rest =>
      let? complete := layerComplete grid ly (layerCoords depth width) in
      let? others := completedLayersIn grid depth width rest in
      Some (if complete then ly :: others else others)
  end.

(** [completedLayers.sort((a, b) => b - a)]. *)
Fixpoint insertDescending (a : Z) (l : list Z) : list Z :=
  match l with
  | [] => [a]
  | b :: rest => if b <? a then a :: l else b :: insertDescending a rest
  end.

Definition sortDescending (l : list Z) : list Z :=
  fold_right insertDescending [] l.

(** [grid.splice(i, 1)]. *)
Fixpoint removeAt {A : Type} (i : nat) (l : list A) : list A :=
  match l, i with
  | [], _ => []
  | _ :: rest, O => rest
  | a :: rest, S i' => a :: removeAt i' rest
  end.

Definition removeLayers (state : Tetris3DGameState)
  (grid : list (list (list GridCell3D))) (layers : list Z)
  : list (list (list GridCell3D)) :=
  fold_left (fun g layerY =>
               removeAt (Z.to_nat layerY) g
                 ++ [emptyLayer (depth state) (width state)])
    layers grid.

Definition layerScores : list Z := [0; 100; 300; 500; 800; 1200; 1600; 2000].

(** [layerScores[Math.min(n, layerScores.length - 1)] || n * 300]. *)
Definition layerScoreFor (n : Z) : Z :=
  let entry := nth (Z.to_nat (Z.min n (Z.of_nat (length layerScores) - 1)))
                 layerScores 0 in
  if entry =? 0 then n * 300 else entry.

Definition lockPiece (rnd : RandomSource) (state : Tetris3DGameState)
  : option Tetris3DGameState :=
  match currentPiece state with
  | None => Some state
  | Some piece =>
      let cells := getPieceCells piece in
      let c := shapeColor (TETRACUBES (type piece)) in
      let? stamped := placeCells state (grid state) cells c in
      let? completedLayers :=
        completedLayersIn stamped (depth state) (width state)
          (upTo (height state)) in
      let grid' := removeLayers state stamped (sortDescending completedLayers) in
      let cleared := Z.of_nat (length completedLayers) in
      let layerScore := layerScoreFor cleared in
      let newLayersCleared := layersCleared state + cleared in
      let newLevel := newLayersCleared / 5 + 1 in
      let newSpeed := Z.max 200 (1000 - (newLevel - 1) * 100) in
      let next := spawnPiece (nextPiece state) in
      let? ok :=
        isValidPosition
          (mkTetris3DGameState grid' (currentPiece state) (nextPiece state)
             (heldPiece state) (canHold state) (score state) (level state)
             (layersCleared state) (fallSpeed state) (isGameOver state)
             (isPaused state) (width state) (depth state) (height state))
          next in
      let over := negb ok in
      Some (mkTetris3DGameState grid' (if over then None else Some next)
              (randomTetracube rnd 0) (heldPiece state) true
              (score state + layerScore * newLevel) newLevel newLayersCleared
              newSpeed over (isPaused state) (width state) (depth state)
              (height state))
  end.

(** The [while] loop of [hardDrop]: [fuel] bounds the number of tests of
    its condition.  A piece whose pivot is at height [h] can be lowered at
    most [h + 3] times before one of its cells, at most 3 below the pivot,
    is under the floor; [hardDrop] gives the loop [h + 5] tests. *)
Fixpoint dropWhileFree (fuel : nat) (state : Tetris3DGameState)
  (piece : FallingPiece3D) (dropDistance : Z) : option (FallingPiece3D * Z) :=
  match fuel with
  | O => None
  | S fuel' =>
      let? ok := isValidPosition state (lowered piece) in
      if ok then dropWhileFree fuel' state (lowered piece) (dropDistance + 1)
      else Some (piece, dropDistance)
  end.

Definition hardDrop (rnd : RandomSource) (state : Tetris3DGameState)
  : option Tetris3DGameState :=
  match currentPiece state with
  | None => Some state
  | Some piece =>
      let? dropped :=
        dropWhileFree (S (Z.to_nat (y (position piece) + 4))) state piece 0 in
      let '(newPiece, dropDistance) := dropped in
      lockPiece rnd
        (withScore (withPiece state newPiece) (score state + dropDistance * 2))
  end.

Definition tick (rnd : RandomSource) (state : Tetris3DGameState)
  : option Tetris3DGameState :=
  match currentPiece state with
  | None => Some state
  | Some piece =>
      if isPaused state then Some state
      else
        let newPiece := lowered piece in
        let? ok := isValidPosition state newPiece in
        if ok then Some (withPiece state newPiece)
        else lockPiece rnd state
  end.

Definition holdPiece (rnd : RandomSource) (state : Tetris3DGameState)
  : option Tetris3DGameState :=
  match currentPiece state with
  | None => Some state
  | Some piece =>
      if negb (canHold state) then Some state
      else
        let currentType := type piece in
        match heldPiece state with
        | Some held =>
            Some (mkTetris3DGameState (grid state) (Some (spawnPiece held))
                    (nextPiece state) (Some currentType) false (score state)
                    (level state) (layersCleared state) (fallSpeed state)
                    (isGameOver state) (isPaused state) (width state)
                    (depth state) (height state))
        | None =>
            Some (mkTetris3DGameState (grid state)
                    (Some (spawnPiece (nextPiece state)))
                    (randomTetracube rnd 0) (Some currentType) false
                    (score state) (level state) (layersCleared state)
                    (fallSpeed state) (isGameOver state) (isPaused state)
                    (width state) (depth state) (height state))
        end
  end.

Definition isValidAction (state : Tetris3DGameState) (action : Tetris3DAction)
  : bool :=
  if isGameOver state then false
  else
    match action with
    | Tick | Move _ | Rotate _ | Drop _ | Hold =>
        negb (isPaused state)
        && match currentPiece state with Some _ => true | None => false end
    | Pause => negb (isPaused state)
    | Resume => isPaused state
    end.

Definition applyAction (rnd : RandomSource) (state : Tetris3DGameState)
  (action : Tetris3DAction) : option Tetris3DGameState :=
  match action with
  | Move payload => movePiece state payload
  | Rotate payload => rotatePiece state payload
  | Drop hard => hardDrop rnd state
  | Drop soft => softDrop state
  | Tick => tick rnd state
  | Hold => holdPiece rnd state
  | Pause => Some (withPaused state true)
  | Resume => Some (withPaused state false)
  end.

(** The [while] loop of [getGhostPosition], with the fuel of the loop of
    [hardDrop]. *)
Fixpoint ghostWhileFree (fuel : nat) (state : Tetris3DGameState)
  (ghost : FallingPiece3D) : option FallingPiece3D :=
  match fuel with
  | O => None
  | S fuel' =>
      let? ok := isValidPosition state (lowered ghost) in
      if ok then ghostWhileFree fuel' state (lowered ghost)
      else Some ghost
  end.

(** [getGhostPosition]: [Some None] is the [null] returned when there is
    no current piece. *)
Definition getGhostPosition (state : Tetris3DGameState)
  : option (option FallingPiece3D) :=
  match currentPiece state with
  | None => Some None
  | Some piece =>
      let? ghost :=
        ghostWhileFree (S (Z.to_nat (y (position piece) + 4))) state piece in
      Some (Some ghost)
  end.

Definition checkGameOver (state : Tetris3DGameState) : bool := isGameOver state.

Definition getValidActions (state : Tetris3DGameState) : list Tetris3DAction :=
  if isGameOver state then []
  else if isPaused state then [Resume]
  else
    [Pause]
    ++ match currentPiece state with
       | Some _ =>
           [ Move move_left; Move move_right; Move move_forward;
             Move move_backward; Rotate rot_x; Rotate rot_y; Rotate rot_z;
             Drop soft; Drop hard; Tick ]
           ++ (if canHold state then [Hold] else [])
       | None => []
       end.

End Tetris.

(* ===================================================================== *)
(** * The seeded generator of Nonogram (games/nonogram/NonogramGame) *)
(* ===================================================================== *)

(** [class SeededRandom] (Mulberry32).  The field [state] is a JavaScript
    number to which [next] adds a constant; it is modelled by the integer
    it holds, which is exact below [2^53].  The bit operators first
    convert their operands to 32-bit integers: [toInt32] and [toUint32]
    are these conversions on integers.  [next] returns a multiple of
    [2^-32] in [[0, 1)], exactly representable: the model returns its
    numerator, the unsigned 32-bit integer that the code divides by
    [4294967296]. *)
Module SeededRandom.

Definition toInt32 (n : Z) : Z :=
  (n + 2147483648) mod 4294967296 - 2147483648.

Definition toUint32 (n : Z) : Z := n mod 4294967296.

(** [Math.imul]. *)
Definition imul (a b : Z) : Z := toInt32 (toInt32 a * toInt32 b).

(** [a ^ b], [a | b] and [a >>> k]. *)
Definition xor (a b : Z) : Z := Z.lxor (toInt32 a) (toInt32 b).
Definition or (a b : Z) : Z := Z.lor (toInt32 a) (toInt32 b).
Definition shiftRightUnsigned (a k : Z) : Z := Z.shiftr (toUint32 a) k.

(** [next]: the numerator of the number returned, and the new state. *)
Definition next (state : Z) : Z * Z :=
  let state' := state + 1831565813 (* 0x6D2B79F5 *) in
  let t := state' in
  let t := imul (xor t (shiftRightUnsigned t 15)) (or t 1) in
  let t := xor t (t + imul (xor t (shiftRightUnsigned t 7)) (or t 61)) in
  (shiftRightUnsigned (xor t (shiftRightUnsigned t 14)) 0, state').

(** [nextInt]: [Math.floor(this.next() * (max - min)) + min].  The product
    is exact for ranges below [2^21], the only ones the generators use. *)
Definition nextInt (state min max : Z) : Z * Z :=
  let (numerator, state') := next state in
  (numerator * (max - min) / 4294967296 + min, state').

(** [[array[i], array[j]] = [array[j], array[i]]] for indices within the
    array. *)
Definition swapAt {T : Type} (a : list T) (i j : nat) : list T :=
  match nth_error a i, nth_error a j with
  | Some ai, Some aj => update (update a i aj) j ai
  | _, _ => a
  end.

(** The loop of [shuffle], from index [i] down to 1. *)
Fixpoint shuffleFrom {T : Type} (state : Z) (i : nat) (a : list T)
  : list T * Z :=
  match i with
  | O => (a, state)
  | S i' =>
      let (j, state') := nextInt state 0 (Z.of_nat i + 1) in
      shuffleFrom state' i' (swapAt a i (Z.to_nat j))
  end.

Definition shuffle {T : Type} (state : Z) (a : list T) : list T * Z :=
  shuffleFrom state (length a - 1) a.

End SeededRandom.

(* ===================================================================== *)
(** * Nonogram (games/nonogram/NonogramGame) *)
(* ===================================================================== *)

Module Nonogram.

Inductive NonogramCellState : Type := UNKNOWN | FILLED | EMPTY.

Definition NonogramCellState_eqb (a b : NonogramCellState) : bool :=
  match a, b with
  | UNKNOWN, UNKNOWN | FILLED, FILLED | EMPTY, EMPTY => true
  | _, _ => false
  end.

(** [interface NonogramCell].  A cell created by [markEmpty] or [clear]
    for a key that was absent has no [solution] property; reading it gives
    [undefined], which every test of the module treats as [false]. *)
Record NonogramCell : Type := mkNonogramCell {
  solution : bool;
  state : NonogramCellState
}.

Record FaceClues : Type := mkFaceClues {
  rows : list (list Z);
  cols : list (list Z)
}.

Record NonogramGameState : Type := mkNonogramGameState {
  cells : list (string * NonogramCell);
  clues : list (CubeFace * FaceClues);
  gridSize : Z;
  isGameOver : bool;
  isWon : bool;
  mistakes : Z;
  maxMistakes : Z;
  revealedHint : option CubePosition;
  completedFaces : list CubeFace;
  winner : option Z
}.

Inductive NonogramAction : Type :=
| Fill (payload : CubePosition)
| MarkEmpty (payload : CubePosition)
| Clear (payload : CubePosition)
| Hint (payload : CubePosition).

Definition payload (action : NonogramAction) : CubePosition :=
  match action with Fill p | MarkEmpty p | Clear p | Hint p => p end.

(** The fields of a [NonogramGame] instance that its methods read. *)
Record NonogramConfig : Type := mkNonogramConfig {
  configGridSize : Z;
  configMaxMistakes : Z
}.

Definition DEFAULT_CONFIG : NonogramConfig := mkNonogramConfig 5 3.

Definition ALL_FACES : list CubeFace := [FRONT; BACK; LEFT; RIGHT; TOP; BOTTOM].

(** [calculateLineClue]: the loop, then the final push and the [[0]] of an
    empty line. *)
Fixpoint lineGroups (line : list bool) (currentGroup : Z) (clue : list Z)
  : list Z :=
  match line with
  | [] => if currentGroup >? 0 then clue ++ [currentGroup] else clue
  | cell :: rest =>
      if cell then lineGroups rest (currentGroup + 1) clue
      else if currentGroup >? 0 then lineGroups rest 0 (clue ++ [currentGroup])
      else lineGroups rest currentGroup clue
  end.

Definition calculateLineClue (line : list bool) : list Z :=
  let clue := lineGroups line 0 [] in
  match clue with [] => [0] | _ => clue end.

(** [pattern[y][x]] on a grid of booleans. *)
Definition patternCell (facePattern : list (list bool)) (px py : Z) : bool :=
  nth (Z.to_nat px) (nth (Z.to_nat py) facePattern []) false.

Definition generateFaceClues (facePattern : list (list bool)) (gridSize : Z)
  : FaceClues :=
  mkFaceClues
    (map (fun py => calculateLineClue (nth (Z.to_nat py) facePattern []))
       (upTo gridSize))
    (map (fun px =>
            calculateLineClue
              (map (fun py => patternCell facePattern px py) (upTo gridSize)))
       (upTo gridSize)).

(** The positions visited by the loops of [init], rows outermost. *)
Definition allPositions (gridSize : Z) : list CubePosition :=
  flat_map (fun f =>
    flat_map (fun py => map (fun px => mkCubePosition f px py) (upTo gridSize))
      (upTo gridSize)) ALL_FACES.

Section WithPattern.

(** The puzzle drawn by [generatePuzzlePattern] from the seed of the game:
    for each face, [gridSize] rows of [gridSize] booleans.  The generator
    works on floating-point draws of a seeded generator and is kept
    abstract; what follows holds for every pattern. *)
Variable pattern : CubeFace -> list (list bool).

Definition init (game : NonogramConfig) : NonogramGameState :=
  let cells :=
    fold_left (fun m p =>
                 JsMap.set m (posKey p)
                   (mkNonogramCell (patternCell (pattern (face p)) (x p) (y p))
                      UNKNOWN))
      (allPositions (configGridSize game)) [] in
  let clues :=
    map (fun f => (f, generateFaceClues (pattern f) (configGridSize game)))
      ALL_FACES in
  mkNonogramGameState cells clues (configGridSize game) false false 0
    (configMaxMistakes game) None [] None.

End WithPattern.

Definition isValidAction (st : NonogramGameState) (action : NonogramAction)
  : bool :=
  if isGameOver st then false
  else
    match JsMap.get (cells st) (posKey (payload action)) with
    | None => false
    | Some cell =>
        match action with
        | Fill _ | MarkEmpty _ | Hint _ => NonogramCellState_eqb (state cell) UNKNOWN
        | Clear _ => negb (NonogramCellState_eqb (state cell) UNKNOWN)
        end
    end.

Definition cellUnsolved (cell : NonogramCell) : bool :=
  solution cell && negb (NonogramCellState_eqb (state cell) FILLED).

Definition isFaceComplete (cells : list (string * NonogramCell)) (f : CubeFace)
  (gridSize : Z) : bool :=
  forallb (fun py =>
             forallb (fun px =>
                        match JsMap.get cells (posKey (mkCubePosition f px py)) with
                        | None => false
                        | Some cell => negb (cellUnsolved cell)
                        end) (upTo gridSize)) (upTo gridSize).

Definition checkWinCondition (cells : list (string * NonogramCell)) : bool :=
  forallb (fun entry => negb (cellUnsolved (snd entry))) cells.

(** [Set.add] and [Set.delete] on a set kept as the list of its members. *)
Definition faceAdd (s : list CubeFace) (f : CubeFace) : list CubeFace :=
  if existsb (CubeFace_eqb f) s then s else s ++ [f].

Definition faceDelete (s : list CubeFace) (f : CubeFace) : list CubeFace :=
  filter (fun f' => negb (CubeFace_eqb f f')) s.

(** [{ ...cell, state }], [cell] being [undefined] when the key is absent. *)
Definition withState (cell : option NonogramCell) (st : NonogramCellState)
  : NonogramCell :=
  match cell with
  | Some c => mkNonogramCell (solution c) st
  | None => mkNonogramCell false st
  end.

(** [applyAction].  The result is [None] when the run throws: [fill] and
    [hint] read [cell.solution], a [TypeError] when the key is absent. *)
Definition applyAction (game : NonogramConfig) (st : NonogramGameState)
  (action : NonogramAction) : option NonogramGameState :=
  let key := posKey (payload action) in
  let cell := JsMap.get (cells st) key in
  let updated :=
    match action, cell with
    | Fill _, Some c =>
        if solution c
        then Some (JsMap.set (cells st) key (withState cell FILLED),
                   mistakes st, None)
        else Some (JsMap.set (cells st) key (withState cell EMPTY),
                   mistakes st + 1, None)
    | Fill _, None => None
    | MarkEmpty _, _ =>
        Some (JsMap.set (cells st) key (withState cell EMPTY), mistakes st, None)
    | Clear _, _ =>
        Some (JsMap.set (cells st) key (withState cell UNKNOWN), mistakes st, None)
    | Hint p, Some c =>
        Some (JsMap.set (cells st) key
                (withState cell (if solution c then FILLED else EMPTY)),
              mistakes st, Some p)
    | Hint _, None => None
    end in
  match updated with
  | None => None
  | Some (newCells, mistakes', revealedHint') =>
      let completedFaces' :=
        fold_left (fun s f =>
                     if isFaceComplete newCells f (configGridSize game)
                     then faceAdd s f else faceDelete s f)
          ALL_FACES (completedFaces st) in
      let won := checkWinCondition newCells in
      let over := won || (mistakes' >=? configMaxMistakes game) in
      Some (mkNonogramGameState newCells (clues st) (gridSize st) over won
              mistakes' (maxMistakes st) revealedHint' completedFaces'
              (if won then Some 1 else None))
  end.


(** [checkGameOver]: [isOver], and [winner], which is [1] or [undefined]. *)
Definition checkGameOver (st : NonogramGameState) : bool * option Z :=
  (isGameOver st, if isWon st then Some 1 else None).

(** The actions pushed by one iteration of the loop of [getValidActions]. *)
Definition cellActions (pos : CubePosition) (cell : NonogramCell)
  : list NonogramAction :=
  if NonogramCellState_eqb (state cell) UNKNOWN
  then [Fill pos; MarkEmpty pos; Hint pos]
  else [Clear pos].

(** The loop of [getValidActions]; [None] for a key that [parseKey] cannot
    read back, as in Minesweeper. *)
Fixpoint actionsOf (entries : list (string * NonogramCell))
  : option (list NonogramAction) :=
  match entries with
  | [] => Some []
  | (key, cell) :: rest =>
      match parseKey key, actionsOf rest with
      | Some pos, Some actions => Some (cellActions pos cell ++ actions)
      | _, _ => None
      end
  end.

Definition getValidActions (st : NonogramGameState)
  : option (list NonogramAction) :=
  if isGameOver st then Some [] else actionsOf (cells st).

(** [state.clues.get(face)] on the [Map<CubeFace, FaceClues>]. *)
Definition getCluesForFace (st : NonogramGameState) (f : CubeFace)
  : option FaceClues :=
  option_map snd (find (fun entry => CubeFace_eqb (fst entry) f) (clues st)).

(** The test [cell?.solution && cell.state !== FILLED] of [isRowComplete]
    and [isColComplete], negated; an absent cell passes. *)
Definition lineCellDone (cells : list (string * NonogramCell))
  (p : CubePosition) : bool :=
  match JsMap.get cells (posKey p) with
  | Some cell => negb (cellUnsolved cell)
  | None => true
  end.

Definition isRowComplete (game : NonogramConfig) (st : NonogramGameState)
  (f : CubeFace) (row : Z) : bool :=
  forallb (fun px => lineCellDone (cells st) (mkCubePosition f px row))
    (upTo (configGridSize game)).

Definition isColComplete (game : NonogramConfig) (st : NonogramGameState)
  (f : CubeFace) (col : Z) : bool :=
  forallb (fun py => lineCellDone (cells st) (mkCubePosition f col py))
    (upTo (configGridSize game)).

End Nonogram.

(* ===================================================================== *)
(** * The base class of the games (games/base/Game) *)
(* ===================================================================== *)

Module BaseGame.

(** [getNextPlayer]: [(currentPlayer % this.playerCount) + 1]; [%] is the
    remainder of JavaScript, [Z.rem], and [NaN] (here [None]) when
    [playerCount] is 0. *)
Definition getNextPlayer (playerCount currentPlayer : Z) : option Z :=
  if playerCount =? 0 then None
  else Some (Z.rem currentPlayer playerCount + 1).

End BaseGame.

(* ===================================================================== *)
(** * The game store (games/base/GameState) *)
(* ===================================================================== *)

(** The store created by [useGameStore]: its state and its actions, each
    action a function from the state read by [get()] to the state left by
    [set(...)].  The store holds any object of the [Game] interface; the
    methods it calls are parameters.  [init] and [applyAction] may draw
    from [Math.random], so they take the random source of the call. *)
Module GameStore.

Section Store.

Variables TState TAction Game : Type.
Variable init : Game -> RandomSource -> TState.
Variable isValidAction : Game -> TState -> TAction -> bool.
Variable applyAction : Game -> RandomSource -> TState -> TAction -> TState.

(** [interface GameManagerState], the data fields.  [gameState] is [None]
    for [null] and for the [undefined] read outside [history]. *)
Record GameManagerState : Type := mkGameManagerState {
  currentGame : option Game;
  gameState : option TState;
  selectedPieceId : option string;
  hoveredPieceId : option string;
  currentFace : CubeFace;
  isPaused : bool;
  history : list TState;
  historyIndex : Z
}.

(** The state the store is created with. *)
Definition initialState : GameManagerState :=
  mkGameManagerState None None None None FRONT false [] (-1).

(** [history[i]]. *)
Definition historyAt (h : list TState) (i : Z) : option TState :=
  if i <? 0 then None else nth_error h (Z.to_nat i).

(** [history.slice(0, n)]. *)
Definition sliceTo (n : Z) (h : list TState) : list TState :=
  if n <? 0 then firstn (length h - Z.to_nat (- n)) h
  else firstn (Z.to_nat n) h.

Definition loadGame (rnd : RandomSource) (store : GameManagerState)
  (game : Game) : GameManagerState :=
  let initial := init game rnd in
  mkGameManagerState (Some game) (Some initial) None None
    (currentFace store) false [initial] 0.

Definition unloadGame (store : GameManagerState) : GameManagerState :=
  mkGameManagerState None None None None (currentFace store)
    (isPaused store) [] (-1).

Definition dispatch (rnd : RandomSource) (store : GameManagerState)
  (action : TAction) : GameManagerState :=
  match currentGame store, gameState store with
  | Some game, Some current =>
      if negb (isValidAction game current action) then store
      else
        let newState := applyAction game rnd current action in
        let newHistory :=
          sliceTo (historyIndex store + 1) (history store) ++ [newState] in
        mkGameManagerState (currentGame store) (Some newState) None
          (hoveredPieceId store) (currentFace store) (isPaused store)
          newHistory (Z.of_nat (length newHistory) - 1)
  | _, _ => store
  end.

Definition undo (store : GameManagerState) : GameManagerState :=
  if historyIndex store <=? 0 then store
  else
    mkGameManagerState (currentGame store)
      (historyAt (history store) (historyIndex store - 1)) None
      (hoveredPieceId store) (currentFace store) (isPaused store)
      (history store) (historyIndex store - 1).

Definition redo (store : GameManagerState) : GameManagerState :=
  if historyIndex store >=? Z.of_nat (length (history store)) - 1 then store
  else
    mkGameManagerState (currentGame store)
      (historyAt (history store) (historyIndex store + 1)) None
      (hoveredPieceId store) (currentFace store) (isPaused store)
      (history store) (historyIndex store + 1).

Definition reset (rnd : RandomSource) (store : GameManagerState)
  : GameManagerState :=
  match currentGame store with
  | None => store
  | Some game =>
      let initial := init game rnd in
      mkGameManagerState (currentGame store) (Some initial) None None
        (currentFace store) (isPaused store) [initial] 0
  end.

End Store.

Arguments currentGame {TState Game} _.
Arguments gameState {TState Game} _.
Arguments selectedPieceId {TState Game} _.
Arguments hoveredPieceId {TState Game} _.
Arguments currentFace {TState Game} _.
Arguments isPaused {TState Game} _.
Arguments history {TState Game} _.
Arguments historyIndex {TState Game} _.
Arguments mkGameManagerState {TState Game}.
Arguments initialState {TState Game}.
Arguments historyAt {TState}.
Arguments sliceTo {TState}.
Arguments loadGame {TState Game}.
Arguments unloadGame {TState Game}.
Arguments dispatch {TState TAction Game}.
Arguments undo {TState Game}.
Arguments redo {TState Game}.
Arguments reset {TState Game}.

End GameStore.

(* ===================================================================== *)
(** * Which transitions draw from the random source *)
(* ===================================================================== *)

(** Snake draws only in [spawnFood], reached by a [move] that is applied
    (not paused, not over), misses the body and lands on the food. *)
Definition snakeDrawFree {CameraUp : Type} (state : Snake.SnakeGameState CameraUp)
  (action : Snake.SnakeAction) : bool :=
  match action with
  | Snake.Move =>
      Snake.isPaused state || Snake.isGameOver state
      || match Snake.snake state with
         | [] => true
         | head :: _ =>
             Snake.occupies (Snake.snake state) (Snake.nextHead state head)
             || negb (positionsEqual (Snake.nextHead state head)
                        (Snake.food state))
         end
  | _ => true
  end.

(** Minesweeper draws only in [placeMines], reached by the first [reveal]
    of a game that is not over. *)
Definition minesweeperDrawFree (state : Minesweeper.MinesweeperGameState)
  (action : Minesweeper.MinesweeperAction) : bool :=
  Minesweeper.isGameOver state || negb (Minesweeper.isFirstClick state)
  || match action with Minesweeper.Reveal _ => false | _ => true end.

(** Tetris draws only in [randomTetracube], reached when a piece is locked
    ([tick] on a blocked piece, hard drop) and when a piece is held while
    none was held before. *)
Definition tetrisDrawFree (state : Tetris.Tetris3DGameState)
  (action : Tetris.Tetris3DAction) : bool :=
  match Tetris.currentPiece state with
  | None => true
  | Some piece =>
      match action with
      | Tetris.Tick =>
          Tetris.isPaused state
          || match Tetris.isValidPosition state (Tetris.lowered piece) with
             | Some false => false
             | _ => true
             end
      | Tetris.Drop Tetris.hard => false
      | Tetris.Hold =>
          negb (Tetris.canHold state)
          || match Tetris.heldPiece state with Some _ => true | None => false end
      | _ => true
      end
  end.

(** The grid has [h] layers of [d] rows of [w] cells. *)
Definition shaped (h d w : nat) (g : list (list (list Tetris.GridCell3D))) : Prop :=
  length g = h /\
  Forall (fun layer =>
            length layer = d /\ Forall (fun row => length row = w) layer) g.

(** The grid of a state has the dimensions the state records. *)
Definition wellFormed (state : Tetris.Tetris3DGameState) : Prop :=
  shaped (Z.to_nat (Tetris.height state)) (Z.to_nat (Tetris.depth state))
    (Z.to_nat (Tetris.width state)) (Tetris.grid state).

(* ===================================================================== *)
(** * Auxiliary notions *)
(* ===================================================================== *)

(** Functions and sample states used in the statements and proofs below. *)

(** Where a move that leaves [p] through [edge] arrives. *)
Definition enterAt (t : EdgeTransition) (edgeCoord gridSize : Z) : CubePosition :=
  let c := if flipX t || flipY t then gridSize - 1 - edgeCoord else edgeCoord in
  match toEdge t with
  | E_top => mkCubePosition (toFace t) c (gridSize - 1)
  | E_bottom => mkCubePosition (toFace t) c 0
  | E_left => mkCubePosition (toFace t) 0 c
  | E_right => mkCubePosition (toFace t) (gridSize - 1) c
  end.

(** What [movePosition] returns for a move that leaves the face of [p]
    through [edge]. *)
Definition leaveThrough (p : CubePosition) (edge : EdgeDirection) (gridSize : Z)
  : CubePosition :=
  match getEdgeTransition (face p) edge with
  | None => p
  | Some t =>
      enterAt t (match edge with
                 | E_top | E_bottom => x p
                 | E_left | E_right => y p
                 end) gridSize
  end.

(** A string of decimal digits. *)
Fixpoint noDash (s : string) : Prop :=
  match s with
  | EmptyString => True
  | String c rest => c <> "-"%char /\ isDigit c = true /\ noDash rest
  end.

(** The neighbour proposed for one delta, before de-duplication. *)
Definition candidate (p : CubePosition) (g : Z) (d : Delta) : option CubePosition :=
  if (dx d =? 0) || (dy d =? 0) then Some (movePosition p d g)
  else getDiagonalNeighbor p d g.

(** The neighbours proposed for a list of deltas, in order. *)
Definition candidatesFor (p : CubePosition) (g : Z) (ds : list Delta)
  : list CubePosition :=
  flat_map (fun d => match candidate p g d with Some n => [n] | None => [] end) ds.

Definition candidates (p : CubePosition) (g : Z) : list CubePosition :=
  candidatesFor p g NEIGHBOR_DELTAS.

(** The list of the neighbour found, if any. *)
Definition keep (o : option CubePosition) : list CubePosition :=
  match o with Some n => [n] | None => [] end.

(** A snake curled on FRONT, about to turn left into its own body. *)
Definition curledSnake : Snake.SnakeGameState unit :=
  Snake.mkSnakeGameState
    [ mkCubePosition FRONT 4 4; mkCubePosition FRONT 4 3;
      mkCubePosition FRONT 3 3; mkCubePosition FRONT 3 4;
      mkCubePosition FRONT 2 4 ]
    Snake.dir_up Snake.dir_left (mkCubePosition TOP 0 0) 20 200
    false false 8 tt.

(** The board after a first reveal at FRONT (3,3) with the default
    configuration; the cell FRONT (3,3) is then revealed. *)
Definition openedBoard : Minesweeper.MinesweeperGameState :=
  match Minesweeper.applyAction (fun k => k) (Minesweeper.init Minesweeper.DEFAULT_CONFIG)
          (Minesweeper.Reveal (mkCubePosition FRONT 3 3)) with
  | Some state => state
  | None => Minesweeper.init Minesweeper.DEFAULT_CONFIG
  end.

(** The mine flags of a cell map, key by key. *)
Definition mineView (m : list (string * Minesweeper.MinesweeperCell))
  : list (string * bool) :=
  map (fun e => (fst e, Minesweeper.isMine (snd e))) m.

(** The step of the "place mines" loop of [placeMines]. *)
Definition placeMine (m : list (string * Minesweeper.MinesweeperCell))
  (key : string) : list (string * Minesweeper.MinesweeperCell) :=
  match JsMap.get m key with
  | Some cell => JsMap.set m key (Minesweeper.setMine cell)
  | None => m
  end.

(** The mine flags once the keys of [M] have received a mine. *)
Definition markAll (M : list string) (v : list (string * bool))
  : list (string * bool) :=
  map (fun e => (fst e, if setHas M (fst e) then true else snd e)) v.

(** The step of the "adjacent mine counts" loop of [placeMines]. *)
Definition countStep (gridSize : Z)
  (m : list (string * Minesweeper.MinesweeperCell))
  (entry : string * Minesweeper.MinesweeperCell) :=
  let '(key, cell) := entry in
  if Minesweeper.isMine cell then m
  else JsMap.set m key
         (Minesweeper.setAdjacentMines cell
            (Minesweeper.countAdjacentMines m key gridSize)).

(** A cell that the flood fill would reveal when it reaches it. *)
Definition revealable (c : Minesweeper.MinesweeperCell) : bool :=
  negb (Minesweeper.isRevealed c || Minesweeper.isFlagged c
        || Minesweeper.isMine c).

(** The number of cells a flood fill could still reveal. *)
Definition hidden (m : list (string * Minesweeper.MinesweeperCell)) : nat :=
  length (filter (fun e => revealable (snd e)) m).

(** The safe zone of [placeMines]: the key of the clicked cell and the
    keys of its neighbours. *)
Definition safeZoneFrom (zone : list string) (ns : list CubePosition) : list string :=
  fold_left (fun zone neighbor =>
               if setHas zone (posKey neighbor) then zone
               else posKey neighbor :: zone) ns zone.

(** A state before the first click: not over, and with the board of
    [init], on which cells may only have been flagged: every position of
    the grid has a cell, none of them a mine. *)
Definition freshBoard (state : Minesweeper.MinesweeperGameState) : Prop :=
  Minesweeper.isFirstClick state = true /\
  Minesweeper.isGameOver state = false /\
  mineView (Minesweeper.cells state)
  = map (fun p => (posKey p, false))
      (Minesweeper.allPositions (Minesweeper.gridSize state)).

(** A square piece resting on the floor of the empty well. *)
Definition restingSquare : Tetris.Tetris3DGameState :=
  Tetris.withPiece (Tetris.init (fun k => k))
    (Tetris.mkFallingPiece3D Tetris.cube_O (Tetris.mkVec3 2 0 2) 0 0 0).

(** A vector stays within 3 cells of the origin; so do the offsets of a
    piece from its pivot, whatever its rotation. *)
Definition within3 (v : Tetris.Vec3) : Prop :=
  -3 <= Tetris.x v <= 3 /\ -3 <= Tetris.y v <= 3 /\ -3 <= Tetris.z v <= 3.

(** A 2 x 2 puzzle whose picture is the cell (0,0) of every face. *)
Definition tinyGame : Nonogram.NonogramConfig := Nonogram.mkNonogramConfig 2 3.

(** Its pattern, the same on every face, rows from [y = 0]. *)
Definition tinyPattern (f : CubeFace) : list (list bool) :=
  [[true; false]; [false; false]].



(** The initial snake with the food right in front of its head. *)
Definition snakeAtFood : Snake.SnakeGameState unit :=
  Snake.mkSnakeGameState
    [ mkCubePosition FRONT 4 4; mkCubePosition FRONT 3 4;
      mkCubePosition FRONT 2 4 ]
    Snake.dir_right Snake.dir_right (mkCubePosition FRONT 5 4) 0 200
    false false 8 tt.

(** The solution of the puzzle at a position. *)
Definition solutionAt (pattern : CubeFace -> list (list bool)) (p : CubePosition)
  : bool :=
  Nonogram.patternCell (pattern (face p)) (x p) (y p).

(** The cell map of the puzzle in which exactly the positions of [filled]
    have been filled, all of them correctly. *)
Definition board (pattern : CubeFace -> list (list bool))
  (filled ps : list CubePosition) : list (string * Nonogram.NonogramCell) :=
  map (fun p =>
         (posKey p,
          Nonogram.mkNonogramCell (solutionAt pattern p)
            (if existsb (positionsEqual p) filled
             then Nonogram.FILLED else Nonogram.UNKNOWN))) ps.

(** [getAllNeighbors] keeps the first occurrence of each candidate: the
    same list, computed with [positionsEqual] in place of the string keys
    ([getAllNeighbors_dedup]). *)
Definition dedupStep (acc : list CubePosition) (n : CubePosition)
  : list CubePosition :=
  if existsb (positionsEqual n) acc then acc else acc ++ [n].

Definition dedup (l : list CubePosition) : list CubePosition :=
  fold_left dedupStep l [].

Arguments dedup : simpl never.

(** A corner cell of a face. *)
Definition cornerCell (g : Z) (p : CubePosition) : Prop :=
  (x p = 0 \/ x p = g - 1) /\ (y p = 0 \/ y p = g - 1).

(** The four pairs [(p, q)] at which the neighbour relation is one-way:
    [q] is the cell that [getDiagonalNeighbor] reaches from a front corner
    [p] of TOP or BOTTOM by going round the cube corner. *)
Definition cornerArtifact (g : Z) (p q : CubePosition) : Prop :=
  (p = mkCubePosition TOP 0 0 /\ q = mkCubePosition LEFT (g - 1) (g - 2)) \/
  (p = mkCubePosition TOP (g - 1) 0 /\ q = mkCubePosition RIGHT 0 (g - 2)) \/
  (p = mkCubePosition BOTTOM 0 (g - 1) /\ q = mkCubePosition LEFT (g - 1) 1) \/
  (p = mkCubePosition BOTTOM (g - 1) (g - 1) /\ q = mkCubePosition RIGHT 0 1).

(** Each position of the list is one step of [movePosition] after the
    previous one, the first being one step after [current]. *)
Fixpoint stepsFrom (d : Delta) (g : Z) (current : CubePosition)
  (l : list CubePosition) : Prop :=
  match l with
  | [] => True
  | q :: rest => q = movePosition current d g /\ stepsFrom d g q rest
  end.

(** The ring of the four lateral faces, in the order a move to the right
    goes through them, and its cells in a given row, numbered from the
    left edge of FRONT. *)
Definition equatorFaces : list CubeFace := [FRONT; RIGHT; BACK; LEFT].

Definition equatorCell (g row n : Z) : CubePosition :=
  mkCubePosition (nth (Z.to_nat (n / g)) equatorFaces FRONT) (n mod g) row.

Definition equatorIndex (g : Z) (p : CubePosition) : Z :=
  match face p with
  | FRONT => 0 | RIGHT => 1 | BACK => 2 | LEFT => 3 | _ => 0
  end * g + x p.

Definition lateral (f : CubeFace) : Prop :=
  f = FRONT \/ f = RIGHT \/ f = BACK \/ f = LEFT.

(** The cell reached from cell [n0] of the ring after [i] steps of [s]. *)
Definition equatorVisit (g row n0 s i : Z) : CubePosition :=
  equatorCell g row ((n0 + s * i) mod (4 * g)).

(** The position reached after [i] upward steps from the cell
    [(x0, y0)] of FRONT: first the rest of the column on FRONT, then the
    column on TOP, then, for ever, the two cells on either side of the
    edge between TOP and BACK. *)
Definition climbFromFront (g x0 y0 i : Z) : CubePosition :=
  if i <=? g - 1 - y0 then mkCubePosition FRONT x0 (y0 + i)
  else if i <=? g + g - 1 - y0 then mkCubePosition TOP x0 (i - (g - y0))
  else if Z.even (i - (g + g - y0)) then mkCubePosition BACK (g - 1 - x0) (g - 1)
  else mkCubePosition TOP x0 (g - 1).

(** Two cell maps with the same keys in the same order, whose cells are
    related by [R] key by key. *)
Definition cellsRelated
  (R : Minesweeper.MinesweeperCell -> Minesweeper.MinesweeperCell -> Prop)
  (m m' : list (string * Minesweeper.MinesweeperCell)) : Prop :=
  Forall2 (fun e e' => fst e = fst e' /\ R (snd e) (snd e')) m m'.

(** What revealing may do to a cell: nothing, or turn a cell that was
    neither revealed nor flagged into the same cell, revealed. *)
Definition uncovered (c c' : Minesweeper.MinesweeperCell) : Prop :=
  c' = c \/
  (Minesweeper.isRevealed c = false /\ Minesweeper.isFlagged c = false /\
   c' = Minesweeper.setRevealed c).

(** The same, for a cell that holds no mine. *)
Definition opened (c c' : Minesweeper.MinesweeperCell) : Prop :=
  c' = c \/ (revealable c = true /\ c' = Minesweeper.setRevealed c).

(** The numbers of revealed and of flagged cells of a map. *)
Definition revealedCells (m : list (string * Minesweeper.MinesweeperCell)) : nat :=
  length (filter (fun e => Minesweeper.isRevealed (snd e)) m).

Definition flaggedCells (m : list (string * Minesweeper.MinesweeperCell)) : nat :=
  length (filter (fun e => Minesweeper.isFlagged (snd e)) m).

(** A key whose cell a flood fill has nothing to do with: absent,
    revealed, flagged or mined. *)
Definition keySettled (m : list (string * Minesweeper.MinesweeperCell))
  (k : string) : Prop :=
  match JsMap.get m k with
  | None => True
  | Some c =>
      Minesweeper.isRevealed c = true \/ Minesweeper.isFlagged c = true
      \/ Minesweeper.isMine c = true
  end.

(** The cell map has one cell for each position of the grid, in the order
    of [init]. *)
Definition onBoard (state : Minesweeper.MinesweeperGameState) : Prop :=
  JsMap.keys (Minesweeper.cells state)
  = map posKey (Minesweeper.allPositions (Minesweeper.gridSize state)).

(** The counters of the state agree with its cells. *)
Definition countersAgree (state : Minesweeper.MinesweeperGameState) : Prop :=
  Minesweeper.revealedCount state
  = Z.of_nat (revealedCells (Minesweeper.cells state)) /\
  Minesweeper.flagCount state
  = Z.of_nat (flaggedCells (Minesweeper.cells state)).

(** The cell at [p] is a mine that a [reveal] would set off: neither
    revealed nor flagged. *)
Definition mineAt_hidden (m : list (string * Minesweeper.MinesweeperCell))
  (p : CubePosition) : bool :=
  match JsMap.get m (posKey p) with
  | Some c =>
      negb (Minesweeper.isRevealed c || Minesweeper.isFlagged c)
      && Minesweeper.isMine c
  | None => false
  end.

(** What an action may do to a cell once the mines are laid: the mine and
    the number of the cell stay, and a revealed cell stays as it is. *)
Definition played (c c' : Minesweeper.MinesweeperCell) : Prop :=
  Minesweeper.isMine c' = Minesweeper.isMine c /\
  Minesweeper.adjacentMines c' = Minesweeper.adjacentMines c /\
  (Minesweeper.isRevealed c = true -> c' = c).

(** What laying the mines may do to a cell: it stays covered or revealed,
    flagged or not, as it was. *)
Definition sameCover (c c' : Minesweeper.MinesweeperCell) : Prop :=
  Minesweeper.isRevealed c' = Minesweeper.isRevealed c /\
  Minesweeper.isFlagged c' = Minesweeper.isFlagged c.

(** No mine of the map is revealed. *)
Definition noRevealedMine (m : list (string * Minesweeper.MinesweeperCell)) : Prop :=
  Forall (fun e => Minesweeper.isRevealed (snd e) = true ->
                   Minesweeper.isMine (snd e) = false) m.

(** What the game keeps true of its state: the keys of the cell map are
    distinct; the counters agree with the cells; a game that is won is
    over, and has revealed as many cells as the board has cells without
    a mine; no cell is revealed before the first click; no mine is
    revealed, unless the game is lost. *)
Definition wellKept (state : Minesweeper.MinesweeperGameState) : Prop :=
  NoDup (JsMap.keys (Minesweeper.cells state)) /\
  countersAgree state /\
  (Minesweeper.isWon state = true ->
   Minesweeper.isGameOver state = true /\
   6 * Minesweeper.gridSize state * Minesweeper.gridSize state
   - Minesweeper.totalMines state <= Minesweeper.revealedCount state) /\
  (Minesweeper.isFirstClick state = true ->
   revealedCells (Minesweeper.cells state) = 0%nat) /\
  (Minesweeper.isGameOver state = false \/ Minesweeper.isWon state = true ->
   noRevealedMine (Minesweeper.cells state)).

(** A 2 x 2 board with 6 mines after a first click at FRONT (0,0), and a
    2 x 2 board with 1 mine after the same click. *)
Definition firstClickOn (config : Minesweeper.MinesweeperConfig)
  : Minesweeper.MinesweeperGameState :=
  match Minesweeper.applyAction (fun k => k) (Minesweeper.init config)
          (Minesweeper.Reveal (mkCubePosition FRONT 0 0)) with
  | Some state => state
  | None => Minesweeper.init config
  end.

Definition afterFirstClick : Minesweeper.MinesweeperGameState :=
  firstClickOn (Minesweeper.mkMinesweeperConfig 2 6).

Definition clearedBoard : Minesweeper.MinesweeperGameState :=
  firstClickOn (Minesweeper.mkMinesweeperConfig 2 1).

(** The current piece, if there is one, lies within the well on cells
    that are not filled. *)
Definition pieceFree (state : Tetris.Tetris3DGameState) : Prop :=
  forall piece, Tetris.currentPiece state = Some piece ->
                Tetris.isValidPosition state piece = Some true.

(** A well whose spawn cells hold a block, with a square piece on the
    floor and nothing held. *)
Definition blockedSpawn : Tetris.Tetris3DGameState :=
  let start := Tetris.init (fun k => k) in
  let grid :=
    match Tetris.gridSet (Tetris.grid start) 10 2 2
            (Tetris.mkGridCell3D true "#ffd700") with
    | Some grid => grid
    | None => Tetris.grid start
    end in
  Tetris.mkTetris3DGameState grid
    (Some (Tetris.mkFallingPiece3D Tetris.cube_O (Tetris.mkVec3 2 0 2) 0 0 0))
    Tetris.cube_O None true 0 1 0 1000 false false
    Tetris.cubeWidth Tetris.cubeDepth Tetris.cubeHeight.

(** The ghost of a piece: the same piece, [n] cells lower. *)
Definition sunk (piece : Tetris.FallingPiece3D) (n : Z) : Tetris.FallingPiece3D :=
  Tetris.mkFallingPiece3D (Tetris.type piece)
    (Tetris.mkVec3 (Tetris.x (Tetris.position piece))
       (Tetris.y (Tetris.position piece) - n)
       (Tetris.z (Tetris.position piece)))
    (Tetris.rotationX piece) (Tetris.rotationY piece) (Tetris.rotationZ piece).

(** The sum of the numbers of a clue, and the number of filled cells of a
    line of a pattern. *)
Definition clueTotal (clue : list Z) : Z := fold_right Z.add 0 clue.

Definition filledIn (line : list bool) : Z :=
  Z.of_nat (length (filter (fun cell => cell) line)).

(** The picture shown is part of the solution: a cell in the state
    [FILLED] has [solution] true. *)
Definition pictured (cells : list (string * Nonogram.NonogramCell)) : Prop :=
  forall key cell,
    JsMap.get cells key = Some cell ->
    Nonogram.state cell = Nonogram.FILLED -> Nonogram.solution cell = true.

(** A pattern of [n] rows of [n] cells. *)
Definition squarePattern (n : nat) (facePattern : list (list bool)) : Prop :=
  length facePattern = n /\ Forall (fun row => length row = n) facePattern.

(** The store is in step with its history: [gameState] is the entry of
    [history] at [historyIndex], an index of the history, or -1 when there
    is nothing. *)
Definition inStep {TState Game : Type}
  (store : GameStore.GameManagerState TState Game) : Prop :=
  GameStore.gameState store
  = GameStore.historyAt (GameStore.history store) (GameStore.historyIndex store) /\
  -1 <= GameStore.historyIndex store
     < Z.of_nat (length (GameStore.history store)).

(* ===================================================================== *)
(** * Part II.  Properties *)
(* ===================================================================== *)

(* ===================================================================== *)
(** * Properties of the edge-transition table *)
(* ===================================================================== *)

Lemma CubeFace_eqb_eq a b : CubeFace_eqb a b = true <-> a = b.
Proof. destruct a, b; simpl; split; intro H; congruence. Qed.

Lemma CubeFace_eqb_refl a : CubeFace_eqb a a = true.
Proof. now destruct a. Qed.

Lemma positionsEqual_eq a b : positionsEqual a b = true <-> a = b.
Proof.
  destruct a as [fa xa ya], b as [fb xb yb]; unfold positionsEqual; simpl.
  rewrite !andb_true_iff, CubeFace_eqb_eq, !Z.eqb_eq.
  split; [intros [[-> ->] ->]; reflexivity | intros [= -> -> ->]; auto].
Qed.

(** C1. The table has 24 entries, exactly one for every (face, edge) pair,
    so [getEdgeTransition] finds a transition for all 6 faces and 4 edges;
    and it is inverse-consistent: the transition found for
    [(toFace, toEdge)] leads back to [(fromFace, fromEdge)]. *)
Theorem edge_transitions_closed :
  length EDGE_TRANSITIONS = 24%nat /\
  (forall f e, length (filter (leaves f e) EDGE_TRANSITIONS) = 1%nat) /\
  (forall f e, exists t,
      getEdgeTransition f e = Some t /\ fromFace t = f /\ fromEdge t = e) /\
  Forall (fun t =>
            getEdgeTransition (fromFace t) (fromEdge t) = Some t /\
            exists back,
              getEdgeTransition (toFace t) (toEdge t) = Some back /\
              toFace back = fromFace t /\ toEdge back = fromEdge t)
         EDGE_TRANSITIONS.
Proof.
  split; [reflexivity |].
  split; [intros [] []; reflexivity |].
  split.
  - intros [] []; eexists; (split; [reflexivity | split; reflexivity]).
  - repeat constructor; simpl; eexists;
      (split; [reflexivity | split; reflexivity]).
Qed.

(** ** One-step moves *)

Lemma movePosition_eq p d g :
  movePosition p d g =
  if y p + dy d >=? g then leaveThrough p E_top g
  else if y p + dy d <? 0 then leaveThrough p E_bottom g
  else if x p + dx d <? 0 then leaveThrough p E_left g
  else if x p + dx d >=? g then leaveThrough p E_right g
  else mkCubePosition (face p) (x p + dx d) (y p + dy d).
Proof.
  unfold movePosition, transformPositionAcrossEdge, getEdgeForDirection,
    leaveThrough, enterAt.
  set (nx := x p + dx d); set (ny := y p + dy d).
  rewrite !Z.geb_leb.
  destruct (Z.leb_spec g ny), (Z.ltb_spec ny 0), (Z.ltb_spec nx 0),
    (Z.leb_spec g nx), (Z.leb_spec 0 nx), (Z.leb_spec 0 ny),
    (Z.ltb_spec nx g), (Z.ltb_spec ny g);
    try lia; cbv beta iota zeta;
    try reflexivity;
    match goal with
    | |- context [getEdgeTransition ?f ?e] =>
        destruct (getEdgeTransition f e) as [t |]; [destruct (toEdge t) |];
        reflexivity
    end.
Qed.

Lemma leaveThrough_valid g p e :
  validPosition g p -> validPosition g (leaveThrough p e g).
Proof.
  destruct p as [f px py]; unfold validPosition; simpl; intros [Hx Hy].
  destruct f, e; unfold leaveThrough, enterAt; simpl; lia.
Qed.

Lemma In_unitDeltas d :
  In d unitDeltas ->
  d = mkDelta 0 1 \/ d = mkDelta 0 (-1) \/ d = mkDelta 1 0 \/ d = mkDelta (-1) 0.
Proof. simpl; intuition. Qed.

(** Decide the integer comparisons of the goal from the hypotheses. *)
Ltac zcompare :=
  rewrite ?Z.geb_leb;
  repeat match goal with
         | |- context [?a <=? ?b] =>
             destruct (Z.leb_spec a b); try lia
         | |- context [?a <? ?b] =>
             destruct (Z.ltb_spec a b); try lia
         | |- context [?a =? ?b] =>
             destruct (Z.eqb_spec a b); try lia
         end.

Lemma movePosition_valid g p d :
  validPosition g p -> dx d = 0 \/ dy d = 0 ->
  -1 <= dx d <= 1 -> -1 <= dy d <= 1 ->
  validPosition g (movePosition p d g).
Proof.
  intros Hp Hd Hdx Hdy. rewrite movePosition_eq.
  pose proof Hp as [Hx Hy].
  zcompare; try (apply leaveThrough_valid; assumption).
  unfold validPosition; simpl; lia.
Qed.

(** C2. A one-cell orthogonal move from a legal position always yields a
    legal position: both coordinates of the result are in [[0, gridSize)].
    [movePosition] returns a position on every input (it falls back to the
    original position when no transition is found), so the result is never
    null. *)
Theorem movePosition_total (gridSize : Z) (p : CubePosition) (d : Delta) :
  validPosition gridSize p -> In d unitDeltas ->
  validPosition gridSize (movePosition p d gridSize).
Proof.
  intros Hp Hd. apply In_unitDeltas in Hd.
  apply movePosition_valid; trivial;
    destruct Hd as [-> | [-> | [-> | ->]]]; simpl; lia.
Qed.

Lemma movePosition_total_witness :
  validPosition 8 (movePosition (mkCubePosition BACK 3 7) (mkDelta 0 1) 8).
Proof.
  apply (movePosition_total 8 (mkCubePosition BACK 3 7) (mkDelta 0 1)).
  - unfold validPosition; simpl; lia.
  - simpl; auto.
Defined.

(** C3. One-hop round trip through an edge of FRONT: when a one-cell move
    leaves the face and the two faces involved are FRONT and one of LEFT,
    RIGHT, TOP, BOTTOM, moving one cell in the opposite direction from the
    destination gives back the original position. *)
Theorem front_round_trip (gridSize : Z) (p : CubePosition) (d : Delta) :
  validPosition gridSize p -> In d unitDeltas ->
  ~ validPosition gridSize
      (mkCubePosition (face p) (x p + dx d) (y p + dy d)) ->
  frontPair (face p) (face (movePosition p d gridSize)) ->
  movePosition (movePosition p d gridSize) (oppositeDelta d) gridSize = p.
Proof.
  destruct p as [f px py]; unfold validPosition, frontPair; simpl.
  intros [Hx Hy] Hd Hoff.
  apply In_unitDeltas in Hd.
  destruct Hd as [-> | [-> | [-> | ->]]];
    rewrite (movePosition_eq (mkCubePosition f px py)); simpl in *;
    zcompare;
    destruct f; simpl; intros Hpair;
    try (exfalso; intuition congruence);
    rewrite movePosition_eq; simpl; zcompare;
    unfold leaveThrough, enterAt; simpl; f_equal; lia.
Qed.

Lemma front_round_trip_witness :
  movePosition (movePosition (mkCubePosition FRONT 0 5) (mkDelta (-1) 0) 8)
    (oppositeDelta (mkDelta (-1) 0)) 8 = mkCubePosition FRONT 0 5.
Proof.
  apply (front_round_trip 8 (mkCubePosition FRONT 0 5) (mkDelta (-1) 0)).
  - unfold validPosition; simpl; lia.
  - simpl; auto.
  - unfold validPosition; simpl; lia.
  - left; split; [reflexivity | left; reflexivity].
Defined.
(** ** Position keys *)

Lemma noDash_uint d : noDash (NilEmpty.string_of_uint d).
Proof. induction d; simpl; repeat split; auto; discriminate. Qed.

Lemma noDash_uint0 d : noDash (NilZero.string_of_uint d).
Proof. destruct d; try apply noDash_uint. simpl; repeat split; discriminate. Qed.

Lemma uint0_nonempty d : NilZero.string_of_uint d <> EmptyString.
Proof. destruct d; discriminate. Qed.

Lemma append_dash_inj a b r r' :
  noDash a -> noDash b ->
  (a ++ String "-" r)%string = (b ++ String "-" r')%string -> a = b /\ r = r'.
Proof.
  revert b; induction a as [| c a IH]; intros [| c' b]; simpl.
  - intros _ _ [= ->]; auto.
  - intros _ [Hc _] [= Heq _]; congruence.
  - intros [Hc _] _ [= Heq _]; congruence.
  - intros [_ [_ Ha]] [_ [_ Hb]] [= -> Heq].
    destruct (IH b Ha Hb Heq) as [-> ->]; auto.
Qed.

Lemma numberToString_inj a b : numberToString a = numberToString b -> a = b.
Proof.
  unfold numberToString; intros H.
  apply DecimalZ.to_int_inj.
  assert (Hn : forall z, Z.to_int z <> Pos Nil /\ Z.to_int z <> Neg Nil).
  { intros [| q | q]; simpl; split; try discriminate;
      intros [= Hq]; now apply DecimalPos.Unsigned.to_uint_nonnil in Hq. }
  destruct (Hn a) as [Ha1 Ha2], (Hn b) as [Hb1 Hb2].
  apply (f_equal NilZero.int_of_string) in H.
  rewrite !NilZero.isi in H by assumption.
  congruence.
Qed.

Lemma number_dash_inj a b r r' :
  (numberToString a ++ String "-" r)%string
  = (numberToString b ++ String "-" r')%string ->
  a = b /\ r = r'.
Proof.
  intros H.
  cut (numberToString a = numberToString b /\ r = r').
  { intros [Hn ->]; split; [now apply numberToString_inj | reflexivity]. }
  revert H; unfold numberToString.
  destruct (Z.to_int a) as [da | da], (Z.to_int b) as [db | db]; simpl.
  - apply append_dash_inj; apply noDash_uint0.
  - pose proof (noDash_uint0 da) as Hd. pose proof (uint0_nonempty da) as He.
    destruct (NilZero.string_of_uint da); [congruence |].
    simpl in *. intros [= -> _]. destruct Hd as [Hd _]; congruence.
  - pose proof (noDash_uint0 db) as Hd. pose proof (uint0_nonempty db) as He.
    destruct (NilZero.string_of_uint db); [congruence |].
    simpl in *. intros [= <- _]. destruct Hd as [Hd _]; congruence.
  - intros [= H].
    apply append_dash_inj in H; try apply noDash_uint0.
    destruct H as [-> ->]; auto.
Qed.

(** The key determines the position: [posKey] is injective. *)
Lemma posKey_inj p q : posKey p = posKey q -> p = q.
Proof.
  destruct p as [f a b], q as [f' a' b']; unfold posKey; simpl.
  intros H.
  assert (Hf : f = f' /\
               (numberToString a ++ String "-" (numberToString b))%string
               = (numberToString a' ++ String "-" (numberToString b'))%string).
  { destruct f, f'; simpl in H; try discriminate H;
      injection H as H; auto. }
  destruct Hf as [-> Hrest].
  apply number_dash_inj in Hrest. destruct Hrest as [-> Hb].
  apply numberToString_inj in Hb. now subst.
Qed.

Lemma posKey_eqb p q : String.eqb (posKey p) (posKey q) = positionsEqual p q.
Proof.
  destruct (String.eqb_spec (posKey p) (posKey q)) as [H | H].
  - apply posKey_inj in H. subst. symmetry. now apply positionsEqual_eq.
  - destruct (positionsEqual p q) eqn:E; trivial.
    apply positionsEqual_eq in E. subst. congruence.
Qed.

Lemma splitDash_noDash a : noDash a -> splitDash a = [a].
Proof.
  induction a as [| c a IH]; simpl; trivial.
  intros [Hc [_ Ha]]. rewrite IH by assumption.
  destruct (Ascii.eqb_spec c "-"); [contradiction | reflexivity].
Qed.

Lemma splitDash_append a r :
  noDash a -> splitDash (a ++ String "-" r) = a :: splitDash r.
Proof.
  induction a as [| c a IH]; simpl; trivial.
  intros [Hc [_ Ha]]. rewrite IH by assumption.
  destruct (Ascii.eqb_spec c "-"); [contradiction | reflexivity].
Qed.

Lemma digitPrefix_noDash a : noDash a -> digitPrefix a = a.
Proof.
  induction a as [| c a IH]; simpl; trivial.
  intros [_ [Hd Ha]]. now rewrite Hd, IH.
Qed.

Lemma numberToString_nonneg n :
  0 <= n -> noDash (numberToString n) /\ parseInt (numberToString n) = Some n.
Proof.
  intros Hn. unfold parseInt, numberToString.
  destruct n as [| q | q]; [| | lia].
  - simpl. repeat split; discriminate.
  - pose proof (DecimalPos.Unsigned.to_uint_nonnil q) as Hq.
    simpl Z.to_int. simpl NilZero.string_of_int.
    split; [apply noDash_uint0 |].
    rewrite digitPrefix_noDash by apply noDash_uint0.
    change (NilZero.string_of_uint (Pos.to_uint q))
      with (NilZero.string_of_int (Pos (Pos.to_uint q))).
    rewrite NilZero.isi by congruence.
    simpl. change (Z.of_uint (Pos.to_uint q)) with (Z.of_int (Z.to_int (Z.pos q))).
    now rewrite DecimalZ.of_to.
Qed.

(** On the key of a position with non-negative coordinates, [parseKey]
    gives the position back. *)
Lemma parseKey_posKey p : 0 <= x p -> 0 <= y p -> parseKey (posKey p) = Some p.
Proof.
  destruct p as [f a b]; simpl; intros Ha Hb.
  destruct (numberToString_nonneg a Ha) as [Da Pa].
  destruct (numberToString_nonneg b Hb) as [Db Pb].
  unfold parseKey, posKey; simpl face; simpl x; simpl y.
  assert (Hs : splitDash
                 (CubeFace_value f ++ "-" ++ numberToString a ++ "-"
                    ++ numberToString b)
               = [CubeFace_value f; numberToString a; numberToString b]).
  { assert (Hr : splitDash (numberToString a ++ "-" ++ numberToString b)
                 = [numberToString a; numberToString b]).
    { change ("-" ++ numberToString b)%string
        with (String "-" (numberToString b)).
      rewrite splitDash_append, splitDash_noDash by assumption. reflexivity. }
    destruct f; simpl; simpl in Hr; rewrite Hr; reflexivity. }
  rewrite Hs, Pa, Pb. now destruct f.
Qed.

(** ** Neighbours *)

Lemma setHas_keys ns n :
  setHas (map posKey ns) (posKey n) = true <-> In n ns.
Proof.
  unfold setHas. rewrite existsb_exists. split.
  - intros [k [Hk He]]. apply in_map_iff in Hk. destruct Hk as [m [<- Hm]].
    apply String.eqb_eq, posKey_inj in He. now subst.
  - intros Hn. exists (posKey n). split; [now apply in_map | apply String.eqb_refl].
Qed.

Lemma neighborStep_spec p g ns d :
  neighborStep p g (ns, map posKey (rev ns)) d =
  match candidate p g d with
  | Some n =>
      if setHas (map posKey (rev ns)) (posKey n)
      then (ns, map posKey (rev ns))
      else (ns ++ [n], map posKey (rev (ns ++ [n])))
  | None => (ns, map posKey (rev ns))
  end.
Proof.
  unfold neighborStep, candidate.
  destruct ((dx d =? 0) || (dy d =? 0)).
  - unfold pushUnseen. rewrite rev_app_distr. reflexivity.
  - destruct (getDiagonalNeighbor p d g); trivial.
    unfold pushUnseen. rewrite rev_app_distr. reflexivity.
Qed.

Lemma fold_neighborStep p g ds : forall ns,
  NoDup ns ->
  exists ms,
    fold_left (neighborStep p g) ds (ns, map posKey (rev ns))
    = (ms, map posKey (rev ms)) /\
    NoDup ms /\
    (forall n, In n ms <-> In n ns \/ In n (candidatesFor p g ds)) /\
    (NoDup (ns ++ candidatesFor p g ds) -> ms = ns ++ candidatesFor p g ds).
Proof.
  induction ds as [| d ds IH]; intros ns Hns; simpl.
  - exists ns. rewrite app_nil_r. intuition.
  - rewrite neighborStep_spec.
    destruct (candidate p g d) as [n |]; simpl.
    + destruct (setHas (map posKey (rev ns)) (posKey n)) eqn:Hseen.
      * apply setHas_keys, in_rev in Hseen.
        destruct (IH ns Hns) as [ms [Hf [Hnd [Hin Heq]]]].
        exists ms. split; [assumption |]. split; [assumption |]. split.
        -- intros m. rewrite Hin. intuition (subst; auto).
        -- intros Hall. exfalso.
           apply NoDup_remove_2 in Hall. apply Hall, in_or_app. now left.
      * assert (Hfresh : ~ In n ns).
        { intros Hn. apply in_rev, setHas_keys in Hn. congruence. }
        assert (Hns' : NoDup (ns ++ [n])).
        { apply NoDup_app; [assumption | repeat constructor; intros [] |].
          intros m Hm [<- | []]. contradiction. }
        destruct (IH (ns ++ [n]) Hns') as [ms [Hf [Hnd [Hin Heq]]]].
        exists ms. split; [assumption |]. split; [assumption |]. split.
        -- intros m. rewrite Hin, in_app_iff. simpl. intuition.
        -- intros Hall. rewrite <- app_assoc in Heq. simpl in Heq. auto.
    + apply IH; assumption.
Qed.

Lemma getAllNeighbors_spec p g :
  NoDup (getAllNeighbors p g) /\
  (forall n, In n (getAllNeighbors p g) <-> In n (candidates p g)) /\
  (NoDup (candidates p g) -> getAllNeighbors p g = candidates p g).
Proof.
  unfold getAllNeighbors, candidates.
  destruct (fold_neighborStep p g NEIGHBOR_DELTAS [] (NoDup_nil _))
    as [ms [Hf [Hnd [Hin Heq]]]].
  change (map posKey (rev [])) with (@nil string) in Hf.
  rewrite Hf. simpl. repeat split; trivial.
  - intros Hn. apply Hin in Hn. destruct Hn as [[] | Hn]; assumption.
  - intros Hn. apply Hin. now right.
Qed.

(** *** The four situations of a diagonal move *)

Ltac bcompare :=
  rewrite ?Z.geb_leb;
  repeat match goal with
         | |- context [?a <=? ?b] =>
             destruct (Z.leb_spec a b); try lia
         | |- context [?a <? ?b] =>
             destruct (Z.ltb_spec a b); try lia
         end;
  cbn [negb andb orb].

Lemma diagonal_inside p d g :
  0 <= x p + dx d < g -> 0 <= y p + dy d < g ->
  getDiagonalNeighbor p d g
  = Some (mkCubePosition (face p) (x p + dx d) (y p + dy d)).
Proof. intros Hx Hy. unfold getDiagonalNeighbor. bcompare. reflexivity. Qed.

Lemma diagonal_horizontal p d g :
  x p + dx d < 0 \/ g <= x p + dx d -> 0 <= y p + dy d < g ->
  getDiagonalNeighbor p d g
  = stepOnNewFace (movePosition p (mkDelta (dx d) 0) g)
      (transformSecondaryDelta (face p)
         (if x p + dx d <? 0 then E_left else E_right) (mkDelta 0 (dy d))) g.
Proof. intros Hx Hy. unfold getDiagonalNeighbor. bcompare; reflexivity. Qed.

Lemma diagonal_vertical p d g :
  y p + dy d < 0 \/ g <= y p + dy d -> 0 <= x p + dx d < g ->
  getDiagonalNeighbor p d g
  = stepOnNewFace (movePosition p (mkDelta 0 (dy d)) g)
      (transformSecondaryDelta (face p)
         (if y p + dy d >=? g then E_top else E_bottom) (mkDelta (dx d) 0)) g.
Proof. intros Hy Hx. unfold getDiagonalNeighbor. bcompare; reflexivity. Qed.

Lemma diagonal_corner p d g :
  x p + dx d < 0 \/ g <= x p + dx d -> y p + dy d < 0 \/ g <= y p + dy d ->
  getDiagonalNeighbor p d g
  = Some (movePosition (movePosition p (mkDelta (dx d) 0) g)
            (mkDelta 0 (dy d)) g).
Proof.
  intros Hx Hy. unfold getDiagonalNeighbor. bcompare;
    match goal with |- (if ?c then _ else _) = _ => destruct c; reflexivity end.
Qed.

Lemma stepOnNewFace_valid q sd g n :
  stepOnNewFace q sd g = Some n -> validPosition g n.
Proof.
  unfold stepOnNewFace. destruct sd as [sd |]; [| discriminate].
  rewrite !Z.geb_leb.
  destruct (Z.leb_spec 0 (x q + dx sd)), (Z.ltb_spec (x q + dx sd) g),
    (Z.leb_spec 0 (y q + dy sd)), (Z.ltb_spec (y q + dy sd) g);
    simpl; try discriminate.
  intros [= <-]. unfold validPosition; simpl. lia.
Qed.

Lemma getDiagonalNeighbor_valid p d g n :
  validPosition g p -> -1 <= dx d <= 1 -> -1 <= dy d <= 1 ->
  getDiagonalNeighbor p d g = Some n -> validPosition g n.
Proof.
  intros Hp Hdx Hdy.
  destruct (Z_lt_ge_dec (x p + dx d) 0) as [Hx0 | Hx0];
    [| destruct (Z_lt_ge_dec (x p + dx d) g) as [Hx1 | Hx1]];
    (destruct (Z_lt_ge_dec (y p + dy d) 0) as [Hy0 | Hy0];
     [| destruct (Z_lt_ge_dec (y p + dy d) g) as [Hy1 | Hy1]]).
  all: try (rewrite diagonal_corner by lia; intros [= <-];
            apply movePosition_valid; simpl; try lia;
            apply movePosition_valid; simpl; try lia; assumption).
  all: try (rewrite diagonal_horizontal by lia; apply stepOnNewFace_valid).
  all: try (rewrite diagonal_vertical by lia; apply stepOnNewFace_valid).
  rewrite diagonal_inside by lia. intros [= <-]. unfold validPosition; simpl; lia.
Qed.

Lemma NEIGHBOR_DELTAS_unit d :
  In d NEIGHBOR_DELTAS -> -1 <= dx d <= 1 /\ -1 <= dy d <= 1.
Proof. simpl. intuition (subst; simpl; lia). Qed.

Lemma candidate_valid p g d n :
  validPosition g p -> In d NEIGHBOR_DELTAS ->
  candidate p g d = Some n -> validPosition g n.
Proof.
  intros Hp Hd. apply NEIGHBOR_DELTAS_unit in Hd. destruct Hd as [Hdx Hdy].
  unfold candidate.
  destruct (Z.eqb_spec (dx d) 0) as [Hx | Hx]; simpl.
  - intros [= <-]. apply movePosition_valid; auto.
  - destruct (Z.eqb_spec (dy d) 0) as [Hy | Hy]; simpl.
    + intros [= <-]. apply movePosition_valid; auto.
    + now apply getDiagonalNeighbor_valid.
Qed.

(** Every neighbour of a legal position is a legal position. *)
Lemma getAllNeighbors_valid p g n :
  validPosition g p -> In n (getAllNeighbors p g) -> validPosition g n.
Proof.
  intros Hp Hn. apply (proj1 (proj2 (getAllNeighbors_spec p g))) in Hn.
  unfold candidates, candidatesFor in Hn. apply in_flat_map in Hn.
  destruct Hn as [d [Hd Hn]].
  destruct (candidate p g d) as [m |] eqn:Hc; [| destruct Hn].
  destruct Hn as [<- | []]. eapply candidate_valid; eauto.
Qed.

Lemma candidatesFor_length p g ds :
  (length (candidatesFor p g ds) <= length ds)%nat.
Proof.
  induction ds as [| d ds IH]; simpl; trivial.
  rewrite length_app. destruct (candidate p g d); simpl; lia.
Qed.

(** There are never more than 8 neighbours. *)
Lemma getAllNeighbors_length p g : (length (getAllNeighbors p g) <= 8)%nat.
Proof.
  destruct (getAllNeighbors_spec p g) as [Hnd [Hin _]].
  assert (Hincl : incl (getAllNeighbors p g) (candidates p g))
    by (intros n; apply Hin).
  apply (NoDup_incl_length Hnd) in Hincl.
  pose proof (candidatesFor_length p g NEIGHBOR_DELTAS) as Hl.
  unfold candidates in *.
  change (length NEIGHBOR_DELTAS) with 8%nat in Hl. lia.
Qed.

(** *** Cardinality *)

Lemma candidates_unfold p g :
  candidates p g =
  movePosition p (mkDelta 0 1) g :: movePosition p (mkDelta 0 (-1)) g
    :: movePosition p (mkDelta (-1) 0) g :: movePosition p (mkDelta 1 0) g
    :: keep (getDiagonalNeighbor p (mkDelta (-1) 1) g)
    ++ keep (getDiagonalNeighbor p (mkDelta 1 1) g)
    ++ keep (getDiagonalNeighbor p (mkDelta (-1) (-1)) g)
    ++ keep (getDiagonalNeighbor p (mkDelta 1 (-1)) g) ++ [].
Proof. reflexivity. Qed.

(** Resolve the comparisons one at a time, dropping the dead branch of
    each conditional as soon as its test is known. *)
Ltac testFree t :=
  lazymatch t with
  | context [Z.leb _ _] => fail
  | context [Z.ltb _ _] => fail
  | _ => idtac
  end.

Ltac resolveTests :=
  rewrite ?Z.geb_leb;
  repeat (match goal with
          | |- context [?a <=? ?b] =>
              testFree a; testFree b; destruct (Z.leb_spec a b); try lia
          | |- context [?a <? ?b] =>
              testFree a; testFree b; destruct (Z.ltb_spec a b); try lia
          end; cbn [x y face dx dy]).

Ltac diagonalCases :=
  repeat first
    [ rewrite diagonal_inside by (simpl; lia)
    | rewrite diagonal_horizontal by (simpl; lia)
    | rewrite diagonal_vertical by (simpl; lia)
    | rewrite diagonal_corner by (simpl; lia) ].

Ltac distinctPositions :=
  repeat (constructor;
          [ simpl; intuition (try discriminate);
            match goal with
            | H : mkCubePosition _ _ _ = mkCubePosition _ _ _ |- _ =>
                injection H; intros; lia
            end
          | ]);
  constructor.

Ltac neighbourhood :=
  rewrite candidates_unfold; diagonalCases; rewrite !movePosition_eq;
  unfold stepOnNewFace, transformSecondaryDelta, leaveThrough, enterAt,
    getEdgeTransition;
  simpl; resolveTests; simpl; resolveTests;
  split; [reflexivity | distinctPositions].

Lemma interior_candidates g p :
  interiorCell g p ->
  length (candidates p g) = 8%nat /\ NoDup (candidates p g).
Proof.
  destruct p as [f a b]; unfold interiorCell; cbn [x y]; intros [Ha Hb].
  neighbourhood.
Qed.

Lemma oneEdge_candidates g p :
  onOneEdge g p ->
  length (candidates p g) = 8%nat /\ NoDup (candidates p g).
Proof.
  destruct p as [f a b]; unfold onOneEdge, validPosition; cbn [x y].
  intros [[Ha Hb] [[[Hx | Hx] Hy] | [[Hy | Hy] Hx]]]; subst;
    destruct f; neighbourhood.
Qed.

(** C4. [getAllNeighbors] never returns two structurally equal positions,
    whatever the input position; for a cell touching no edge of its face it
    returns exactly 8 (distinct) positions, and for a cell on exactly one
    edge, not a corner, it still returns exactly 8 (distinct) positions. *)
Theorem getAllNeighbors_cardinality (gridSize : Z) (p : CubePosition) :
  NoDup (getAllNeighbors p gridSize) /\
  (interiorCell gridSize p -> length (getAllNeighbors p gridSize) = 8%nat) /\
  (onOneEdge gridSize p -> length (getAllNeighbors p gridSize) = 8%nat).
Proof.
  destruct (getAllNeighbors_spec p gridSize) as [Hnd [_ Heq]].
  split; [assumption |]. split; intros Hp.
  - destruct (interior_candidates gridSize p Hp) as [Hlen Hc].
    now rewrite Heq.
  - destruct (oneEdge_candidates gridSize p Hp) as [Hlen Hc].
    now rewrite Heq.
Qed.

Lemma getAllNeighbors_cardinality_witness :
  length (getAllNeighbors (mkCubePosition FRONT 3 3) 8) = 8%nat /\
  length (getAllNeighbors (mkCubePosition LEFT 3 7) 8) = 8%nat.
Proof.
  split.
  - apply (proj1 (proj2 (getAllNeighbors_cardinality 8 (mkCubePosition FRONT 3 3)))).
    unfold interiorCell; simpl; lia.
  - apply (proj2 (proj2 (getAllNeighbors_cardinality 8 (mkCubePosition LEFT 3 7)))).
    unfold onOneEdge, validPosition; simpl; lia.
Defined.

(* ===================================================================== *)
(** * Snake *)
(* ===================================================================== *)

Lemma occupies_In snake p : Snake.occupies snake p = true <-> In p snake.
Proof.
  unfold Snake.occupies. rewrite existsb_exists. split.
  - intros [q [Hq He]]. apply positionsEqual_eq in He. now subst.
  - intros Hp. exists p. split; [assumption | now apply positionsEqual_eq].
Qed.

(** C6. Self-collision: in a state that is neither paused nor over, with a
    snake of at least 3 segments, when the head computed by [movePosition]
    from [nextDirection] is one of the segments, the [move] action returns
    a state with [isGameOver = true] and the same segment list. *)
Theorem snake_self_collision
  (CameraUp : Type)
  (transformDirectionAcrossEdge :
     CubeFace -> Snake.SnakeDirection -> CameraUp -> Snake.SnakeDirection)
  (rotateCameraUp : CubeFace -> CubeFace -> CameraUp -> CameraUp)
  (rnd : RandomSource) (state : Snake.SnakeGameState CameraUp)
  (head : CubePosition) (body : list CubePosition) :
  Snake.snake state = head :: body ->
  (3 <= length (Snake.snake state))%nat ->
  Snake.isPaused state = false ->
  Snake.isGameOver state = false ->
  In (Snake.nextHead state head) (Snake.snake state) ->
  exists state',
    Snake.applyAction transformDirectionAcrossEdge rotateCameraUp rnd state
      Snake.Move = Some state' /\
    Snake.isGameOver state' = true /\
    Snake.snake state' = Snake.snake state.
Proof.
  intros Hsnake _ Hpaused Hover Hhit.
  apply occupies_In in Hhit. unfold Snake.nextHead in Hhit.
  unfold Snake.applyAction, Snake.moveSnake.
  rewrite Hpaused, Hover, Hsnake. simpl orb. cbv iota.
  rewrite Hsnake in Hhit. rewrite Hhit.
  eexists. split; [reflexivity |]. split; reflexivity.
Qed.

Lemma snake_self_collision_witness :
  exists state',
    Snake.applyAction (fun _ d (_ : unit) => d) (fun _ _ u => u) (fun _ => O)
      curledSnake Snake.Move = Some state' /\
    Snake.isGameOver state' = true /\
    Snake.snake state' = Snake.snake curledSnake.
Proof.
  apply (snake_self_collision unit (fun _ d _ => d) (fun _ _ u => u)
           (fun _ => O) curledSnake (mkCubePosition FRONT 4 4)
           [ mkCubePosition FRONT 4 3; mkCubePosition FRONT 3 3;
             mkCubePosition FRONT 3 4; mkCubePosition FRONT 2 4 ]).
  - reflexivity.
  - simpl; lia.
  - reflexivity.
  - reflexivity.
  - simpl. right; right; right; left. reflexivity.
Defined.

(* ===================================================================== *)
(** * Maps in insertion order *)
(* ===================================================================== *)

Section JsMapFacts.
Context {V : Type}.
Implicit Types (m : list (string * V)) (k : string) (v : V).

Lemma get_set_same m k v : JsMap.get (JsMap.set m k v) k = Some v.
Proof.
  induction m as [| [k0 v0] m IH]; simpl.
  - now rewrite String.eqb_refl.
  - destruct (String.eqb_spec k0 k) as [-> | Hne]; simpl.
    + now rewrite String.eqb_refl.
    + destruct (String.eqb_spec k0 k); [contradiction | assumption].
Qed.

Lemma get_set_other m k k' v :
  k <> k' -> JsMap.get (JsMap.set m k v) k' = JsMap.get m k'.
Proof.
  intros Hne. induction m as [| [k0 v0] m IH]; simpl.
  - destruct (String.eqb_spec k k'); [contradiction | reflexivity].
  - destruct (String.eqb_spec k0 k) as [-> | Hk]; simpl.
    + destruct (String.eqb_spec k k'); [contradiction | reflexivity].
    + now rewrite IH.
Qed.

Lemma get_None_keys m k : JsMap.get m k = None <-> ~ In k (JsMap.keys m).
Proof.
  induction m as [| [k0 v0] m IH]; simpl.
  - intuition.
  - destruct (String.eqb_spec k0 k) as [-> | Hk].
    + split; [discriminate | intros H; exfalso; apply H; now left].
    + rewrite IH. intuition.
Qed.

Lemma keys_set_present m k v :
  In k (JsMap.keys m) -> JsMap.keys (JsMap.set m k v) = JsMap.keys m.
Proof.
  induction m as [| [k0 v0] m IH]; simpl; [intros [] |].
  destruct (String.eqb_spec k0 k) as [-> | Hk]; simpl; trivial.
  intros [Heq | Hin]; [contradiction |]. now rewrite IH.
Qed.

Lemma set_fresh m k v :
  ~ In k (JsMap.keys m) -> JsMap.set m k v = m ++ [(k, v)].
Proof.
  induction m as [| [k0 v0] m IH]; simpl; trivial.
  intros Hk. destruct (String.eqb_spec k0 k) as [-> | Hne].
  - exfalso; apply Hk; now left.
  - rewrite IH; [reflexivity | intuition].
Qed.

Lemma get_In m k v :
  NoDup (JsMap.keys m) -> In (k, v) m -> JsMap.get m k = Some v.
Proof.
  induction m as [| [k0 v0] m IH]; simpl; [intros _ [] |].
  intros Hnd [[= -> ->] | Hin].
  - now rewrite String.eqb_refl.
  - inversion Hnd as [| ? ? Hk0 Hnd']; subst.
    destruct (String.eqb_spec k0 k) as [-> | Hne].
    + exfalso. apply Hk0. change k with (fst (k, v)). now apply in_map.
    + now apply IH.
Qed.

Lemma get_Some_In m k v : JsMap.get m k = Some v -> In (k, v) m.
Proof.
  induction m as [| [k0 v0] m IH]; simpl; [discriminate |].
  destruct (String.eqb_spec k0 k) as [-> | Hne].
  - intros [= ->]. now left.
  - intros H. right. now apply IH.
Qed.

End JsMapFacts.

(* ===================================================================== *)
(** * Minesweeper *)
(* ===================================================================== *)

(** C10. In a state that is not over, a [flag] action whose target cell is
    already revealed, or absent from the cell map, returns the state
    unchanged. *)
Theorem minesweeper_flag_invalid_noop (rnd : RandomSource)
  (state : Minesweeper.MinesweeperGameState) (p : CubePosition) :
  Minesweeper.isGameOver state = false ->
  (JsMap.get (Minesweeper.cells state) (posKey p) = None \/
   exists cell,
     JsMap.get (Minesweeper.cells state) (posKey p) = Some cell /\
     Minesweeper.isRevealed cell = true) ->
  Minesweeper.applyAction rnd state (Minesweeper.Flag p) = Some state.
Proof.
  intros Hover Htarget. unfold Minesweeper.applyAction. rewrite Hover.
  destruct Htarget as [Habsent | [cell [Hcell Hrevealed]]].
  - now rewrite Habsent.
  - now rewrite Hcell, Hrevealed.
Qed.

Lemma minesweeper_flag_invalid_noop_witness :
  Minesweeper.applyAction (fun k => k) openedBoard
    (Minesweeper.Flag (mkCubePosition FRONT 3 3)) = Some openedBoard /\
  Minesweeper.applyAction (fun k => k) openedBoard
    (Minesweeper.Flag (mkCubePosition FRONT 30 3)) = Some openedBoard.
Proof.
  split.
  - apply (minesweeper_flag_invalid_noop (fun k => k) openedBoard
             (mkCubePosition FRONT 3 3)).
    + vm_compute; reflexivity.
    + right. eexists. split; vm_compute; reflexivity.
  - apply (minesweeper_flag_invalid_noop (fun k => k) openedBoard
             (mkCubePosition FRONT 30 3)).
    + vm_compute; reflexivity.
    + left. vm_compute; reflexivity.
Defined.

(** ** The board built by [init] *)

Lemma In_upTo n z : In z (upTo n) <-> 0 <= z < n.
Proof.
  unfold upTo. rewrite in_map_iff. split.
  - intros [i [<- Hi]]. apply in_seq in Hi. lia.
  - intros Hz. exists (Z.to_nat z). split; [lia |]. apply in_seq. lia.
Qed.

Lemma NoDup_upTo n : NoDup (upTo n).
Proof.
  unfold upTo. apply Finite.Injective_map_NoDup; [| apply seq_NoDup].
  intros a b H. lia.
Qed.

Lemma length_upTo n : length (upTo n) = Z.to_nat n.
Proof. unfold upTo. now rewrite length_map, length_seq. Qed.

Lemma NoDup_flat_map {A B : Type} (f : A -> list B) (l : list A) :
  NoDup l -> (forall a, In a l -> NoDup (f a)) ->
  (forall a a' b, In a l -> In a' l -> In b (f a) -> In b (f a') -> a = a') ->
  NoDup (flat_map f l).
Proof.
  induction l as [| a l IH]; simpl; intros Hl Hf Hdisj; [constructor |].
  inversion Hl as [| ? ? Ha Hl']; subst.
  apply NoDup_app.
  - apply Hf. now left.
  - apply IH; auto. intros a1 a2 b H1 H2. apply Hdisj; now right.
  - intros b Hb Hb'. apply in_flat_map in Hb'. destruct Hb' as [a' [Ha' Hba']].
    assert (a = a') by (apply (Hdisj a a' b); auto). subst. contradiction.
Qed.

Lemma length_flat_map_const {A B : Type} (f : A -> list B) (l : list A) n :
  (forall a, length (f a) = n) -> length (flat_map f l) = (length l * n)%nat.
Proof.
  intros Hf. induction l as [| a l IH]; simpl; trivial.
  rewrite length_app, Hf, IH. reflexivity.
Qed.

Lemma In_allPositions g p :
  In p (Minesweeper.allPositions g) <-> validPosition g p.
Proof.
  unfold Minesweeper.allPositions, validPosition.
  rewrite in_flat_map. split.
  - intros [f [_ Hp]]. apply in_flat_map in Hp. destruct Hp as [a [Ha Hp]].
    apply in_map_iff in Hp. destruct Hp as [b [<- Hb]].
    apply In_upTo in Ha, Hb. simpl. lia.
  - intros [Hx Hy]. exists (face p). split.
    + destruct (face p); simpl; tauto.
    + apply in_flat_map. exists (x p). split; [now apply In_upTo |].
      apply in_map_iff. exists (y p). split; [now destruct p | now apply In_upTo].
Qed.

Lemma NoDup_allPositions g : NoDup (Minesweeper.allPositions g).
Proof.
  unfold Minesweeper.allPositions. apply NoDup_flat_map.
  - unfold Minesweeper.ALL_FACES.
    repeat (constructor; [simpl; intuition discriminate |]). constructor.
  - intros f _. apply NoDup_flat_map.
    + apply NoDup_upTo.
    + intros a _. apply Finite.Injective_map_NoDup; [| apply NoDup_upTo].
      intros b b' [= ->]. reflexivity.
    + intros a a' q _ _ Hq Hq'.
      apply in_map_iff in Hq, Hq'.
      destruct Hq as [b [<- _]], Hq' as [b' [[= -> _] _]]. reflexivity.
  - intros f f' q _ _ Hq Hq'.
    apply in_flat_map in Hq, Hq'.
    destruct Hq as [a [_ Hq]], Hq' as [a' [_ Hq']].
    apply in_map_iff in Hq, Hq'.
    destruct Hq as [b [<- _]], Hq' as [b' [[= -> _ _] _]]. reflexivity.
Qed.

Lemma length_allPositions g :
  length (Minesweeper.allPositions g) = (6 * (Z.to_nat g * Z.to_nat g))%nat.
Proof.
  unfold Minesweeper.allPositions.
  rewrite (length_flat_map_const _ _ (Z.to_nat g * Z.to_nat g)); [reflexivity |].
  intros f. rewrite (length_flat_map_const _ _ (Z.to_nat g)).
  - now rewrite length_upTo.
  - intros a. now rewrite length_map, length_upTo.
Qed.

Lemma NoDup_posKeys ps : NoDup ps -> NoDup (map posKey ps).
Proof.
  intros H. apply Finite.Injective_map_NoDup; [| assumption].
  intros a b. apply posKey_inj.
Qed.

Lemma fold_set_fresh {V : Type} (f : CubePosition -> V) ps : forall m,
  NoDup (map posKey ps) ->
  (forall p, In p ps -> ~ In (posKey p) (JsMap.keys m)) ->
  fold_left (fun m p => JsMap.set m (posKey p) (f p)) ps m
  = m ++ map (fun p => (posKey p, f p)) ps.
Proof.
  induction ps as [| p ps IH]; intros m Hnd Hfresh; simpl.
  - now rewrite app_nil_r.
  - inversion Hnd as [| ? ? Hp Hnd']; subst.
    rewrite set_fresh by (apply Hfresh; now left).
    rewrite IH; trivial.
    + now rewrite <- app_assoc.
    + intros q Hq. unfold JsMap.keys. rewrite map_app, in_app_iff. simpl.
      intros [Hin | [Heq | []]].
      * apply (Hfresh q); [now right | assumption].
      * apply Hp. rewrite Heq. now apply in_map.
Qed.

Lemma init_cells config :
  Minesweeper.cells (Minesweeper.init config)
  = map (fun p => (posKey p, Minesweeper.emptyCell))
      (Minesweeper.allPositions (Minesweeper.configGridSize config)).
Proof.
  unfold Minesweeper.init; simpl.
  rewrite (fold_set_fresh (fun _ => Minesweeper.emptyCell)); trivial.
  - apply NoDup_posKeys, NoDup_allPositions.
  - intros p _ [].
Qed.

(** ** The shuffle is a permutation *)

Lemma length_update {A : Type} (l : list A) i v : length (update l i v) = length l.
Proof.
  revert i; induction l as [| a l IH]; intros [| i]; simpl; auto.
Qed.

Lemma nth_error_update {A : Type} (l : list A) i v n :
  (i < length l)%nat ->
  nth_error (update l i v) n = if Nat.eqb n i then Some v else nth_error l n.
Proof.
  revert i n; induction l as [| a l IH]; intros i n Hi; simpl in Hi; [lia |].
  destruct i as [| i], n as [| n]; simpl; trivial.
  apply IH. lia.
Qed.

Lemma swap_Permutation a i j : Permutation (Minesweeper.swap a i j) a.
Proof.
  unfold Minesweeper.swap.
  destruct (nth_error a i) as [ai |] eqn:Hi; [| reflexivity].
  destruct (nth_error a j) as [aj |] eqn:Hj; [| reflexivity].
  assert (Hil : (i < length a)%nat) by (apply nth_error_Some; congruence).
  assert (Hjl : (j < length a)%nat) by (apply nth_error_Some; congruence).
  symmetry. apply Permutation_nth_error. split.
  - now rewrite !length_update.
  - exists (fun n => if Nat.eqb n i then j else if Nat.eqb n j then i else n).
    split.
    + intros n n'.
      destruct (Nat.eqb_spec n i), (Nat.eqb_spec n j), (Nat.eqb_spec n' i),
        (Nat.eqb_spec n' j); lia.
    + intros n.
      rewrite nth_error_update by (rewrite length_update; assumption).
      rewrite nth_error_update by assumption.
      destruct (Nat.eqb_spec n j), (Nat.eqb_spec n i); subst; congruence.
Qed.

Lemma shuffleFrom_Permutation rnd i : forall k a,
  Permutation (Minesweeper.shuffleFrom rnd k i a) a.
Proof.
  induction i as [| i IH]; intros k a; simpl; [reflexivity |].
  etransitivity; [apply IH | apply swap_Permutation].
Qed.

Lemma shuffle_Permutation rnd a : Permutation (Minesweeper.shuffle rnd a) a.
Proof. apply shuffleFrom_Permutation. Qed.

Lemma NoDup_firstn {A : Type} n (l : list A) : NoDup l -> NoDup (firstn n l).
Proof.
  intros H. rewrite <- (firstn_skipn n l) in H.
  now apply NoDup_app_remove_r in H.
Qed.

Lemma In_firstn {A : Type} n (l : list A) a : In a (firstn n l) -> In a l.
Proof.
  intros H. rewrite <- (firstn_skipn n l). apply in_or_app. now left.
Qed.

(** ** Where the mines are *)

Lemma keys_mineView m : JsMap.keys (mineView m) = JsMap.keys m.
Proof. unfold JsMap.keys, mineView. rewrite map_map. reflexivity. Qed.

Lemma get_mineView m k :
  JsMap.get (mineView m) k = option_map Minesweeper.isMine (JsMap.get m k).
Proof.
  induction m as [| [k0 c0] m IH]; simpl; trivial.
  destruct (String.eqb k0 k); trivial.
Qed.

Lemma countMines_mineView m :
  Minesweeper.countMines m = length (filter snd (mineView m)).
Proof.
  unfold Minesweeper.countMines, mineView.
  induction m as [| [k0 c0] m IH]; simpl; trivial.
  destruct (Minesweeper.isMine c0); simpl; now rewrite IH.
Qed.

Lemma mineView_set m k c c' :
  JsMap.get m k = Some c -> Minesweeper.isMine c' = Minesweeper.isMine c ->
  mineView (JsMap.set m k c') = mineView m.
Proof.
  intros Hget Hmine. induction m as [| [k0 c0] m IH]; simpl in *; [discriminate |].
  destruct (String.eqb k0 k); simpl.
  - injection Hget as ->. now rewrite Hmine.
  - now rewrite IH.
Qed.

Lemma markAll_absent k v :
  ~ In k (JsMap.keys v) -> markAll [k] v = v.
Proof.
  intros Hk. unfold markAll. rewrite <- (map_id v) at 2.
  apply map_ext_in. intros [k0 b0] Hin. simpl.
  destruct (String.eqb_spec k0 k) as [-> | Hne]; trivial.
  exfalso. apply Hk. change k with (fst (k, b0)). now apply in_map.
Qed.

Lemma mineView_placeMine m k :
  NoDup (JsMap.keys m) -> mineView (placeMine m k) = markAll [k] (mineView m).
Proof.
  unfold placeMine.
  induction m as [| [k0 c0] m IH]; intros Hnd; simpl; trivial.
  inversion Hnd as [| ? ? Hk0 Hnd']; subst.
  unfold markAll; simpl.
  destruct (String.eqb_spec k0 k) as [-> | Hne]; simpl.
  - f_equal. symmetry. apply (markAll_absent k (mineView m)).
    now rewrite keys_mineView.
  - specialize (IH Hnd'). destruct (JsMap.get m k) as [c |]; simpl.
    + f_equal. apply IH.
    + f_equal. apply IH.
Qed.

Lemma keys_placeMine m k : JsMap.keys (placeMine m k) = JsMap.keys m.
Proof.
  unfold placeMine. destruct (JsMap.get m k) as [c |] eqn:Hget; trivial.
  apply keys_set_present. destruct (in_dec string_dec k (JsMap.keys m)); trivial.
  apply get_None_keys in n. congruence.
Qed.

Lemma mineView_placeMines M : forall m,
  NoDup (JsMap.keys m) ->
  mineView (fold_left placeMine M m) = markAll M (mineView m) /\
  JsMap.keys (fold_left placeMine M m) = JsMap.keys m.
Proof.
  induction M as [| k M IH]; intros m Hnd; simpl.
  - split; trivial. unfold markAll. symmetry.
    etransitivity; [| apply map_id]. apply map_ext. now intros [k b].
  - destruct (IH (placeMine m k)) as [Hview Hkeys].
    { now rewrite keys_placeMine. }
    rewrite Hview, Hkeys, keys_placeMine, mineView_placeMine by assumption.
    split; trivial. unfold markAll. rewrite map_map. apply map_ext.
    intros [k0 b0]; simpl.
    rewrite String.eqb_sym. rewrite orb_comm.
    destruct (setHas M k0), (String.eqb k k0); reflexivity.
Qed.

Lemma mineView_counts g (snapshot : list (string * Minesweeper.MinesweeperCell)) :
  forall m,
    (forall k c, In (k, c) snapshot ->
                 JsMap.get (mineView m) k = Some (Minesweeper.isMine c)) ->
    mineView (fold_left (countStep g) snapshot m) = mineView m.
Proof.
  induction snapshot as [| [k c] snapshot IH]; intros m Hsnap;
    cbn [fold_left]; trivial.
  assert (Hstep : mineView (countStep g m (k, c)) = mineView m).
  { unfold countStep. destruct (Minesweeper.isMine c) eqn:Hc; trivial.
    specialize (Hsnap k c (or_introl eq_refl)).
    rewrite get_mineView in Hsnap.
    destruct (JsMap.get m k) as [c0 |] eqn:Hget; [| discriminate].
    simpl in Hsnap. injection Hsnap as Hc0.
    apply (mineView_set m k c0); trivial. simpl. congruence. }
  rewrite IH; trivial.
  intros k' c' Hin. rewrite Hstep. apply Hsnap. now right.
Qed.

(** ** The flood fill terminates *)

Lemma hidden_le m : (hidden m <= length m)%nat.
Proof. apply filter_length_le. Qed.

Lemma hidden_set m k c :
  JsMap.get m k = Some c -> revealable c = true ->
  S (hidden (JsMap.set m k (Minesweeper.setRevealed c))) = hidden m.
Proof.
  unfold hidden. intros Hget Hc.
  induction m as [| [k0 c0] m IH]; simpl in *; [discriminate |].
  destruct (String.eqb k0 k); simpl.
  - injection Hget as ->. rewrite Hc. reflexivity.
  - destruct (revealable c0); simpl; rewrite <- IH; trivial.
Qed.

Lemma pushes_length (visited : list string) ns : forall rest,
  (length (fold_left
             (fun stack neighbor =>
                if setHas visited (posKey neighbor) then stack
                else neighbor :: stack) ns rest)
   <= length ns + length rest)%nat.
Proof.
  induction ns as [| n ns IH]; intros rest; simpl; trivial.
  destruct (setHas visited (posKey n)).
  - specialize (IH rest). lia.
  - specialize (IH (n :: rest)). simpl in IH. lia.
Qed.

Lemma floodFill_terminates fuel : forall g m stack visited count,
  (9 * hidden m + length stack < fuel)%nat ->
  exists m' count',
    Minesweeper.floodFill fuel g m stack visited count = Some (m', count') /\
    mineView m' = mineView m.
Proof.
  induction fuel as [| fuel IH]; intros g m stack visited count Hfuel; [lia |].
  destruct stack as [| current rest]; cbn [Minesweeper.floodFill].
  - now exists m, count.
  - simpl in Hfuel.
    destruct (setHas visited (posKey current)).
    { apply IH. lia. }
    destruct (JsMap.get m (posKey current)) as [c |] eqn:Hget.
    2: { apply IH. lia. }
    destruct (Minesweeper.isRevealed c || Minesweeper.isFlagged c
              || Minesweeper.isMine c) eqn:Hc.
    { apply IH. lia. }
    assert (Hrev : revealable c = true) by (unfold revealable; now rewrite Hc).
    pose proof (hidden_set m (posKey current) c Hget Hrev) as Hhid.
    pose proof (pushes_length (posKey current :: visited)
                  (getAllNeighbors current g) rest) as Hpush.
    pose proof (getAllNeighbors_length current g) as Hn.
    edestruct IH as [m' [count' [Hrun Hview]]].
    2: { exists m', count'. split; [exact Hrun |].
         rewrite Hview.
         apply (mineView_set m (posKey current) c); trivial. }
    destruct (Minesweeper.adjacentMines c =? 0); lia.
Qed.

(** [revealCell] returns on every input, and leaves the mines where they
    are. *)
Lemma revealCell_total m p g :
  exists r,
    Minesweeper.revealCell m p g = Some r /\
    mineView (Minesweeper.resultCells r) = mineView m.
Proof.
  unfold Minesweeper.revealCell.
  destruct (JsMap.get m (posKey p)) as [c |] eqn:Hget.
  2: { eexists. split; reflexivity. }
  destruct (Minesweeper.isRevealed c || Minesweeper.isFlagged c).
  { eexists. split; reflexivity. }
  destruct (Minesweeper.isMine c) eqn:Hmine.
  { eexists. split; [reflexivity |]. simpl.
    apply (mineView_set m (posKey p) c); trivial. }
  destruct (floodFill_terminates (Minesweeper.floodFuel m) g m [p] [] 0)
    as [m' [count' [Hrun Hview]]].
  { unfold Minesweeper.floodFuel. pose proof (hidden_le m). simpl. lia. }
  rewrite Hrun. eexists. split; [reflexivity | exact Hview].
Qed.

(** ** Every action returns *)

Lemma fold_chordStep_total g ns : forall r,
  exists r', fold_left (Minesweeper.chordStep g) ns (Some r) = Some r'.
Proof.
  induction ns as [| n ns IH]; intros r; cbn [fold_left].
  - now exists r.
  - unfold Minesweeper.chordStep at 2.
    destruct (JsMap.get (Minesweeper.chordCells r) (posKey n)) as [c |];
      [| apply IH].
    destruct (negb (Minesweeper.isFlagged c) && negb (Minesweeper.isRevealed c));
      [| apply IH].
    destruct (revealCell_total (Minesweeper.chordCells r) n g) as [res [Hres _]].
    rewrite Hres. apply IH.
Qed.

(** [applyAction] returns on every state and action: no flood fill runs
    out of fuel. *)
Lemma minesweeper_applyAction_total rnd state action :
  exists state', Minesweeper.applyAction rnd state action = Some state'.
Proof.
  unfold Minesweeper.applyAction.
  destruct (Minesweeper.isGameOver state); [now exists state |].
  destruct action as [p | p | p].
  - match goal with
    | |- context [Minesweeper.revealCell ?c p ?g] =>
        destruct (revealCell_total c p g) as [r [Hr _]]; rewrite Hr
    end.
    eexists; reflexivity.
  - destruct (JsMap.get (Minesweeper.cells state) (posKey p)) as [c |];
      [| now exists state].
    destruct (Minesweeper.isRevealed c); [now exists state |].
    eexists; reflexivity.
  - assert (Hchord : exists r,
               Minesweeper.chordReveal (Minesweeper.cells state) p
                 (Minesweeper.gridSize state) = Some r).
    { unfold Minesweeper.chordReveal.
      destruct (JsMap.get (Minesweeper.cells state) (posKey p)) as [c |];
        [| eexists; reflexivity].
      destruct (negb (Minesweeper.isRevealed c)
                || (Minesweeper.adjacentMines c =? 0)); [eexists; reflexivity |].
      match goal with
      | |- context [if ?b then _ else _] => destruct b; [eexists; reflexivity |]
      end.
      apply fold_chordStep_total. }
    destruct Hchord as [r Hr]. rewrite Hr. eexists; reflexivity.
Qed.

(** ** The first click *)

Lemma setHas_In l k : setHas l k = true <-> In k l.
Proof.
  unfold setHas. rewrite existsb_exists. split.
  - intros [k' [Hin He]]. apply String.eqb_eq in He. now subst.
  - intros Hin. exists k. split; [assumption | apply String.eqb_refl].
Qed.

Lemma safeZoneFrom_spec ns : forall zone,
  (forall k, In k (safeZoneFrom zone ns) <-> In k zone \/ In k (map posKey ns)) /\
  (length (safeZoneFrom zone ns) <= length zone + length ns)%nat.
Proof.
  unfold safeZoneFrom.
  induction ns as [| n ns IH]; intros zone; simpl.
  - split; [intuition | lia].
  - destruct (setHas zone (posKey n)) eqn:Hhas.
    + destruct (IH zone) as [Hin Hlen]. split; [| lia].
      intros k. rewrite Hin. apply setHas_In in Hhas.
      intuition (subst; auto).
    + destruct (IH (posKey n :: zone)) as [Hin Hlen]. split; [| simpl in Hlen; lia].
      intros k. rewrite Hin. simpl. intuition.
Qed.

Lemma filter_split_length {A : Type} (f : A -> bool) (l : list A) :
  (length (filter f l) + length (filter (fun a => negb (f a)) l))%nat = length l.
Proof.
  induction l as [| a l IH]; simpl; trivial.
  destruct (f a); simpl; lia.
Qed.

Lemma available_length zone (K : list string) :
  NoDup K ->
  (length K <= length (filter (fun key => negb (setHas zone key)) K)
               + length zone)%nat.
Proof.
  intros HK.
  pose proof (filter_split_length (setHas zone) K) as Hsplit.
  assert (Hin : (length (filter (setHas zone) K) <= length zone)%nat).
  { apply NoDup_incl_length; [now apply NoDup_filter |].
    intros k Hk. apply filter_In in Hk. now apply setHas_In. }
  lia.
Qed.

Lemma placeMines_unfold rnd cells P g t :
  Minesweeper.placeMines rnd cells P g t =
  let zone := safeZoneFrom [posKey P] (getAllNeighbors P g) in
  let M := Minesweeper.sliceTo t
             (Minesweeper.shuffle rnd
                (filter (fun key => negb (setHas zone key)) (JsMap.keys cells))) in
  fold_left (countStep g) (fold_left placeMine M cells)
    (fold_left placeMine M cells).
Proof. reflexivity. Qed.

Lemma get_keyed {V : Type} (f : CubePosition -> V) ps q :
  In q ps -> JsMap.get (map (fun p => (posKey p, f p)) ps) (posKey q) = Some (f q).
Proof.
  induction ps as [| p ps IH]; simpl; [intros [] |].
  destruct (String.eqb_spec (posKey p) (posKey q)) as [He | Hne].
  - apply posKey_inj in He. now subst.
  - intros [-> | Hin]; [congruence | now apply IH].
Qed.

Lemma count_marked (M : list string) ps :
  NoDup ps -> NoDup M -> incl M (map posKey ps) ->
  length (filter snd (map (fun p => (posKey p, setHas M (posKey p))) ps))
  = length M.
Proof.
  intros Hps HM Hincl.
  assert (Hlen : length (filter snd
                   (map (fun p => (posKey p, setHas M (posKey p))) ps))
                 = length (filter (setHas M) (map posKey ps))).
  { clear. induction ps as [| p ps IH]; simpl; trivial.
    destruct (setHas M (posKey p)); simpl; now rewrite IH. }
  rewrite Hlen. apply Permutation_length, NoDup_Permutation; trivial.
  - apply NoDup_filter, NoDup_posKeys, Hps.
  - intros k. rewrite filter_In, setHas_In. intuition.
Qed.

Lemma mineView_init config :
  mineView (Minesweeper.cells (Minesweeper.init config))
  = map (fun p => (posKey p, false))
      (Minesweeper.allPositions (Minesweeper.configGridSize config)).
Proof.
  rewrite init_cells. unfold mineView. rewrite map_map. reflexivity.
Qed.

(** The state built by [init] is fresh. *)
Lemma init_fresh config : freshBoard (Minesweeper.init config).
Proof.
  split; [reflexivity |]. split; [reflexivity |]. apply mineView_init.
Qed.

(** What [placeMines] does to a board without mines: the mines are a
    duplicate-free list [M] of keys of the board, none of them in the safe
    zone, and as many as asked for if the board has room for them. *)
Lemma placeMines_fresh rnd cells0 g P t :
  0 <= t ->
  let ps := Minesweeper.allPositions g in
  let zone := safeZoneFrom [posKey P] (getAllNeighbors P g) in
  mineView cells0 = map (fun p => (posKey p, false)) ps ->
  exists M,
    mineView (Minesweeper.placeMines rnd cells0 P g t)
    = map (fun p => (posKey p, setHas M (posKey p))) ps /\
    NoDup M /\ incl M (map posKey ps) /\
    (forall k, In k M -> ~ In k zone) /\
    (Z.to_nat t + length zone <= length ps -> length M = Z.to_nat t)%nat.
Proof.
  intros Ht ps zone Hfresh.
  set (available := filter (fun key => negb (setHas zone key)) (JsMap.keys cells0)).
  set (M := Minesweeper.sliceTo t (Minesweeper.shuffle rnd available)).
  assert (HK : JsMap.keys cells0 = map posKey ps).
  { rewrite <- keys_mineView, Hfresh. unfold JsMap.keys. rewrite map_map.
    reflexivity. }
  assert (HndK : NoDup (JsMap.keys cells0)).
  { rewrite HK. apply NoDup_posKeys, NoDup_allPositions. }
  assert (HM : M = firstn (Z.to_nat t) (Minesweeper.shuffle rnd available)).
  { unfold M, Minesweeper.sliceTo. destruct (Z.ltb_spec t 0); [lia | reflexivity]. }
  assert (Hperm : Permutation (Minesweeper.shuffle rnd available) available)
    by apply shuffle_Permutation.
  assert (Hav : NoDup available) by (apply NoDup_filter, HndK).
  exists M. repeat split.
  - rewrite placeMines_unfold. cbv zeta. fold zone available M.
    destruct (mineView_placeMines M cells0 HndK) as [Hview Hkeys].
    rewrite mineView_counts.
    + rewrite Hview, Hfresh.
      unfold markAll. rewrite map_map. apply map_ext. intros p; simpl.
      now destruct (setHas M (posKey p)).
    + intros k c Hin. rewrite get_mineView.
      rewrite (get_In _ k c); trivial. now rewrite Hkeys.
  - rewrite HM. apply NoDup_firstn.
    apply (Permutation_NoDup (l := available)); [now symmetry | assumption].
  - intros k Hk. rewrite HM in Hk. apply In_firstn in Hk.
    apply (Permutation_in _ Hperm) in Hk. apply filter_In in Hk.
    rewrite <- HK. tauto.
  - intros k Hk Hzone. rewrite HM in Hk. apply In_firstn in Hk.
    apply (Permutation_in _ Hperm) in Hk. apply filter_In in Hk.
    destruct Hk as [_ Hk]. apply setHas_In in Hzone. rewrite Hzone in Hk.
    discriminate.
  - intros Hroom. rewrite HM, length_firstn.
    rewrite (Permutation_length Hperm).
    pose proof (available_length zone (JsMap.keys cells0) HndK) as Hlen.
    fold available in Hlen. rewrite HK, length_map in Hlen. lia.
Qed.

(** C7, as amended.  On a fresh board (no click yet) with room for the
    mines, [0 <= totalMines <= 6 * gridSize^2 - 9], the first [reveal], at
    a position [P] of the grid, returns a state in which neither [P] nor
    any position of [getAllNeighbors P] holds a mine, and in which exactly
    [totalMines] cells hold a mine. *)
Theorem minesweeper_safe_first_click (rnd : RandomSource)
  (state : Minesweeper.MinesweeperGameState) (P : CubePosition) :
  freshBoard state ->
  validPosition (Minesweeper.gridSize state) P ->
  0 <= Minesweeper.totalMines state
    <= 6 * Minesweeper.gridSize state * Minesweeper.gridSize state - 9 ->
  exists state',
    Minesweeper.applyAction rnd state (Minesweeper.Reveal P) = Some state' /\
    (forall q,
        q = P \/ In q (getAllNeighbors P (Minesweeper.gridSize state)) ->
        exists cell,
          JsMap.get (Minesweeper.cells state') (posKey q) = Some cell /\
          Minesweeper.isMine cell = false) /\
    Z.of_nat (Minesweeper.countMines (Minesweeper.cells state'))
      = Minesweeper.totalMines state.
Proof.
  intros [Hfirst [Hover Hfresh]] HP [Ht0 Ht].
  set (g := Minesweeper.gridSize state) in *.
  set (t := Minesweeper.totalMines state) in *.
  destruct (placeMines_fresh rnd (Minesweeper.cells state) g P t Ht0 Hfresh)
    as [M [Hview [HndM [Hincl [Hsafe Hlen]]]]].
  set (mined := Minesweeper.placeMines rnd (Minesweeper.cells state) P g t) in *.
  destruct (revealCell_total mined P g) as [r [Hr Hkeep]].
  rewrite Hview in Hkeep.
  unfold Minesweeper.applyAction. rewrite Hover, Hfirst.
  fold g t mined. rewrite Hr.
  eexists. split; [reflexivity |].
  cbn [Minesweeper.cells].
  destruct (safeZoneFrom_spec (getAllNeighbors P g) [posKey P]) as [Hzone Hzlen].
  split.
  - intros q Hq.
    assert (Hvalid : validPosition g q).
    { destruct Hq as [-> | Hq]; [assumption |].
      now apply (getAllNeighbors_valid P g). }
    assert (Hinzone : In (posKey q)
                        (safeZoneFrom [posKey P] (getAllNeighbors P g))).
    { apply Hzone. destruct Hq as [-> | Hq]; [left; now left |].
      right. now apply in_map. }
    assert (Hnot : setHas M (posKey q) = false).
    { destruct (setHas M (posKey q)) eqn:E; trivial.
      apply setHas_In in E. now apply Hsafe in E. }
    pose proof (get_mineView (Minesweeper.resultCells r) (posKey q)) as Hget.
    rewrite Hkeep, (get_keyed (fun p => setHas M (posKey p))) in Hget
      by now apply In_allPositions.
    rewrite Hnot in Hget.
    destruct (JsMap.get (Minesweeper.resultCells r) (posKey q)) as [c |];
      [| discriminate].
    exists c. split; [reflexivity |]. simpl in Hget. congruence.
  - rewrite countMines_mineView, Hkeep.
    rewrite count_marked; trivial; [| apply NoDup_allPositions].
    rewrite Hlen; [lia |].
    rewrite length_allPositions.
    pose proof (getAllNeighbors_length P g) as Hn8. simpl in Hzlen.
    destruct HP as [HPx _].
    assert (Hg : Z.of_nat (Z.to_nat g) = g) by lia.
    nia.
Qed.

Lemma minesweeper_safe_first_click_witness :
  exists state',
    Minesweeper.applyAction (fun k => k)
      (Minesweeper.init Minesweeper.DEFAULT_CONFIG)
      (Minesweeper.Reveal (mkCubePosition FRONT 3 3)) = Some state' /\
    (forall q,
        q = mkCubePosition FRONT 3 3 \/
        In q (getAllNeighbors (mkCubePosition FRONT 3 3) 8) ->
        exists cell,
          JsMap.get (Minesweeper.cells state') (posKey q) = Some cell /\
          Minesweeper.isMine cell = false) /\
    Z.of_nat (Minesweeper.countMines (Minesweeper.cells state')) = 60.
Proof.
  apply (minesweeper_safe_first_click (fun k => k)
           (Minesweeper.init Minesweeper.DEFAULT_CONFIG)
           (mkCubePosition FRONT 3 3)).
  - apply init_fresh.
  - unfold validPosition; simpl; lia.
  - simpl; lia.
Defined.

(** C7, as stated, fails on a board too small for its mines: with
    [gridSize = 2] and [totalMines = 60] there are 24 cells, and the first
    reveal at FRONT (0,0) leaves 16 mines, not 60. *)
Lemma minesweeper_safe_first_click_counterexample :
  exists state',
    Minesweeper.applyAction (fun _ => O)
      (Minesweeper.init (Minesweeper.mkMinesweeperConfig 2 60))
      (Minesweeper.Reveal (mkCubePosition FRONT 0 0)) = Some state' /\
    Minesweeper.isFirstClick
      (Minesweeper.init (Minesweeper.mkMinesweeperConfig 2 60)) = true /\
    Minesweeper.totalMines state' = 60 /\
    Minesweeper.countMines (Minesweeper.cells state') = 16%nat.
Proof.
  eexists. split; [vm_compute; reflexivity |].
  repeat split; vm_compute; reflexivity.
Qed.

(* ===================================================================== *)
(** * Tetris *)
(* ===================================================================== *)

(** ** Locking returns on well-formed grids *)

Lemma Forall_update {A : Type} (P : A -> Prop) (l : list A) i v :
  Forall P l -> P v -> Forall P (update l i v).
Proof.
  intros Hl Hv. revert i. induction Hl as [| a l Ha Hl IH]; intros [| i]; simpl;
    constructor; auto.
Qed.

Lemma nth_error_in_range {A : Type} (l : list A) (i : Z) :
  0 <= i < Z.of_nat (length l) -> exists a, nth_error l (Z.to_nat i) = Some a.
Proof.
  intros Hi. destruct (nth_error l (Z.to_nat i)) as [a |] eqn:E; [now exists a |].
  apply nth_error_None in E. lia.
Qed.

Section Shaped.
Variables h d w : nat.
Implicit Types g : list (list (list Tetris.GridCell3D)).

Lemma shaped_row g cy cz :
  shaped h d w g -> 0 <= cy < Z.of_nat h -> 0 <= cz < Z.of_nat d ->
  exists layer row,
    nth_error g (Z.to_nat cy) = Some layer /\ length layer = d /\
    Forall (fun row => length row = w) layer /\
    nth_error layer (Z.to_nat cz) = Some row /\ length row = w.
Proof.
  intros [Hlen Hall] Hy Hz.
  destruct (nth_error_in_range g cy) as [layer Hlayer]; [lia |].
  pose proof (nth_error_In _ _ Hlayer) as Hin.
  rewrite Forall_forall in Hall. destruct (Hall _ Hin) as [Hd Hrows].
  destruct (nth_error_in_range layer cz) as [row Hrow]; [lia |].
  pose proof (nth_error_In _ _ Hrow) as Hin'.
  rewrite Forall_forall in Hrows.
  exists layer, row. repeat split; trivial.
  - now apply Forall_forall.
  - now apply Hrows.
Qed.

Lemma gridAt_shaped g cy cz cx :
  shaped h d w g -> 0 <= cy < Z.of_nat h -> 0 <= cz < Z.of_nat d ->
  0 <= cx < Z.of_nat w ->
  exists cell, Tetris.gridAt g cy cz cx = Some cell.
Proof.
  intros Hg Hy Hz Hx.
  destruct (shaped_row g cy cz Hg Hy Hz) as [layer [row [Hl [_ [_ [Hr Hw]]]]]].
  unfold Tetris.gridAt. rewrite Hl. simpl. rewrite Hr. simpl.
  apply nth_error_in_range. lia.
Qed.

Lemma gridSet_shaped g cy cz cx cell :
  shaped h d w g -> 0 <= cy < Z.of_nat h -> 0 <= cz < Z.of_nat d ->
  0 <= cx < Z.of_nat w ->
  exists g', Tetris.gridSet g cy cz cx cell = Some g' /\ shaped h d w g'.
Proof.
  intros Hg Hy Hz Hx.
  destruct (shaped_row g cy cz Hg Hy Hz) as [layer [row [Hl [Hd [Hrows [Hr Hw]]]]]].
  destruct (nth_error_in_range row cx) as [old Hold]; [lia |].
  unfold Tetris.gridSet. rewrite Hl. simpl. rewrite Hr. simpl. rewrite Hold. simpl.
  eexists. split; [reflexivity |].
  destruct Hg as [Hlen Hall]. split.
  - now rewrite length_update.
  - apply Forall_update; trivial. split.
    + now rewrite length_update.
    + apply Forall_update; trivial. now rewrite length_update.
Qed.

End Shaped.

Lemma placeCells_shaped state cells c : forall g,
  shaped (Z.to_nat (Tetris.height state)) (Z.to_nat (Tetris.depth state))
    (Z.to_nat (Tetris.width state)) g ->
  exists g',
    Tetris.placeCells state g cells c = Some g' /\
    shaped (Z.to_nat (Tetris.height state)) (Z.to_nat (Tetris.depth state))
      (Z.to_nat (Tetris.width state)) g'.
Proof.
  induction cells as [| cell rest IH]; intros g Hg; simpl.
  - now exists g.
  - destruct (Z.leb_spec 0 (Tetris.y cell)), (Z.ltb_spec (Tetris.y cell) (Tetris.height state)),
      (Z.leb_spec 0 (Tetris.z cell)), (Z.ltb_spec (Tetris.z cell) (Tetris.depth state)),
      (Z.leb_spec 0 (Tetris.x cell)), (Z.ltb_spec (Tetris.x cell) (Tetris.width state));
      simpl; try (now apply IH).
    destruct (gridSet_shaped _ _ _ g (Tetris.y cell) (Tetris.z cell) (Tetris.x cell)
                (Tetris.mkGridCell3D true c) Hg) as [g' [Hset Hg']]; try lia.
    rewrite Hset. simpl. now apply IH.
Qed.

Lemma In_layerCoords dd ww cz cx :
  In (cz, cx) (Tetris.layerCoords dd ww) -> 0 <= cz < dd /\ 0 <= cx < ww.
Proof.
  unfold Tetris.layerCoords. rewrite in_flat_map.
  intros [z0 [Hz Hin]]. apply in_map_iff in Hin.
  destruct Hin as [x0 [[= -> ->] Hx]]. apply In_upTo in Hz, Hx. lia.
Qed.

Lemma layerComplete_shaped h d w g ly coords :
  shaped h d w g -> 0 <= ly < Z.of_nat h ->
  (forall cz cx, In (cz, cx) coords ->
                 0 <= cz < Z.of_nat d /\ 0 <= cx < Z.of_nat w) ->
  exists b, Tetris.layerComplete g ly coords = Some b.
Proof.
  intros Hg Hy. induction coords as [| [cz cx] rest IH]; intros Hin; simpl.
  - now exists true.
  - destruct (Hin cz cx (or_introl eq_refl)) as [Hz Hx].
    destruct (gridAt_shaped h d w g ly cz cx Hg Hy Hz Hx) as [cell Hcell].
    rewrite Hcell. simpl. destruct (Tetris.filled cell).
    + apply IH. intros; apply Hin; now right.
    + now exists false.
Qed.

Lemma completedLayersIn_shaped h g dd ww ys :
  shaped h (Z.to_nat dd) (Z.to_nat ww) g ->
  (forall ly, In ly ys -> 0 <= ly < Z.of_nat h) ->
  exists l,
    Tetris.completedLayersIn g dd ww ys = Some l /\
    (forall ly, In ly l -> In ly ys).
Proof.
  intros Hg. induction ys as [| ly ys IH]; intros Hys; simpl.
  - exists []. split; [reflexivity | intros ? []].
  - destruct (layerComplete_shaped h (Z.to_nat dd) (Z.to_nat ww) g ly
                (Tetris.layerCoords dd ww) Hg) as [b Hb].
    + apply Hys. now left.
    + intros cz cx Hin. apply In_layerCoords in Hin. lia.
    + destruct IH as [l [Hl Hsub]]; [intros; apply Hys; now right |].
      rewrite Hb, Hl. simpl. eexists. split; [reflexivity |].
      intros ly' Hin. destruct b; [destruct Hin as [-> | Hin] |]; auto.
Qed.

Lemma In_insertDescending a b l :
  In b (Tetris.insertDescending a l) <-> b = a \/ In b l.
Proof.
  induction l as [| c l IH]; simpl; [intuition |].
  destruct (c <? a); simpl; [intuition | rewrite IH; intuition].
Qed.

Lemma In_sortDescending b l : In b (Tetris.sortDescending l) <-> In b l.
Proof.
  unfold Tetris.sortDescending. induction l as [| a l IH]; simpl; [reflexivity |].
  rewrite In_insertDescending, IH. intuition.
Qed.

Lemma length_removeAt {A : Type} i (l : list A) :
  (i < length l)%nat -> S (length (Tetris.removeAt i l)) = length l.
Proof.
  revert i. induction l as [| a l IH]; intros i Hi; simpl in *; [lia |].
  destruct i; simpl; [reflexivity |]. rewrite IH; lia.
Qed.

Lemma Forall_removeAt {A : Type} (P : A -> Prop) i (l : list A) :
  Forall P l -> Forall P (Tetris.removeAt i l).
Proof.
  intros Hl. revert i. induction Hl as [| a l Ha Hl IH]; intros [| i]; simpl;
    auto.
Qed.

Lemma emptyLayer_shaped dd ww :
  length (Tetris.emptyLayer dd ww) = Z.to_nat dd /\
  Forall (fun row => length row = Z.to_nat ww) (Tetris.emptyLayer dd ww).
Proof.
  unfold Tetris.emptyLayer. split.
  - now rewrite length_map, length_upTo.
  - apply Forall_forall. intros row Hin. apply in_map_iff in Hin.
    destruct Hin as [_ [<- _]]. now rewrite length_map, length_upTo.
Qed.

Lemma removeLayers_shaped state layers : forall g,
  shaped (Z.to_nat (Tetris.height state)) (Z.to_nat (Tetris.depth state))
    (Z.to_nat (Tetris.width state)) g ->
  (forall ly, In ly layers -> 0 <= ly < Tetris.height state) ->
  shaped (Z.to_nat (Tetris.height state)) (Z.to_nat (Tetris.depth state))
    (Z.to_nat (Tetris.width state)) (Tetris.removeLayers state g layers).
Proof.
  unfold Tetris.removeLayers.
  induction layers as [| ly layers IH]; intros g Hg Hin; simpl; trivial.
  apply IH; [| intros; apply Hin; now right].
  destruct Hg as [Hlen Hall].
  pose proof (Hin ly (or_introl eq_refl)) as Hly.
  split.
  - rewrite length_app. simpl.
    pose proof (length_removeAt (Z.to_nat ly) g). lia.
  - apply Forall_app. split; [now apply Forall_removeAt |].
    constructor; [apply emptyLayer_shaped | constructor].
Qed.

Lemma cellsFree_shaped state cells :
  wellFormed state -> exists b, Tetris.cellsFree state cells = Some b.
Proof.
  intros Hwf. induction cells as [| cell rest IH]; simpl.
  - now exists true.
  - unfold Tetris.inBounds.
    destruct (Z.leb_spec 0 (Tetris.y cell)), (Z.ltb_spec (Tetris.y cell) (Tetris.height state)),
      (Z.leb_spec 0 (Tetris.z cell)), (Z.ltb_spec (Tetris.z cell) (Tetris.depth state)),
      (Z.leb_spec 0 (Tetris.x cell)), (Z.ltb_spec (Tetris.x cell) (Tetris.width state));
      simpl; try (now exists false).
    destruct (gridAt_shaped _ _ _ (Tetris.grid state) (Tetris.y cell)
                (Tetris.z cell) (Tetris.x cell) Hwf) as [placed Hplaced]; try lia.
    rewrite Hplaced. simpl. destruct (Tetris.filled placed); [now exists false | exact IH].
Qed.

(** ** Blocked drops *)

(** [lockPiece] returns on a well-formed state: it stamps the cells of the
    piece into the grid, removes the completed layers, and spawns the next
    piece (or ends the game when the spawn position is taken). *)
Lemma lockPiece_locks rnd state piece :
  wellFormed state -> Tetris.currentPiece state = Some piece ->
  exists state' stamped completed,
    Tetris.lockPiece rnd state = Some state' /\
    Tetris.placeCells state (Tetris.grid state) (Tetris.getPieceCells piece)
      (Tetris.shapeColor (Tetris.TETRACUBES (Tetris.type piece))) = Some stamped /\
    Tetris.completedLayersIn stamped (Tetris.depth state) (Tetris.width state)
      (upTo (Tetris.height state)) = Some completed /\
    Tetris.grid state'
    = Tetris.removeLayers state stamped (Tetris.sortDescending completed) /\
    Tetris.currentPiece state'
    = (if Tetris.isGameOver state' then None
       else Some (Tetris.spawnPiece (Tetris.nextPiece state))) /\
    Tetris.canHold state' = true.
Proof.
  intros Hwf Hpiece. unfold Tetris.lockPiece. rewrite Hpiece.
  destruct (placeCells_shaped state (Tetris.getPieceCells piece)
              (Tetris.shapeColor (Tetris.TETRACUBES (Tetris.type piece)))
              (Tetris.grid state) Hwf) as [stamped [Hstamped Hshape]].
  destruct (completedLayersIn_shaped _ stamped (Tetris.depth state)
              (Tetris.width state) (upTo (Tetris.height state)) Hshape)
    as [completed [Hcompleted Hsub]].
  { intros ly Hly. apply In_upTo in Hly. lia. }
  assert (Hcleared : shaped (Z.to_nat (Tetris.height state))
                       (Z.to_nat (Tetris.depth state))
                       (Z.to_nat (Tetris.width state))
                       (Tetris.removeLayers state stamped
                          (Tetris.sortDescending completed))).
  { apply removeLayers_shaped; trivial.
    intros ly Hly. apply In_sortDescending, Hsub, In_upTo in Hly. exact Hly. }
  rewrite Hstamped. cbn [Tetris.andThen].
  rewrite Hcompleted. cbn [Tetris.andThen].
  match goal with
  | |- context [Tetris.isValidPosition ?s ?p] =>
      destruct (cellsFree_shaped s (Tetris.getPieceCells p) Hcleared) as [ok Hok];
      unfold Tetris.isValidPosition; rewrite Hok
  end.
  cbn [Tetris.andThen].
  eexists _, stamped, completed.
  split; [reflexivity |].
  split; [first [reflexivity | exact Hstamped] |].
  split; [first [reflexivity | exact Hcompleted] |].
  split; [reflexivity |].
  split; reflexivity.
Qed.

(** ** Every action returns, on well-formed grids *)

Lemma isValidPosition_total state piece :
  wellFormed state -> exists ok, Tetris.isValidPosition state piece = Some ok.
Proof. intros Hwf. now apply cellsFree_shaped. Qed.

Lemma init_wellFormed rnd : wellFormed (Tetris.init rnd).
Proof.
  split; [reflexivity |].
  repeat (constructor; [split; [reflexivity | repeat constructor] |]).
  constructor.
Qed.

Lemma rotatePoint_within3 v axis times :
  within3 v -> within3 (Tetris.rotatePoint v axis times).
Proof.
  unfold Tetris.rotatePoint. intros Hv.
  induction (Z.to_nat (Z.rem (Z.rem times 4 + 4) 4)) as [| n IH]; simpl; trivial.
  destruct IH as [Hx [Hy Hz]]. unfold within3.
  destruct axis; simpl; lia.
Qed.

Lemma shape_within3 t : Forall within3 (Tetris.shapeCells (Tetris.TETRACUBES t)).
Proof. destruct t; simpl; repeat constructor; simpl; lia. Qed.

Lemma valid_piece_height state piece :
  Tetris.isValidPosition state piece = Some true ->
  -3 <= Tetris.y (Tetris.position piece).
Proof.
  unfold Tetris.isValidPosition, Tetris.getPieceCells.
  pose proof (shape_within3 (Tetris.type piece)) as Hshape.
  destruct (Tetris.shapeCells (Tetris.TETRACUBES (Tetris.type piece)))
    as [| cell rest] eqn:Hcells.
  { destruct (Tetris.type piece); discriminate Hcells. }
  inversion Hshape as [| ? ? Hcell _]; subst.
  cbn [map Tetris.cellsFree].
  match goal with
  | |- context [Tetris.inBounds state ?c] =>
      destruct (Tetris.inBounds state c) eqn:Hin; [| discriminate]
  end.
  intros _. unfold Tetris.inBounds in Hin.
  apply andb_true_iff in Hin. destruct Hin as [Hin _].
  apply andb_true_iff in Hin. destruct Hin as [_ Hy].
  apply Z.leb_le in Hy. cbn [Tetris.y] in Hy.
  pose proof (rotatePoint_within3 _ Tetris.axis_z (Tetris.rotationZ piece / 90)
                (rotatePoint_within3 _ Tetris.axis_y (Tetris.rotationY piece / 90)
                   (rotatePoint_within3 _ Tetris.axis_x
                      (Tetris.rotationX piece / 90) Hcell))) as [_ [Hr _]].
  lia.
Qed.

(** The loop of [hardDrop] ends within the fuel it is given. *)
Lemma dropWhileFree_total state : forall fuel piece distance,
  wellFormed state ->
  Tetris.y (Tetris.position piece) + 3 < Z.of_nat fuel -> (0 < fuel)%nat ->
  exists landed distance',
    Tetris.dropWhileFree fuel state piece distance = Some (landed, distance').
Proof.
  induction fuel as [| fuel IH]; intros piece distance Hwf Hy Hfuel; [lia |].
  cbn [Tetris.dropWhileFree].
  destruct (isValidPosition_total state (Tetris.lowered piece) Hwf) as [ok Hok].
  rewrite Hok. cbn [Tetris.andThen]. destruct ok.
  - apply valid_piece_height in Hok. cbn [Tetris.lowered Tetris.position Tetris.y] in Hok.
    apply IH; trivial; cbn [Tetris.lowered Tetris.position Tetris.y]; lia.
  - now exists piece, distance.
Qed.

Lemma withPiece_wellFormed state piece :
  wellFormed state -> wellFormed (Tetris.withPiece state piece).
Proof. intros H; exact H. Qed.

Lemma lockPiece_total rnd state :
  wellFormed state ->
  exists state', Tetris.lockPiece rnd state = Some state' /\ wellFormed state'.
Proof.
  intros Hwf.
  destruct (Tetris.currentPiece state) as [piece |] eqn:Hpiece.
  - destruct (lockPiece_locks rnd state piece Hwf Hpiece)
      as [state' [stamped [completed [Hlock [Hstamped [Hcompleted [Hgrid _]]]]]]].
    exists state'. split; [exact Hlock |].
    assert (Hdims : Tetris.height state' = Tetris.height state /\
                    Tetris.depth state' = Tetris.depth state /\
                    Tetris.width state' = Tetris.width state).
    { unfold Tetris.lockPiece in Hlock. rewrite Hpiece, Hstamped in Hlock.
      cbn [Tetris.andThen] in Hlock. rewrite Hcompleted in Hlock.
      cbn [Tetris.andThen] in Hlock.
      match type of Hlock with
      | Tetris.andThen ?o _ = _ => destruct o; [| discriminate Hlock]
      end.
      cbn [Tetris.andThen] in Hlock. injection Hlock as <-. auto. }
    destruct Hdims as [Hh [Hd Hw]].
    unfold wellFormed. rewrite Hh, Hd, Hw, Hgrid.
    destruct (placeCells_shaped state (Tetris.getPieceCells piece)
                (Tetris.shapeColor (Tetris.TETRACUBES (Tetris.type piece)))
                (Tetris.grid state) Hwf) as [stamped' [Hstamped' Hshape]].
    rewrite Hstamped in Hstamped'. injection Hstamped' as <-.
    destruct (completedLayersIn_shaped _ stamped (Tetris.depth state)
                (Tetris.width state) (upTo (Tetris.height state)) Hshape)
      as [completed' [Hcompleted' Hsub]].
    { intros ly Hly. apply In_upTo in Hly. lia. }
    rewrite Hcompleted in Hcompleted'. injection Hcompleted' as <-.
    apply removeLayers_shaped; trivial.
    intros ly Hly. apply In_sortDescending, Hsub, In_upTo in Hly. exact Hly.
  - exists state. unfold Tetris.lockPiece. rewrite Hpiece. auto.
Qed.

Lemma tryKicks_total state newPiece ks :
  wellFormed state ->
  exists state', Tetris.tryKicks state newPiece ks = Some state' /\ wellFormed state'.
Proof.
  intros Hwf. induction ks as [| kick rest IH]; cbn [Tetris.tryKicks].
  - now exists state.
  - destruct (isValidPosition_total state (Tetris.translate newPiece kick) Hwf)
      as [ok Hok].
    rewrite Hok. cbn [Tetris.andThen]. destruct ok; [| exact IH].
    eexists. split; [reflexivity | exact Hwf].
Qed.

(** On a well-formed state every action returns a well-formed state: the
    model never leaves its domain from [init] on. *)
Lemma tetris_applyAction_total rnd state action :
  wellFormed state ->
  exists state',
    Tetris.applyAction rnd state action = Some state' /\ wellFormed state'.
Proof.
  intros Hwf.
  destruct action as [direction | axis | [] | | | |]; cbn [Tetris.applyAction].
  - unfold Tetris.movePiece.
    destruct (Tetris.currentPiece state) as [piece |]; [| now exists state].
    match goal with
    | |- context [Tetris.isValidPosition state ?p] =>
        destruct (isValidPosition_total state p Hwf) as [ok Hok]; rewrite Hok
    end.
    cbn [Tetris.andThen]. destruct ok; eexists; split; try reflexivity; exact Hwf.
  - unfold Tetris.rotatePiece.
    destruct (Tetris.currentPiece state) as [piece |]; [| now exists state].
    cbv zeta.
    match goal with
    | |- context [Tetris.isValidPosition state ?p] =>
        destruct (isValidPosition_total state p Hwf) as [ok Hok]; rewrite Hok
    end.
    cbn [Tetris.andThen]. destruct ok.
    + eexists; split; [reflexivity | exact Hwf].
    + now apply tryKicks_total.
  - unfold Tetris.softDrop.
    destruct (Tetris.currentPiece state) as [piece |]; [| now exists state].
    destruct (isValidPosition_total state (Tetris.lowered piece) Hwf) as [ok Hok].
    cbv zeta. rewrite Hok. cbn [Tetris.andThen].
    destruct ok; eexists; split; try reflexivity; exact Hwf.
  - unfold Tetris.hardDrop.
    destruct (Tetris.currentPiece state) as [piece |]; [| now exists state].
    destruct (dropWhileFree_total state
                (S (Z.to_nat (Tetris.y (Tetris.position piece) + 4))) piece 0 Hwf)
      as [landed [distance Hdrop]]; [lia | lia |].
    rewrite Hdrop. cbn [Tetris.andThen].
    apply lockPiece_total. exact Hwf.
  - unfold Tetris.tick.
    destruct (Tetris.currentPiece state) as [piece |]; [| now exists state].
    destruct (Tetris.isPaused state); [now exists state |].
    destruct (isValidPosition_total state (Tetris.lowered piece) Hwf) as [ok Hok].
    cbv zeta. rewrite Hok. cbn [Tetris.andThen]. destruct ok.
    + eexists; split; [reflexivity | exact Hwf].
    + now apply lockPiece_total.
  - unfold Tetris.holdPiece.
    destruct (Tetris.currentPiece state) as [piece |]; [| now exists state].
    destruct (Tetris.canHold state); cbn [negb]; [| now exists state].
    destruct (Tetris.heldPiece state); eexists; split; try reflexivity; exact Hwf.
  - eexists; split; [reflexivity | exact Hwf].
  - eexists; split; [reflexivity | exact Hwf].
Qed.

(** ** The blocked piece *)





(* ===================================================================== *)
(** * Nonogram *)
(* ===================================================================== *)

Lemma In_nonogram_positions g p :
  In p (Nonogram.allPositions g) <-> validPosition g p.
Proof.
  unfold Nonogram.allPositions, validPosition.
  rewrite in_flat_map. split.
  - intros [f [_ Hp]]. apply in_flat_map in Hp. destruct Hp as [b [Hb Hp]].
    apply in_map_iff in Hp. destruct Hp as [a [<- Ha]].
    apply In_upTo in Ha, Hb. simpl. lia.
  - intros [Hx Hy]. exists (face p). split.
    + destruct (face p); simpl; tauto.
    + apply in_flat_map. exists (y p). split; [now apply In_upTo |].
      apply in_map_iff. exists (x p). split; [now destruct p | now apply In_upTo].
Qed.

Lemma NoDup_nonogram_positions g : NoDup (Nonogram.allPositions g).
Proof.
  unfold Nonogram.allPositions. apply NoDup_flat_map.
  - unfold Nonogram.ALL_FACES.
    repeat (constructor; [simpl; intuition discriminate |]). constructor.
  - intros f _. apply NoDup_flat_map.
    + apply NoDup_upTo.
    + intros b _. apply Finite.Injective_map_NoDup; [| apply NoDup_upTo].
      intros a a' [= ->]. reflexivity.
    + intros b b' q _ _ Hq Hq'.
      apply in_map_iff in Hq, Hq'.
      destruct Hq as [a [<- _]], Hq' as [a' [[= _ ->] _]]. reflexivity.
  - intros f f' q _ _ Hq Hq'.
    apply in_flat_map in Hq, Hq'.
    destruct Hq as [b [_ Hq]], Hq' as [b' [_ Hq']].
    apply in_map_iff in Hq, Hq'.
    destruct Hq as [a [<- _]], Hq' as [a' [[= -> _ _] _]]. reflexivity.
Qed.

Section Board.
Variable pattern : CubeFace -> list (list bool).

Lemma init_board game :
  Nonogram.cells (Nonogram.init pattern game)
  = board pattern [] (Nonogram.allPositions (Nonogram.configGridSize game)).
Proof.
  unfold Nonogram.init. cbn [Nonogram.cells].
  rewrite (fold_set_fresh
             (fun p => Nonogram.mkNonogramCell
                         (Nonogram.patternCell (pattern (face p)) (x p) (y p))
                         Nonogram.UNKNOWN)).
  - reflexivity.
  - apply NoDup_posKeys, NoDup_nonogram_positions.
  - intros p _ [].
Qed.



End Board.

Lemma cellUnsolved_false cell :
  Nonogram.cellUnsolved cell = false <->
  (Nonogram.solution cell = true -> Nonogram.state cell = Nonogram.FILLED).
Proof.
  unfold Nonogram.cellUnsolved.
  destruct (Nonogram.solution cell), (Nonogram.state cell); simpl;
    split; intros H; try reflexivity; try discriminate;
    try (intros; discriminate); try (specialize (H eq_refl); discriminate).
Qed.

Lemma checkWinCondition_iff cells :
  Nonogram.checkWinCondition cells = true <->
  (forall key cell,
      In (key, cell) cells ->
      Nonogram.solution cell = true -> Nonogram.state cell = Nonogram.FILLED).
Proof.
  unfold Nonogram.checkWinCondition. rewrite forallb_forall. split.
  - intros H key cell Hin. apply cellUnsolved_false.
    specialize (H (key, cell) Hin). simpl in H.
    now destruct (Nonogram.cellUnsolved cell).
  - intros H [key cell] Hin. simpl.
    rewrite (proj2 (cellUnsolved_false cell)); [reflexivity |].
    now apply (H key).
Qed.

Lemma applyAction_result game st action st' :
  Nonogram.applyAction game st action = Some st' ->
  Nonogram.isWon st' = Nonogram.checkWinCondition (Nonogram.cells st') /\
  Nonogram.isGameOver st'
  = Nonogram.isWon st'
    || (Nonogram.mistakes st' >=? Nonogram.configMaxMistakes game).
Proof.
  unfold Nonogram.applyAction.
  match goal with
  | |- match ?u with _ => _ end = _ -> _ => destruct u as [[[newCells m] h] |]
  end; [| discriminate].
  intros [= <-]. split; reflexivity.
Qed.





(* ===================================================================== *)
(** * Randomness of [applyAction] *)
(* ===================================================================== *)

(** C5, as amended.  The result of [applyAction] is a function of the
    state, the action and the draws of [Math.random] made during the call,
    and the draws matter only in the transitions singled out above: for
    Snake a [move] that eats the food, for Minesweeper the first [reveal],
    for Tetris the locking of a piece and a first [hold].  For every other
    state and action the result is the same whatever the random source.
    (The [applyAction] of Nonogram takes no random source at all.) *)
Theorem applyAction_random_only_where_drawn (rnd1 rnd2 : RandomSource) :
  (forall (CameraUp : Type)
          (transformDirectionAcrossEdge :
             CubeFace -> Snake.SnakeDirection -> CameraUp -> Snake.SnakeDirection)
          (rotateCameraUp : CubeFace -> CubeFace -> CameraUp -> CameraUp)
          (state : Snake.SnakeGameState CameraUp) (action : Snake.SnakeAction),
      snakeDrawFree state action = true ->
      Snake.applyAction transformDirectionAcrossEdge rotateCameraUp rnd1 state action
      = Snake.applyAction transformDirectionAcrossEdge rotateCameraUp rnd2 state
          action) /\
  (forall state action,
      minesweeperDrawFree state action = true ->
      Minesweeper.applyAction rnd1 state action
      = Minesweeper.applyAction rnd2 state action) /\
  (forall state action,
      tetrisDrawFree state action = true ->
      Tetris.applyAction rnd1 state action = Tetris.applyAction rnd2 state action).
Proof.
  repeat split.
  - intros CameraUp td rc state action Hfree.
    destruct action; try reflexivity.
    unfold snakeDrawFree, Snake.nextHead in Hfree.
    unfold Snake.applyAction, Snake.moveSnake.
    destruct (Snake.isPaused state || Snake.isGameOver state); [reflexivity |].
    destruct (Snake.snake state) as [| head body] eqn:Hsnake; [reflexivity |].
    cbn [orb] in Hfree. cbv zeta.
    destruct (Snake.occupies (head :: body)
                (movePosition head
                   (Snake.DIRECTION_DELTAS (Snake.nextDirection state))
                   (Snake.gridSize state))); [reflexivity |].
    cbn [orb] in Hfree. apply negb_true_iff in Hfree. rewrite Hfree. reflexivity.
  - intros state action Hfree. unfold minesweeperDrawFree in Hfree.
    unfold Minesweeper.applyAction.
    destruct (Minesweeper.isGameOver state); [reflexivity |].
    destruct (Minesweeper.isFirstClick state); [| reflexivity].
    destruct action; [discriminate Hfree | reflexivity | reflexivity].
  - intros state action Hfree. unfold tetrisDrawFree in Hfree.
    destruct action as [d | a | [] | | | |]; try reflexivity;
      unfold Tetris.applyAction, Tetris.softDrop, Tetris.hardDrop, Tetris.tick,
        Tetris.holdPiece;
      destruct (Tetris.currentPiece state) as [piece |]; try reflexivity;
      try discriminate Hfree.
    + destruct (Tetris.isPaused state); [reflexivity |]. simpl in Hfree.
      destruct (Tetris.isValidPosition state (Tetris.lowered piece))
        as [[] |]; try reflexivity. discriminate Hfree.
    + destruct (Tetris.canHold state); [| reflexivity]. simpl in Hfree.
      destruct (Tetris.heldPiece state); [reflexivity | discriminate Hfree].
Qed.

Lemma applyAction_random_only_where_drawn_witness :
  Snake.applyAction (fun _ d (_ : unit) => d) (fun _ _ u => u) (fun _ => 0%nat)
    curledSnake Snake.Move
  = Snake.applyAction (fun _ d (_ : unit) => d) (fun _ _ u => u) (fun _ => 1%nat)
      curledSnake Snake.Move /\
  Minesweeper.applyAction (fun _ => 0%nat) openedBoard
    (Minesweeper.Reveal (mkCubePosition BACK 0 0))
  = Minesweeper.applyAction (fun _ => 1%nat) openedBoard
      (Minesweeper.Reveal (mkCubePosition BACK 0 0)) /\
  Tetris.applyAction (fun _ => 0%nat) restingSquare (Tetris.Move Tetris.move_left)
  = Tetris.applyAction (fun _ => 1%nat) restingSquare (Tetris.Move Tetris.move_left).
Proof.
  destruct (applyAction_random_only_where_drawn (fun _ => 0%nat) (fun _ => 1%nat))
    as [Hsnake [Hmines Htetris]].
  split; [| split].
  - apply Hsnake. vm_compute; reflexivity.
  - apply Hmines. vm_compute; reflexivity.
  - apply Htetris. vm_compute; reflexivity.
Defined.

(** C5, as stated, fails: two applications of [applyAction] to the same
    state and action differ when the draws differ, for the [move] of Snake
    that eats the food and for the [tick] of Tetris that locks a piece. *)
Lemma applyAction_pure_counterexample :
  Snake.applyAction (fun _ d (_ : unit) => d) (fun _ _ u => u) (fun _ => 0%nat)
    snakeAtFood Snake.Move
  <> Snake.applyAction (fun _ d (_ : unit) => d) (fun _ _ u => u) (fun _ => 1%nat)
       snakeAtFood Snake.Move /\
  Tetris.applyAction (fun _ => 0%nat) restingSquare Tetris.Tick
  <> Tetris.applyAction (fun _ => 1%nat) restingSquare Tetris.Tick.
Proof.
  split; vm_compute; intros H; discriminate H.
Qed.

(* ===================================================================== *)
(** * Part III.  Further properties of the code *)
(* ===================================================================== *)

Lemma some_eq {A : Type} (a b : A) : Some a = Some b -> a = b.
Proof. congruence. Qed.

(* ===================================================================== *)
(** * Further properties of the cube surface *)
(* ===================================================================== *)

(** X1.  The faces listed by [getAdjacentFaces] are, in order, the faces that
    the edge table reaches through the top, bottom, left and right edges.
    The opposite of the opposite of a face is the face itself; a face, its
    opposite and its four adjacent faces are six different faces, so all
    the faces of the cube. *)
Theorem adjacent_faces_follow_edges (f : CubeFace) :
  map (fun e => option_map toFace (getEdgeTransition f e))
    [E_top; E_bottom; E_left; E_right]
  = map Some (getAdjacentFaces f) /\
  getOppositeFace (getOppositeFace f) = f /\
  NoDup (f :: getOppositeFace f :: getAdjacentFaces f) /\
  (forall f', In f' (f :: getOppositeFace f :: getAdjacentFaces f)).
Proof.
  split; [now destruct f |]. split; [now destruct f |]. split.
  - destruct f; repeat constructor; simpl; intuition discriminate.
  - intros f'; destruct f, f'; simpl; tauto.
Qed.





(** A one-cell orthogonal move from a legal position never stays in
    place and never reaches the opposite face: it stays on the face when
    the target cell is on the grid, and otherwise arrives on one of the
    four faces listed by [getAdjacentFaces]. *)
Theorem movePosition_reaches_adjacent_face
  (gridSize : Z) (p : CubePosition) (d : Delta) :
  validPosition gridSize p -> In d unitDeltas ->
  let q := movePosition p d gridSize in
  q <> p /\
  face q <> getOppositeFace (face p) /\
  (validPosition gridSize
     (mkCubePosition (face p) (x p + dx d) (y p + dy d)) ->
   q = mkCubePosition (face p) (x p + dx d) (y p + dy d)) /\
  (~ validPosition gridSize
       (mkCubePosition (face p) (x p + dx d) (y p + dy d)) ->
   In (face q) (getAdjacentFaces (face p))).
Proof.
  destruct p as [f px py]; unfold validPosition; simpl.
  intros [Hx Hy] Hd. apply In_unitDeltas in Hd.
  destruct Hd as [-> | [-> | [-> | ->]]];
    rewrite (movePosition_eq (mkCubePosition f px py)); simpl;
    zcompare; destruct f; unfold leaveThrough, enterAt; simpl;
    (split; [intros [=]; lia |]);
    (split; [discriminate |]);
    (split; [intros; try reflexivity; lia | intros; try tauto; lia]).
Qed.

Lemma movePosition_reaches_adjacent_face_witness :
  let q := movePosition (mkCubePosition TOP 0 5) (mkDelta (-1) 0) 8 in
  q <> mkCubePosition TOP 0 5 /\
  face q <> BOTTOM /\
  (validPosition 8 (mkCubePosition TOP (0 + -1) (5 + 0)) ->
   q = mkCubePosition TOP (0 + -1) (5 + 0)) /\
  (~ validPosition 8 (mkCubePosition TOP (0 + -1) (5 + 0)) ->
   In (face q) (getAdjacentFaces TOP)).
Proof.
  apply (movePosition_reaches_adjacent_face 8 (mkCubePosition TOP 0 5)
           (mkDelta (-1) 0)).
  - unfold validPosition; simpl; lia.
  - simpl; auto.
Defined.

(** ** The orthogonal neighbours *)

(** The four orthogonal neighbours, in the order of [NEIGHBOR_DELTAS]. *)
Lemma orthogonal_distinct g p :
  validPosition g p ->
  NoDup (map (fun d => movePosition p d g)
           [mkDelta 0 1; mkDelta 0 (-1); mkDelta (-1) 0; mkDelta 1 0]).
Proof.
  destruct p as [f px py]; unfold validPosition; simpl; intros [Hx Hy].
  rewrite !movePosition_eq; simpl.
  zcompare; destruct f; unfold leaveThrough, enterAt; simpl;
    distinctPositions.
Qed.

Lemma neighborStep_extends p g d acc :
  exists more, fst (neighborStep p g acc d) = fst acc ++ more.
Proof.
  assert (Hpush : forall n, exists more, fst (pushUnseen acc n) = fst acc ++ more).
  { intros n. destruct acc as [ns seen]. unfold pushUnseen.
    destruct (setHas seen (posKey n)); simpl.
    - exists []. now rewrite app_nil_r.
    - now exists [n]. }
  unfold neighborStep. destruct ((dx d =? 0) || (dy d =? 0)); [apply Hpush |].
  destruct (getDiagonalNeighbor p d g); [apply Hpush |].
  exists []. now rewrite app_nil_r.
Qed.

Lemma fold_neighborStep_extends p g ds : forall acc,
  exists more, fst (fold_left (neighborStep p g) ds acc) = fst acc ++ more.
Proof.
  induction ds as [| d ds IH]; intros acc; simpl.
  - exists []. now rewrite app_nil_r.
  - destruct (IH (neighborStep p g acc d)) as [more Hmore].
    destruct (neighborStep_extends p g d acc) as [more' Hmore'].
    exists (more' ++ more). rewrite Hmore, Hmore'. now rewrite app_assoc.
Qed.

(** [getAllNeighbors] of a legal position starts with the four orthogonal
    neighbours (up, down, left, right), which are four different cells;
    every position it returns is legal, and it returns between 4 and 8 of
    them. *)
Theorem getAllNeighbors_orthogonal_first (gridSize : Z) (p : CubePosition) :
  validPosition gridSize p ->
  firstn 4 (getAllNeighbors p gridSize)
  = [ movePosition p (mkDelta 0 1) gridSize;
      movePosition p (mkDelta 0 (-1)) gridSize;
      movePosition p (mkDelta (-1) 0) gridSize;
      movePosition p (mkDelta 1 0) gridSize ] /\
  NoDup (firstn 4 (getAllNeighbors p gridSize)) /\
  (forall n, In n (getAllNeighbors p gridSize) -> validPosition gridSize n) /\
  (4 <= length (getAllNeighbors p gridSize) <= 8)%nat.
Proof.
  intros Hp.
  pose proof (orthogonal_distinct gridSize p Hp) as Hnd. simpl in Hnd.
  assert (Hfirst : exists more,
             getAllNeighbors p gridSize
             = [ movePosition p (mkDelta 0 1) gridSize;
                 movePosition p (mkDelta 0 (-1)) gridSize;
                 movePosition p (mkDelta (-1) 0) gridSize;
                 movePosition p (mkDelta 1 0) gridSize ] ++ more).
  { unfold getAllNeighbors.
    change NEIGHBOR_DELTAS
      with ([mkDelta 0 1; mkDelta 0 (-1); mkDelta (-1) 0; mkDelta 1 0]
              ++ [mkDelta (-1) 1; mkDelta 1 1; mkDelta (-1) (-1);
                  mkDelta 1 (-1)]).
    rewrite fold_left_app.
    destruct (fold_neighborStep p gridSize
                [mkDelta 0 1; mkDelta 0 (-1); mkDelta (-1) 0; mkDelta 1 0]
                [] (NoDup_nil _)) as [ms [Hf [_ [_ Heq]]]].
    change (map posKey (rev [])) with (@nil string) in Hf.
    rewrite Hf. specialize (Heq Hnd). simpl in Heq. subst ms.
    match goal with
    | |- context [fold_left _ ?ds ?acc] =>
        destruct (fold_neighborStep_extends p gridSize ds acc) as [more Hmore]
    end.
    exists more. exact Hmore. }
  destruct Hfirst as [more Hmore].
  split; [rewrite Hmore; reflexivity |].
  split; [rewrite Hmore; exact Hnd |].
  split; [intros n; now apply getAllNeighbors_valid |].
  split; [rewrite Hmore; simpl; lia | apply getAllNeighbors_length].
Qed.

Lemma getAllNeighbors_orthogonal_first_witness :
  firstn 4 (getAllNeighbors (mkCubePosition TOP 7 7) 8)
  = [ movePosition (mkCubePosition TOP 7 7) (mkDelta 0 1) 8;
      movePosition (mkCubePosition TOP 7 7) (mkDelta 0 (-1)) 8;
      movePosition (mkCubePosition TOP 7 7) (mkDelta (-1) 0) 8;
      movePosition (mkCubePosition TOP 7 7) (mkDelta 1 0) 8 ].
Proof.
  apply (getAllNeighbors_orthogonal_first 8 (mkCubePosition TOP 7 7)).
  unfold validPosition; simpl; lia.
Defined.

(** ** Corners *)

Lemma setHas_positions ns n :
  setHas (map posKey (rev ns)) (posKey n) = existsb (positionsEqual n) ns.
Proof.
  apply eq_true_iff_eq. rewrite setHas_keys, <- in_rev, existsb_exists.
  split.
  - intros Hn. exists n. split; [assumption | now apply positionsEqual_eq].
  - intros [m [Hm He]]. apply positionsEqual_eq in He. now subst.
Qed.

Lemma fold_neighborStep_dedup p g ds : forall ns,
  fold_left (neighborStep p g) ds (ns, map posKey (rev ns))
  = (fold_left dedupStep (candidatesFor p g ds) ns,
     map posKey (rev (fold_left dedupStep (candidatesFor p g ds) ns))).
Proof.
  induction ds as [| d ds IH]; intros ns; simpl; trivial.
  rewrite neighborStep_spec. unfold candidatesFor in *. simpl.
  destruct (candidate p g d) as [n |]; simpl; [| apply IH].
  rewrite setHas_positions. unfold dedupStep at 2 4.
  destruct (existsb (positionsEqual n) ns); apply IH.
Qed.

Lemma getAllNeighbors_dedup p g :
  getAllNeighbors p g = dedup (candidates p g).
Proof.
  unfold getAllNeighbors, dedup, candidates.
  change (@nil string) with (map posKey (rev (@nil CubePosition))).
  now rewrite fold_neighborStep_dedup.
Qed.

Lemma dedup_cons_out n l acc :
  ~ In n acc ->
  fold_left dedupStep (n :: l) acc = fold_left dedupStep l (acc ++ [n]).
Proof.
  intros Hn. simpl. unfold dedupStep at 2.
  destruct (existsb (positionsEqual n) acc) eqn:He; trivial.
  apply existsb_exists in He. destruct He as [m [Hm He]].
  apply positionsEqual_eq in He. subst. contradiction.
Qed.

Lemma dedup_cons_in n l acc :
  In n acc ->
  fold_left dedupStep (n :: l) acc = fold_left dedupStep l acc.
Proof.
  intros Hn. simpl. unfold dedupStep at 2.
  destruct (existsb (positionsEqual n) acc) eqn:He; trivial.
  assert (existsb (positionsEqual n) acc = true); [| congruence].
  apply existsb_exists. exists n. split; [assumption | now apply positionsEqual_eq].
Qed.

Ltac notAmong :=
  cbn [In]; intuition (try discriminate);
  match goal with
  | H : mkCubePosition _ _ _ = mkCubePosition _ _ _ |- _ =>
      injection H; intros; lia
  end.

Ltac among :=
  cbn [In];
  repeat first [ left; f_equal; lia | right ].

Ltac dedupRun :=
  unfold dedup;
  repeat first [ rewrite dedup_cons_out by notAmong; cbn [app]
               | rewrite dedup_cons_in by among ];
  cbn [fold_left].

Ltac explicitNeighbours :=
  rewrite getAllNeighbors_dedup, candidates_unfold; diagonalCases;
  rewrite !movePosition_eq;
  unfold stepOnNewFace, transformSecondaryDelta, leaveThrough, enterAt,
    getEdgeTransition;
  simpl; resolveTests; simpl; resolveTests; simpl;
  dedupRun.



Ltac explicitCandidates :=
  rewrite candidates_unfold; diagonalCases;
  rewrite !movePosition_eq;
  unfold stepOnNewFace, transformSecondaryDelta, leaveThrough, enterAt,
    getEdgeTransition;
  simpl; resolveTests; simpl; resolveTests; simpl.

Ltac splitFacts :=
  repeat match goal with
         | H : mkCubePosition _ _ _ = mkCubePosition _ _ _ |- _ =>
             injection H; clear H; intros
         | H : _ \/ _ |- _ => destruct H
         | H : _ /\ _ |- _ => destruct H
         | H : False |- _ => destruct H
         end.

(** X3.  A corner cell has 7 neighbours on FRONT, BACK, LEFT and RIGHT, and 8
    on TOP and BOTTOM (on grids of at least 2 x 2 cells). *)
Theorem getAllNeighbors_at_corners (gridSize : Z) (p : CubePosition) :
  2 <= gridSize -> cornerCell gridSize p ->
  length (getAllNeighbors p gridSize)
  = match face p with TOP | BOTTOM => 8%nat | _ => 7%nat end.
Proof.
  destruct p as [f a b]; unfold cornerCell; cbn [x y face].
  intros Hg [[Ha | Ha] [Hb | Hb]]; subst; destruct f;
    explicitNeighbours; reflexivity.
Qed.

Lemma getAllNeighbors_at_corners_witness :
  length (getAllNeighbors (mkCubePosition LEFT 0 7) 8) = 7%nat.
Proof.
  apply (getAllNeighbors_at_corners 8 (mkCubePosition LEFT 0 7)).
  - lia.
  - unfold cornerCell; simpl; lia.
Defined.

(** ** Symmetry of the neighbour relation *)

Lemma candidate_In p g d q :
  In d NEIGHBOR_DELTAS -> candidate p g d = Some q -> In q (candidates p g).
Proof.
  intros Hd Hq. unfold candidates, candidatesFor. apply in_flat_map.
  exists d. split; [assumption |]. rewrite Hq. now left.
Qed.

Lemma In_candidates p g q :
  In q (candidates p g) ->
  exists d, In d NEIGHBOR_DELTAS /\ candidate p g d = Some q.
Proof.
  unfold candidates, candidatesFor. intros Hq. apply in_flat_map in Hq.
  destruct Hq as [d [Hd Hq]]. exists d. split; [assumption |].
  destruct (candidate p g d) as [n |]; [| destruct Hq].
  destruct Hq as [-> | []]. reflexivity.
Qed.

Lemma candidate_inside p g d :
  In d NEIGHBOR_DELTAS ->
  0 <= x p + dx d < g -> 0 <= y p + dy d < g ->
  candidate p g d = Some (mkCubePosition (face p) (x p + dx d) (y p + dy d)).
Proof.
  intros Hd Hx Hy. unfold candidate.
  destruct ((dx d =? 0) || (dy d =? 0)).
  - rewrite movePosition_eq. zcompare. reflexivity.
  - now apply diagonal_inside.
Qed.

Lemma inside_back p g d :
  validPosition g p -> In d NEIGHBOR_DELTAS ->
  0 <= x p + dx d < g -> 0 <= y p + dy d < g ->
  In p (candidates (mkCubePosition (face p) (x p + dx d) (y p + dy d)) g).
Proof.
  intros [Hx Hy] Hd Hx' Hy'.
  apply candidate_In with (d := mkDelta (- dx d) (- dy d)).
  - simpl in Hd.
    destruct Hd as [<-|[<-|[<-|[<-|[<-|[<-|[<-|[<-|[]]]]]]]]]; simpl; tauto.
  - rewrite candidate_inside; simpl.
    + destruct p; simpl. f_equal. f_equal; lia.
    + simpl in Hd.
      destruct Hd as [<-|[<-|[<-|[<-|[<-|[<-|[<-|[<-|[]]]]]]]]]; simpl; tauto.
    + lia.
    + lia.
Qed.

Ltac computeCandidate :=
  unfold candidate; cbn [dx dy Z.eqb orb];
  diagonalCases; rewrite ?movePosition_eq;
  unfold stepOnNewFace, transformSecondaryDelta, leaveThrough, enterAt,
    getEdgeTransition;
  simpl; resolveTests; simpl; resolveTests; simpl.

Ltac backBy d' :=
  apply candidate_In with (d := d');
  [ simpl; tauto | computeCandidate; f_equal; f_equal; lia ].

Ltac findBack :=
  first [ backBy (mkDelta 0 1) | backBy (mkDelta 0 (-1))
        | backBy (mkDelta (-1) 0) | backBy (mkDelta 1 0)
        | backBy (mkDelta (-1) 1) | backBy (mkDelta 1 1)
        | backBy (mkDelta (-1) (-1)) | backBy (mkDelta 1 (-1)) ].

Lemma crossing_changes_face g p d :
  validPosition g p -> In d unitDeltas ->
  ~ validPosition g (mkCubePosition (face p) (x p + dx d) (y p + dy d)) ->
  face (movePosition p d g) <> face p.
Proof.
  intros Hp Hd Hout.
  destruct (movePosition_reaches_adjacent_face g p d Hp Hd) as [_ [_ [_ Hadj]]].
  specialize (Hadj Hout). intros He. rewrite He in Hadj.
  destruct (face p); simpl in Hadj; intuition discriminate.
Qed.

Lemma stepOnNewFace_face q sd g n :
  stepOnNewFace q sd g = Some n -> face n = face q.
Proof.
  unfold stepOnNewFace. destruct sd as [sd |]; [| discriminate].
  match goal with |- (if ?c then _ else _) = _ -> _ => destruct c end;
    [intros [= <-]; reflexivity | discriminate].
Qed.

Lemma self_neighbour g p :
  2 <= g -> validPosition g p ->
  (In p (candidates p g) <->
   (face p = TOP /\ y p = g - 1 \/ face p = BOTTOM /\ y p = 0) /\
   (x p = 0 \/ x p = g - 1)).
Proof.
  intros Hg Hp. split.
  - intros Hin. apply In_candidates in Hin. destruct Hin as [d [Hd Hq]].
    assert (Hx : x p + dx d < 0 \/ g <= x p + dx d \/ 0 <= x p + dx d < g) by lia.
    assert (Hy : y p + dy d < 0 \/ g <= y p + dy d \/ 0 <= y p + dy d < g) by lia.
    pose proof (NEIGHBOR_DELTAS_unit d Hd) as [Hdx Hdy].
    assert (Hnz : dx d <> 0 \/ dy d <> 0).
    { simpl in Hd.
      destruct Hd as [<-|[<-|[<-|[<-|[<-|[<-|[<-|[<-|[]]]]]]]]]; simpl; lia. }
    destruct (Z.eq_dec (dx d) 0) as [Hx0 | Hx0];
      [| destruct (Z.eq_dec (dy d) 0) as [Hy0 | Hy0]].
    + (* vertical move *)
      exfalso. unfold candidate in Hq.
      rewrite (proj2 (Z.eqb_eq _ _) Hx0) in Hq. simpl in Hq. injection Hq as Hq.
      assert (Hu : In d unitDeltas).
      { destruct d as [a b]; simpl in *; subst a.
        assert (b = 1 \/ b = -1) as [-> | ->] by lia; tauto. }
      now destruct (movePosition_reaches_adjacent_face g p d Hp Hu) as [Hne _].
    + exfalso. unfold candidate in Hq.
      rewrite (proj2 (Z.eqb_eq _ _) Hy0), orb_true_r in Hq. injection Hq as Hq.
      assert (Hu : In d unitDeltas).
      { destruct d as [a b]; simpl in *; subst b.
        assert (a = 1 \/ a = -1) as [-> | ->] by lia; tauto. }
      now destruct (movePosition_reaches_adjacent_face g p d Hp Hu) as [Hne _].
    + (* diagonal *)
      unfold candidate in Hq.
      rewrite (proj2 (Z.eqb_neq _ _) Hx0), (proj2 (Z.eqb_neq _ _) Hy0) in Hq.
      simpl in Hq.
      assert (Hux : In (mkDelta (dx d) 0) unitDeltas)
        by (assert (dx d = 1 \/ dx d = -1) as [-> | ->] by lia; simpl; tauto).
      assert (Huy : In (mkDelta 0 (dy d)) unitDeltas)
        by (assert (dy d = 1 \/ dy d = -1) as [-> | ->] by lia; simpl; tauto).
      destruct Hx as [Hx | [Hx | Hx]], Hy as [Hy | [Hy | Hy]].
      9: { exfalso. rewrite diagonal_inside in Hq by assumption.
           injection Hq as Hq. destruct p; simpl in *. injection Hq; lia. }
      all: try (exfalso; rewrite diagonal_horizontal in Hq by lia;
                apply stepOnNewFace_face in Hq;
                apply (crossing_changes_face g p (mkDelta (dx d) 0) Hp Hux);
                [unfold validPosition; simpl; lia | congruence]).
      all: try (exfalso; rewrite diagonal_vertical in Hq by lia;
                apply stepOnNewFace_face in Hq;
                apply (crossing_changes_face g p (mkDelta 0 (dy d)) Hp Huy);
                [unfold validPosition; simpl; lia | congruence]).
      all: rewrite diagonal_corner in Hq by lia; injection Hq as Hq;
        destruct p as [f a b]; destruct Hp as [Ha Hb]; cbn [x y face] in *;
        simpl in Hd;
        destruct Hd as [<-|[<-|[<-|[<-|[<-|[<-|[<-|[<-|[]]]]]]]]];
        cbn [dx dy] in *; try lia;
        destruct f; revert Hq; rewrite !movePosition_eq;
        unfold leaveThrough, enterAt, getEdgeTransition;
        simpl; resolveTests; simpl; resolveTests; simpl;
        intros [=]; try lia;
        (split; [first [ left; split; [reflexivity | lia]
                       | right; split; [reflexivity | lia] ] | lia]).
  - intros [Hface Hx]. destruct p as [f a b]. cbn [x y face] in *.
    destruct Hp as [Ha Hb]. cbn [x y] in *.
    destruct Hface as [[-> ->] | [-> ->]], Hx as [-> | ->].
    + apply candidate_In with (d := mkDelta (-1) 1); [simpl; tauto |].
      computeCandidate; f_equal; f_equal; lia.
    + apply candidate_In with (d := mkDelta 1 1); [simpl; tauto |].
      computeCandidate; f_equal; f_equal; lia.
    + apply candidate_In with (d := mkDelta (-1) (-1)); [simpl; tauto |].
      computeCandidate; f_equal; f_equal; lia.
    + apply candidate_In with (d := mkDelta 1 (-1)); [simpl; tauto |].
      computeCandidate; f_equal; f_equal; lia.
Qed.

(** X4.  A legal cell is one of its own neighbours exactly when it is one of
    the two back corners of TOP or of BOTTOM (the corners shared with
    BACK), where the diagonal that leaves the face through two edges comes
    back to the cell it started from. *)
Theorem getAllNeighbors_contains_itself (gridSize : Z) (p : CubePosition) :
  2 <= gridSize -> validPosition gridSize p ->
  (In p (getAllNeighbors p gridSize) <->
   (face p = TOP /\ y p = gridSize - 1 \/ face p = BOTTOM /\ y p = 0) /\
   (x p = 0 \/ x p = gridSize - 1)).
Proof.
  intros Hg Hp.
  rewrite (proj1 (proj2 (getAllNeighbors_spec p gridSize)) p).
  now apply self_neighbour.
Qed.

Lemma getAllNeighbors_contains_itself_witness :
  In (mkCubePosition TOP 7 7) (getAllNeighbors (mkCubePosition TOP 7 7) 8).
Proof.
  apply (getAllNeighbors_contains_itself 8 (mkCubePosition TOP 7 7)).
  - lia.
  - unfold validPosition; simpl; lia.
  - simpl. split; [left; split; [reflexivity | lia] | right; lia].
Defined.

Lemma candidates_symmetric g p q :
  2 <= g -> validPosition g p -> In q (candidates p g) ->
  In p (candidates q g) \/ cornerArtifact g p q.
Proof.
  intros Hg Hp Hq. apply In_candidates in Hq. destruct Hq as [d [Hd Hq]].
  assert (Hx : x p + dx d < 0 \/ g <= x p + dx d \/ 0 <= x p + dx d < g) by lia.
  assert (Hy : y p + dy d < 0 \/ g <= y p + dy d \/ 0 <= y p + dy d < g) by lia.
  destruct Hx as [Hx | [Hx | Hx]], Hy as [Hy | [Hy | Hy]].
  9: { rewrite candidate_inside in Hq by assumption. injection Hq as <-.
       left. now apply inside_back. }
  all: destruct p as [f a b]; unfold validPosition in Hp; cbn [x y face] in *;
    destruct Hp as [Ha Hb];
    simpl in Hd;
    destruct Hd as [<-|[<-|[<-|[<-|[<-|[<-|[<-|[<-|[]]]]]]]]]; cbn [dx dy] in *;
    try lia.
  all: destruct f; revert Hq; computeCandidate; intros [= <-].
  all: try (left; findBack).
  all: unfold cornerArtifact; right.
  all: repeat first [ left; split; f_equal; lia | right; split; f_equal; lia | right].
Qed.

Lemma cornerArtifact_one_way g p q :
  2 <= g -> cornerArtifact g p q ->
  In q (candidates p g) /\ ~ In p (candidates q g).
Proof.
  intros Hg Hart.
  assert (Hsmall : g = 2 \/ 3 <= g) by lia.
  destruct Hsmall as [-> | Hg3];
    destruct Hart as [[-> ->] | [[-> ->] | [[-> ->] | [-> ->]]]]; split.
  all: try (apply candidate_In with (d := mkDelta (-1) (-1));
            [simpl; tauto | computeCandidate; f_equal; f_equal; lia]).
  all: try (apply candidate_In with (d := mkDelta 1 (-1));
            [simpl; tauto | computeCandidate; f_equal; f_equal; lia]).
  all: try (apply candidate_In with (d := mkDelta (-1) 1);
            [simpl; tauto | computeCandidate; f_equal; f_equal; lia]).
  all: try (apply candidate_In with (d := mkDelta 1 1);
            [simpl; tauto | computeCandidate; f_equal; f_equal; lia]).
  all: explicitCandidates; cbn [In]; intros Hin; splitFacts;
    try discriminate; lia.
Qed.

(** X5.  The neighbour relation of [getAllNeighbors] is symmetric, except at
    four pairs of cells: whenever [q] is a neighbour of a legal position
    [p], [p] is a neighbour of [q], unless [(p, q)] is one of the four
    pairs of [cornerArtifact]; and at each of those pairs [q] is a
    neighbour of [p] while [p] is not a neighbour of [q]. *)
Theorem getAllNeighbors_symmetric_but_at_corners
  (gridSize : Z) (p q : CubePosition) :
  2 <= gridSize ->
  (validPosition gridSize p -> In q (getAllNeighbors p gridSize) ->
   In p (getAllNeighbors q gridSize) \/ cornerArtifact gridSize p q) /\
  (cornerArtifact gridSize p q ->
   In q (getAllNeighbors p gridSize) /\ ~ In p (getAllNeighbors q gridSize)).
Proof.
  intros Hg. split.
  - intros Hp Hq.
    apply (proj1 (proj2 (getAllNeighbors_spec p gridSize))) in Hq.
    destruct (candidates_symmetric gridSize p q Hg Hp Hq) as [Hback | Hart].
    + left. now apply (proj1 (proj2 (getAllNeighbors_spec q gridSize))).
    + now right.
  - intros Hart.
    destruct (cornerArtifact_one_way gridSize p q Hg Hart) as [Hq Hp].
    split.
    + now apply (proj1 (proj2 (getAllNeighbors_spec p gridSize))).
    + intros Hin. apply Hp.
      now apply (proj1 (proj2 (getAllNeighbors_spec q gridSize))).
Qed.

Lemma getAllNeighbors_symmetric_but_at_corners_witness :
  In (mkCubePosition FRONT 0 7) (getAllNeighbors (mkCubePosition TOP 0 0) 8)
  \/ cornerArtifact 8 (mkCubePosition FRONT 0 7) (mkCubePosition TOP 0 0).
Proof.
  apply (proj1 (getAllNeighbors_symmetric_but_at_corners 8
                  (mkCubePosition FRONT 0 7) (mkCubePosition TOP 0 0)
                  ltac:(lia))).
  - unfold validPosition; simpl; lia.
  - vm_compute; tauto.
Defined.

(** ** Lines *)

Lemma last_default {A : Type} (l : list A) : forall b c d : A,
  last (b :: l) c = last (b :: l) d.
Proof.
  induction l as [| a l IH]; intros b c d; [reflexivity |].
  change (last (a :: l) c = last (a :: l) d). apply IH.
Qed.

Lemma last_cons {A : Type} (a c : A) (l : list A) :
  last (a :: l) c = last l a.
Proof.
  destruct l as [| b l]; [reflexivity |].
  change (last (b :: l) c = last (b :: l) a). apply last_default.
Qed.

Lemma lineFrom_spec start d g : forall steps current positions,
  exists more,
    lineFrom start d g steps current positions = positions ++ more /\
    (length more <= steps)%nat /\
    ~ In start more /\
    stepsFrom d g current more /\
    ((length more < steps)%nat ->
     movePosition (last more current) d g = start).
Proof.
  induction steps as [| steps IH]; intros current positions; simpl.
  - exists []. rewrite app_nil_r. simpl. intuition lia.
  - set (next := movePosition current d g).
    destruct (CubeFace_eqb (face next) (face start) && (x next =? x start)
              && (y next =? y start)) eqn:Hloop.
    + exists []. rewrite app_nil_r. simpl.
      split; [reflexivity |]. split; [lia |]. split; [tauto |].
      split; [exact I |]. intros _. now apply positionsEqual_eq.
    + destruct (IH next (positions ++ [next]))
        as [more [Heq [Hlen [Hstart [Hstep Hstop]]]]].
      exists (next :: more). rewrite Heq, <- app_assoc.
      split; [reflexivity |]. split; [simpl; lia |]. split.
      * intros [Hn | Hn]; [| contradiction].
        assert (He : positionsEqual next start = true)
          by (now apply positionsEqual_eq).
        unfold positionsEqual in He. congruence.
      * split; [split; [reflexivity | exact Hstep] |].
        intros Hl. simpl in Hl.
        rewrite last_cons. apply Hstop. lia.
Qed.

Lemma stepsFrom_valid d g : forall l current,
  validPosition g current -> In d unitDeltas ->
  stepsFrom d g current l -> Forall (validPosition g) l.
Proof.
  induction l as [| q l IH]; intros current Hc Hd Hs; constructor;
    destruct Hs as [-> Hs].
  - now apply movePosition_total.
  - apply (IH (movePosition current d g)); trivial.
    now apply movePosition_total.
Qed.

(** The positions returned by [getLinePositions], read off the loop. *)
Lemma getLinePositions_spec (start : CubePosition) (direction : Delta)
  (gridSize : Z) (maxSteps : option Z) :
  let bound :=
    Z.to_nat (match maxSteps with Some m => m | None => gridSize * 4 end) in
  let line := getLinePositions start direction gridSize maxSteps in
  (length line <= bound)%nat /\
  ~ In start line /\
  stepsFrom direction gridSize start line /\
  ((length line < bound)%nat ->
   movePosition (last line start) direction gridSize = start) /\
  (validPosition gridSize start -> In direction unitDeltas ->
   Forall (validPosition gridSize) line).
Proof.
  unfold getLinePositions. cbv zeta.
  match goal with
  | |- context [lineFrom start direction gridSize ?n start []] =>
      destruct (lineFrom_spec start direction gridSize n start [])
        as [more [Heq [Hlen [Hstart [Hstep Hstop]]]]]
  end.
  simpl in Heq. rewrite Heq.
  repeat split; trivial.
  intros Hs Hd. now apply (stepsFrom_valid direction gridSize more start).
Qed.

(** X6.  [getLinePositions] returns at most [maxSteps] positions ([4 *
    gridSize] by default), each one step further than the one before, the
    first one step after [start]; [start] itself is never one of them.
    When fewer than [maxSteps] positions are returned, the line has come
    back: one more step from the last position leads to [start].  From a
    legal start and with a unit direction every position is legal. *)
Theorem getLinePositions_walks (start : CubePosition) (direction : Delta)
  (gridSize : Z) (maxSteps : option Z) :
  let bound :=
    Z.to_nat (match maxSteps with Some m => m | None => gridSize * 4 end) in
  let line := getLinePositions start direction gridSize maxSteps in
  (length line <= bound)%nat /\
  ~ In start line /\
  stepsFrom direction gridSize start line /\
  ((length line < bound)%nat ->
   movePosition (last line start) direction gridSize = start) /\
  (validPosition gridSize start -> In direction unitDeltas ->
   Forall (validPosition gridSize) line).
Proof. apply getLinePositions_spec. Qed.

Lemma equatorCell_index g p :
  0 < g -> validPosition g p -> lateral (face p) ->
  equatorCell g (y p) (equatorIndex g p) = p /\ 0 <= equatorIndex g p < 4 * g.
Proof.
  destruct p as [f a b]; unfold validPosition, lateral, equatorIndex, equatorCell;
    cbn [face x y]; intros Hg [Ha Hb] Hf.
  assert (Hq : forall k, 0 <= k -> (k * g + a) / g = k /\ (k * g + a) mod g = a).
  { intros k Hk. split.
    - rewrite Z.div_add_l by lia. rewrite Z.div_small by lia. lia.
    - rewrite Z.add_comm, Z.mod_add by lia. now apply Z.mod_small. }
  destruct Hf as [-> | [-> | [-> | ->]]].
  - destruct (Hq 0) as [-> ->]; [lia |]. split; [reflexivity | lia].
  - destruct (Hq 1) as [-> ->]; [lia |]. split; [reflexivity | lia].
  - destruct (Hq 2) as [-> ->]; [lia |]. split; [reflexivity | lia].
  - destruct (Hq 3) as [-> ->]; [lia |]. split; [reflexivity | lia].
Qed.

Lemma equatorCell_cases g n :
  0 < g -> 0 <= n < 4 * g ->
  exists k r, n = k * g + r /\ 0 <= r < g /\ 0 <= k < 4 /\
              n / g = k /\ n mod g = r.
Proof.
  intros Hg Hn. exists (n / g), (n mod g).
  pose proof (Z.div_mod n g ltac:(lia)).
  pose proof (Z.mod_pos_bound n g Hg).
  assert (0 <= n / g) by (apply Z.div_pos; lia).
  assert (n / g < 4) by (apply Z.div_lt_upper_bound; lia).
  repeat split; lia.
Qed.

Lemma equatorCell_inj g row n m :
  0 < g -> 0 <= n < 4 * g -> 0 <= m < 4 * g ->
  equatorCell g row n = equatorCell g row m -> n = m.
Proof.
  intros Hg Hn Hm. unfold equatorCell.
  destruct (equatorCell_cases g n Hg Hn) as [k [r [-> [Hr [Hk [-> ->]]]]]].
  destruct (equatorCell_cases g m Hg Hm) as [k' [r' [-> [Hr' [Hk' [-> ->]]]]]].
  assert (Hks : k = 0 \/ k = 1 \/ k = 2 \/ k = 3) by lia.
  assert (Hks' : k' = 0 \/ k' = 1 \/ k' = 2 \/ k' = 3) by lia.
  destruct Hks as [-> | [-> | [-> | ->]]], Hks' as [-> | [-> | [-> | ->]]];
    simpl; intros [=]; lia.
Qed.

Ltac quotient g v k' r' :=
  let Hv := fresh "Hv" in
  assert (Hv : v / g = k' /\ v mod g = r');
  [ replace v with (k' * g + r') by lia;
    match goal with Hq : forall _ _, _ -> _ -> _ /\ _ |- _ => apply Hq end; lia
  | destruct Hv as [-> ->]; simpl; f_equal; lia ].

Lemma equator_step g row n s :
  0 < g -> 0 <= row < g -> 0 <= n < 4 * g -> s = 1 \/ s = -1 ->
  movePosition (equatorCell g row n) (mkDelta s 0) g
  = equatorCell g row ((n + s) mod (4 * g)).
Proof.
  intros Hg Hrow Hn Hs.
  destruct (equatorCell_cases g n Hg Hn) as [k [r [Hnk [Hr [Hk [Hdiv Hmod]]]]]].
  assert (Hwrap : (n + s) mod (4 * g)
                  = if n + s <? 0 then 4 * g - 1
                    else if n + s >=? 4 * g then 0 else n + s).
  { rewrite Z.geb_leb.
    destruct (Z.ltb_spec (n + s) 0); [| destruct (Z.leb_spec (4 * g) (n + s))].
    - replace (n + s) with (4 * g - 1 + (-1) * (4 * g)) by lia.
      rewrite Z.mod_add by lia. apply Z.mod_small; lia.
    - replace (n + s) with (0 + 1 * (4 * g)) by lia.
      rewrite Z.mod_add by lia. apply Z.mod_small; lia.
    - apply Z.mod_small; lia. }
  rewrite Hwrap. clear Hwrap.
  remember (4 * g) as G4 eqn:HG4.
  assert (Hq : forall k' r', 0 <= r' < g -> 0 <= k' ->
            (k' * g + r') / g = k' /\ (k' * g + r') mod g = r').
  { intros k' r' Hr' Hk'. split.
    - rewrite Z.div_add_l by lia. rewrite Z.div_small by lia. lia.
    - rewrite Z.add_comm, Z.mod_add by lia. now apply Z.mod_small. }
  unfold equatorCell at 1. rewrite Hdiv, Hmod.
  rewrite movePosition_eq. cbn [x y dx dy face].
  assert (Hks : k = 0 \/ k = 1 \/ k = 2 \/ k = 3) by lia.
  unfold equatorCell.
  rewrite !Z.geb_leb.
  destruct Hs as [-> | ->].
  - (* step right *)
    destruct (Z.eq_dec r (g - 1)) as [Hlast | Hlast].
    + destruct Hks as [-> | [-> | [-> | ->]]]; zcompare;
        unfold leaveThrough, enterAt; simpl.
      * quotient g (n + 1) 1 0.
      * quotient g (n + 1) 2 0.
      * quotient g (n + 1) 3 0.
      * f_equal; lia.
    + zcompare. quotient g (n + 1) k (r + 1).
  - (* step left *)
    destruct (Z.eq_dec r 0) as [Hfirst | Hfirst].
    + destruct Hks as [-> | [-> | [-> | ->]]]; zcompare;
        unfold leaveThrough, enterAt; simpl.
      * quotient g (G4 - 1) 3 (g - 1).
      * quotient g (n + -1) 0 (g - 1).
      * quotient g (n + -1) 1 (g - 1).
      * quotient g (n + -1) 2 (g - 1).
    + zcompare. quotient g (n + -1) k (r - 1).
Qed.

Section Equator.

Variables (g row n0 s : Z).
Hypothesis Hg : 0 < g.
Hypothesis Hrow : 0 <= row < g.
Hypothesis Hn0 : 0 <= n0 < 4 * g.
Hypothesis Hs : s = 1 \/ s = -1.


Lemma visited_step i :
  movePosition (equatorVisit g row n0 s i) (mkDelta s 0) g = equatorVisit g row n0 s (i + 1).
Proof.
  unfold equatorVisit. rewrite equator_step; trivial.
  - f_equal. rewrite Z.add_mod_idemp_l by lia. f_equal. lia.
  - apply Z.mod_pos_bound. lia.
Qed.

Lemma visited_inj i j :
  0 <= i < 4 * g -> 0 <= j < 4 * g -> equatorVisit g row n0 s i = equatorVisit g row n0 s j -> i = j.
Proof.
  intros Hi Hj He. unfold equatorVisit in He.
  apply equatorCell_inj in He; trivial; try (apply Z.mod_pos_bound; lia).
  assert (Hd : (s * (i - j)) mod (4 * g) = 0).
  { replace (s * (i - j)) with ((n0 + s * i) - (n0 + s * j)) by lia.
    rewrite Zminus_mod, He, Z.sub_diag. apply Z.mod_0_l. lia. }
  apply Z.mod_divide in Hd; [| lia]. destruct Hd as [c Hc].
  assert (Hc0 : c = 0 \/ 1 <= c \/ c <= -1) by lia.
  destruct Hs as [-> | ->], Hc0 as [-> | [Hc0 | Hc0]]; nia.
Qed.

Lemma lineFrom_equator : forall steps positions,
  (1 <= steps)%nat -> Z.of_nat steps <= 4 * g ->
  lineFrom (equatorVisit g row n0 s 0) (mkDelta s 0) g steps
    (equatorVisit g row n0 s (4 * g - Z.of_nat steps)) positions
  = positions
    ++ map (fun i => equatorVisit g row n0 s (4 * g - Z.of_nat steps + 1 + Z.of_nat i))
         (seq 0 (steps - 1)).
Proof.
  induction steps as [| steps IH]; intros positions Hs1 Hs4; [lia |].
  cbn [lineFrom]. rewrite visited_step.
  set (next := equatorVisit g row n0 s (4 * g - Z.of_nat (S steps) + 1)).
  destruct (CubeFace_eqb (face next) (face (equatorVisit g row n0 s 0))
            && (x next =? x (equatorVisit g row n0 s 0)) && (y next =? y (equatorVisit g row n0 s 0)))
    eqn:Hloop.
  - change (positionsEqual next (equatorVisit g row n0 s 0) = true) in Hloop.
    apply positionsEqual_eq in Hloop. unfold next in Hloop.
    destruct steps as [| steps].
    + simpl. now rewrite app_nil_r.
    + exfalso.
      assert (Hw : equatorVisit g row n0 s (4 * g - Z.of_nat (S (S steps)) + 1)
                   = equatorVisit g row n0 s 0)
        by exact Hloop.
      apply visited_inj in Hw; lia.
  - destruct steps as [| steps].
    + exfalso.
      assert (Hw : positionsEqual next (equatorVisit g row n0 s 0) = true).
      { apply positionsEqual_eq. unfold next, equatorVisit.
        f_equal. replace (n0 + s * (4 * g - Z.of_nat 1 + 1))
          with (n0 + s * 0 + s * (4 * g)) by lia.
        now rewrite Z.mod_add by lia. }
      unfold positionsEqual in Hw. congruence.
    + subst next.
      replace (4 * g - Z.of_nat (S (S steps)) + 1)
        with (4 * g - Z.of_nat (S steps)) by lia.
      rewrite IH by lia.
      rewrite <- app_assoc. f_equal.
      replace (S (S steps) - 1)%nat with (S (S steps - 1)) by lia.
      cbn [seq map app]. f_equal.
      * f_equal. lia.
      * rewrite <- seq_shift, map_map. apply map_ext. intros i. f_equal. lia.
Qed.

Lemma lateral_visited i :
  lateral (face (equatorVisit g row n0 s i))
  /\ y (equatorVisit g row n0 s i) = row.
Proof.
  unfold equatorVisit, equatorCell. cbn [face y]. split; [| reflexivity].
  assert (Hm : 0 <= (n0 + s * i) mod (4 * g) < 4 * g)
    by (apply Z.mod_pos_bound; lia).
  destruct (equatorCell_cases g _ Hg Hm) as [k [r [_ [_ [Hk [-> _]]]]]].
  assert (Hks : k = 0 \/ k = 1 \/ k = 2 \/ k = 3) by lia.
  unfold lateral. destruct Hks as [-> | [-> | [-> | ->]]]; simpl; tauto.
Qed.

End Equator.

Lemma NoDup_map_on {A B : Type} (f : A -> B) (l : list A) :
  (forall a b, In a l -> In b l -> f a = f b -> a = b) ->
  NoDup l -> NoDup (map f l).
Proof.
  induction l as [| a l IH]; intros Hinj Hnd; simpl; constructor.
  - intros Hin. apply in_map_iff in Hin. destruct Hin as [b [Hb Hbl]].
    apply NoDup_cons_iff in Hnd. destruct Hnd as [Ha _]. apply Ha.
    rewrite (Hinj a b); simpl; auto.
  - apply IH.
    + intros x y Hx Hy. apply Hinj; simpl; auto.
    + now apply NoDup_cons_iff in Hnd.
Qed.

(** X7.  A horizontal line from a cell of a lateral face goes once round the
    cube: with the default bound, [getLinePositions] in direction
    [(1, 0)] or [(-1, 0)] returns the [4 * gridSize - 1] other cells of
    the row of [start] on the four lateral faces, each once ([4 * gridSize
    - 1] legal positions of that row, none of them [start], no two of them
    the same), and one more step from the last of them leads back to
    [start]. *)
Theorem getLinePositions_round_the_equator
  (gridSize : Z) (start : CubePosition) (s : Z) :
  0 < gridSize -> validPosition gridSize start -> lateral (face start) ->
  s = 1 \/ s = -1 ->
  let line := getLinePositions start (mkDelta s 0) gridSize None in
  length line = Z.to_nat (4 * gridSize - 1) /\
  NoDup line /\
  ~ In start line /\
  Forall (fun q => validPosition gridSize q /\ lateral (face q) /\
                   y q = y start) line /\
  movePosition (last line start) (mkDelta s 0) gridSize = start.
Proof.
  intros Hg Hstart Hlat Hs line.
  destruct (equatorCell_index gridSize start Hg Hstart Hlat) as [Hcell Hn0].
  set (n0 := equatorIndex gridSize start) in *.
  set (row := y start) in *.
  assert (Hrow : 0 <= row < gridSize) by (destruct Hstart; assumption).
  assert (Hzero : forall i, i = 0 ->
            equatorVisit gridSize row n0 s i = start).
  { intros i ->. unfold equatorVisit.
    rewrite Z.mul_0_r, Z.add_0_r, Z.mod_small by lia. exact Hcell. }
  assert (Hline : line
            = map (fun i => equatorVisit gridSize row n0 s (1 + Z.of_nat i))
                (seq 0 (Z.to_nat (gridSize * 4) - 1))).
  { unfold line, getLinePositions.
    assert (Heq := fun H1 H2 H3 H4 =>
      lineFrom_equator gridSize row n0 s H1 H2 H3 H4
        (Z.to_nat (gridSize * 4)) []).
    specialize (Heq Hg Hrow Hn0 Hs).
    rewrite (Hzero 0 eq_refl) in Heq.
    rewrite (Hzero (4 * gridSize - Z.of_nat (Z.to_nat (gridSize * 4)))) in Heq
      by lia.
    rewrite Heq by lia. cbn [app]. apply map_ext. intros i. f_equal. lia. }
  assert (Hlen : length line = Z.to_nat (4 * gridSize - 1)).
  { rewrite Hline, length_map, length_seq. lia. }
  destruct (getLinePositions_spec start (mkDelta s 0) gridSize None)
    as [_ [Hnotin [_ [Hback Hlegal]]]].
  fold line in Hnotin, Hback, Hlegal.
  assert (Hunit : In (mkDelta s 0) unitDeltas)
    by (destruct Hs as [-> | ->]; simpl; tauto).
  specialize (Hlegal Hstart Hunit). rewrite Forall_forall in Hlegal.
  split; [exact Hlen |]. split; [| split; [exact Hnotin | split]].
  - rewrite Hline. apply NoDup_map_on; [| apply seq_NoDup].
    intros a b Ha Hb He. apply in_seq in Ha, Hb.
    apply visited_inj in He; trivial; lia.
  - apply Forall_forall. intros q Hq. split; [now apply Hlegal |].
    rewrite Hline in Hq.
    apply in_map_iff in Hq. destruct Hq as [i [<- _]].
    apply lateral_visited; trivial.
  - apply Hback. rewrite Hlen. lia.
Qed.

Lemma getLinePositions_round_the_equator_witness :
  let line := getLinePositions (mkCubePosition BACK 2 5) (mkDelta 1 0) 8 None in
  length line = Z.to_nat (4 * 8 - 1) /\
  NoDup line /\
  ~ In (mkCubePosition BACK 2 5) line /\
  Forall (fun q => validPosition 8 q /\ lateral (face q) /\ y q = 5) line /\
  movePosition (last line (mkCubePosition BACK 2 5)) (mkDelta 1 0) 8
  = mkCubePosition BACK 2 5.
Proof.
  apply (getLinePositions_round_the_equator 8 (mkCubePosition BACK 2 5) 1).
  - lia.
  - unfold validPosition; simpl; lia.
  - unfold lateral; simpl; tauto.
  - now left.
Defined.

Lemma lineFrom_follow start d g (v : Z -> CubePosition) :
  (forall i, 0 <= i -> movePosition (v i) d g = v (i + 1)) ->
  (forall i, 1 <= i -> v i <> start) ->
  forall steps k positions, 0 <= k ->
    lineFrom start d g steps (v k) positions
    = positions ++ map (fun j => v (k + 1 + Z.of_nat j)) (seq 0 steps).
Proof.
  intros Hstep Hstart.
  induction steps as [| steps IH]; intros k positions Hk; cbn [lineFrom].
  - simpl. now rewrite app_nil_r.
  - rewrite Hstep by assumption.
    destruct (CubeFace_eqb (face (v (k + 1))) (face start)
              && (x (v (k + 1)) =? x start) && (y (v (k + 1)) =? y start))
      eqn:Hloop.
    + change (positionsEqual (v (k + 1)) start = true) in Hloop.
      apply positionsEqual_eq in Hloop. exfalso.
      apply (Hstart (k + 1)); [lia | assumption].
    + rewrite IH by lia. rewrite <- app_assoc. f_equal.
      cbn [seq map app]. f_equal.
      * f_equal. lia.
      * rewrite <- seq_shift, map_map. apply map_ext. intros j. f_equal. lia.
Qed.

Lemma climb_step g x0 y0 i :
  0 <= x0 < g -> 0 <= y0 < g -> 0 <= i ->
  movePosition (climbFromFront g x0 y0 i) (mkDelta 0 1) g
  = climbFromFront g x0 y0 (i + 1).
Proof.
  intros Hx Hy Hi. unfold climbFromFront.
  rewrite movePosition_eq.
  destruct (Z.leb_spec i (g - 1 - y0)); [| destruct (Z.leb_spec i (g + g - 1 - y0))].
  - cbn [x y dx dy face]. zcompare; unfold leaveThrough, enterAt; simpl;
      f_equal; lia.
  - cbn [x y dx dy face]. zcompare.
    + unfold leaveThrough, enterAt; simpl.
      replace (i + 1 - (g + g - y0)) with 0 by lia. simpl. f_equal; lia.
    + f_equal; lia.
  - replace (i + 1 - (g + g - y0)) with (Z.succ (i - (g + g - y0))) by lia.
    rewrite Z.even_succ, <- Z.negb_even.
    destruct (Z.even (i - (g + g - y0))); cbn [x y dx dy face negb];
      zcompare; unfold leaveThrough, enterAt; simpl; f_equal; lia.
Qed.

Lemma climb_away g x0 y0 i :
  0 <= y0 < g -> 1 <= i ->
  climbFromFront g x0 y0 i <> mkCubePosition FRONT x0 y0.
Proof.
  intros Hy Hi. unfold climbFromFront.
  destruct (Z.leb_spec i (g - 1 - y0)); [intros [=]; lia |].
  destruct (Z.leb_spec i (g + g - 1 - y0)); [discriminate |].
  destruct (Z.even _); discriminate.
Qed.

(** X8.  A vertical line does not go round the cube.  From a cell of FRONT,
    [getLinePositions] in direction [(0, 1)] with the default bound
    does not come back to [start]: it returns [4 * gridSize] positions,
    as many as the bound allows, and from index [2 * gridSize - 1 - y]
    on each of them is one of the two cells on either side of the edge
    between TOP and BACK, TOP [(x, gridSize - 1)] and BACK
    [(gridSize - 1 - x, gridSize - 1)]. *)
Theorem getLinePositions_vertical_never_returns
  (gridSize : Z) (start : CubePosition) :
  validPosition gridSize start -> face start = FRONT ->
  let line := getLinePositions start (mkDelta 0 1) gridSize None in
  length line = Z.to_nat (4 * gridSize) /\
  Forall (fun q =>
            q = mkCubePosition BACK (gridSize - 1 - x start) (gridSize - 1)
            \/ q = mkCubePosition TOP (x start) (gridSize - 1))
    (skipn (Z.to_nat (2 * gridSize - 1 - y start)) line).
Proof.
  destruct start as [f x0 y0]; unfold validPosition; cbn [face x y].
  intros [Hx Hy] ->.
  set (line := getLinePositions _ _ _ _).
  assert (Hline : line
            = map (fun j => climbFromFront gridSize x0 y0 (0 + 1 + Z.of_nat j))
                (seq 0 (Z.to_nat (gridSize * 4)))).
  { unfold line, getLinePositions.
    assert (H0 : mkCubePosition FRONT x0 y0 = climbFromFront gridSize x0 y0 0).
    { unfold climbFromFront. zcompare. f_equal; lia. }
    rewrite H0 at 2.
    rewrite (lineFrom_follow _ _ _ (climbFromFront gridSize x0 y0)); trivial.
    - intros i Hi. now apply climb_step.
    - intros i Hi. now apply climb_away.
    - lia. }
  split.
  - rewrite Hline, length_map, length_seq. f_equal. lia.
  - rewrite Hline, skipn_map, skipn_seq. apply Forall_forall. intros q Hq.
    apply in_map_iff in Hq. destruct Hq as [j [<- Hj]].
    apply in_seq in Hj.
    unfold climbFromFront. zcompare.
    destruct (Z.even _); [now left | now right].
Qed.

Lemma getLinePositions_vertical_never_returns_witness :
  let line := getLinePositions (mkCubePosition FRONT 3 4) (mkDelta 0 1) 8 None in
  length line = Z.to_nat (4 * 8) /\
  Forall (fun q =>
            q = mkCubePosition BACK (8 - 1 - 3) (8 - 1)
            \/ q = mkCubePosition TOP 3 (8 - 1))
    (skipn (Z.to_nat (2 * 8 - 1 - 4)) line).
Proof.
  apply (getLinePositions_vertical_never_returns 8 (mkCubePosition FRONT 3 4)).
  - unfold validPosition; simpl; lia.
  - reflexivity.
Defined.

(** ** Keys *)

Lemma numberToString_negative n :
  n < 0 -> exists digits, numberToString n = String "-" digits.
Proof.
  intros Hn. destruct n as [| q | q]; try lia.
  unfold numberToString. simpl. eauto.
Qed.

Lemma splitDash_nonempty s : exists piece pieces, splitDash s = piece :: pieces.
Proof.
  induction s as [| c s [piece [pieces IH]]]; simpl; [eauto |].
  destruct (Ascii.eqb c "-"); [eauto |]. rewrite IH. eauto.
Qed.

Lemma splitDash_posKey f rest :
  splitDash (CubeFace_value f ++ String "-" rest)
  = CubeFace_value f :: splitDash rest.
Proof.
  destruct f; simpl; destruct (splitDash_nonempty rest) as [a [b ->]];
    reflexivity.
Qed.

Lemma parseKey_negative p :
  x p < 0 \/ y p < 0 -> parseKey (posKey p) = None.
Proof.
  destruct p as [f a b]; cbn [x y]. intros Hneg.
  unfold parseKey, posKey; cbn [face x y].
  change (CubeFace_value f ++ "-" ++ numberToString a ++ "-" ++ numberToString b)%string
    with (CubeFace_value f ++ String "-" (numberToString a ++ String "-" (numberToString b)))%string.
  rewrite splitDash_posKey.
  destruct (Z.ltb_spec a 0) as [Ha | Ha].
  - destruct (numberToString_negative a Ha) as [digits ->].
    cbn [append splitDash Ascii.eqb Bool.eqb].
    destruct (splitDash_nonempty (digits ++ String "-" (numberToString b)))
      as [c [cs ->]].
    destruct (CubeFace_of_value (CubeFace_value f)); reflexivity.
  - destruct Hneg as [Hneg | Hb]; [lia |].
    destruct (numberToString_nonneg a Ha) as [Da _].
    rewrite splitDash_append by assumption.
    destruct (numberToString_negative b Hb) as [digits ->].
    cbn [splitDash Ascii.eqb Bool.eqb].
    destruct (CubeFace_of_value (CubeFace_value f)); [| reflexivity].
    destruct (parseInt (numberToString a)); reflexivity.
Qed.

(** X9.  Different positions have different keys, whatever their (integer)
    coordinates: two positions with the same key are the same position,
    so a [Set] or [Map] keyed by [posKey] identifies positions exactly as
    [positionsEqual] does. *)
Theorem posKey_identifies_positions (p q : CubePosition) :
  (posKey p = posKey q <-> p = q) /\
  String.eqb (posKey p) (posKey q) = positionsEqual p q.
Proof.
  split; [split; [apply posKey_inj | now intros ->] | apply posKey_eqb].
Qed.

(** X10.  [parseKey] reads the key of a position back exactly when both
    coordinates are non-negative; for a negative coordinate the key has
    an empty piece, which [parseInt] cannot read. *)
Theorem parseKey_reads_posKey_back (p : CubePosition) :
  (0 <= x p /\ 0 <= y p -> parseKey (posKey p) = Some p) /\
  (x p < 0 \/ y p < 0 -> parseKey (posKey p) = None).
Proof.
  split.
  - intros [Hx Hy]. now apply parseKey_posKey.
  - apply parseKey_negative.
Qed.

(** ** Rotation offsets *)

(** X11.  The rotation offsets of a transition and of the transition back
    cancel: their sum is a multiple of 360 degrees. *)
Theorem transition_rotations_cancel (f : CubeFace) (e : EdgeDirection) :
  exists t,
    getEdgeTransition f e = Some t /\
    getTransitionRotation f e = rotationOffset t /\
    (getTransitionRotation f e
     + getTransitionRotation (toFace t) (toEdge t)) mod 360 = 0.
Proof.
  destruct f, e; eexists; (split; [reflexivity | split; reflexivity]).
Qed.

(* ===================================================================== *)
(** * Further properties of Snake *)
(* ===================================================================== *)

Lemma removelast_cons {A : Type} (a b : A) (l : list A) :
  removelast (a :: b :: l) = a :: removelast (b :: l).
Proof. reflexivity. Qed.

Lemma In_removelast {A : Type} (l : list A) (a : A) :
  In a (removelast l) -> In a l.
Proof.
  induction l as [| b l IH]; simpl; [tauto |].
  destruct l as [| c l]; [intros [] |].
  intros [-> | Hin]; [now left | right; now apply IH].
Qed.

Lemma NoDup_removelast {A : Type} (l : list A) :
  NoDup l -> NoDup (removelast l).
Proof.
  induction l as [| b l IH]; simpl; trivial.
  destruct l as [| c l]; [intros _; constructor |].
  intros Hnd. apply NoDup_cons_iff in Hnd. destruct Hnd as [Hb Hnd].
  constructor; [| now apply IH].
  intros Hin. apply Hb. now apply In_removelast.
Qed.

Section SnakeFacts.

Variable CameraUp : Type.
Variable transformDirectionAcrossEdge :
  CubeFace -> Snake.SnakeDirection -> CameraUp -> Snake.SnakeDirection.
Variable rotateCameraUp : CubeFace -> CubeFace -> CameraUp -> CameraUp.

Lemma DIRECTION_DELTAS_unit d : In (Snake.DIRECTION_DELTAS d) unitDeltas.
Proof. destruct d; simpl; tauto. Qed.

(** X12.  A move that does not run into the body keeps the snake in one piece
    on the grid: in a state that is neither paused nor over, whose
    segments are legal positions, no two of them the same, when the new
    head is none of the segments, the [move] action returns a state that
    is not over, whose snake is the new head followed by the old snake,
    without its last segment unless the head landed on the food; the
    segments are still legal and still pairwise different, and the score
    grows by 10 exactly when the food is eaten. *)
Theorem snake_move_keeps_snake_simple
  (rnd : RandomSource) (state : Snake.SnakeGameState CameraUp)
  (head : CubePosition) (body : list CubePosition) :
  Snake.snake state = head :: body ->
  Snake.isPaused state = false ->
  Snake.isGameOver state = false ->
  NoDup (Snake.snake state) ->
  Forall (validPosition (Snake.gridSize state)) (Snake.snake state) ->
  ~ In (Snake.nextHead state head) (Snake.snake state) ->
  exists state',
    Snake.applyAction transformDirectionAcrossEdge rotateCameraUp rnd state
      Snake.Move = Some state' /\
    Snake.isGameOver state' = false /\
    Snake.gridSize state' = Snake.gridSize state /\
    Snake.snake state'
    = Snake.nextHead state head
        :: (if positionsEqual (Snake.nextHead state head) (Snake.food state)
            then Snake.snake state else removelast (Snake.snake state)) /\
    Snake.score state'
    = (if positionsEqual (Snake.nextHead state head) (Snake.food state)
       then Snake.score state + 10 else Snake.score state) /\
    NoDup (Snake.snake state') /\
    Forall (validPosition (Snake.gridSize state')) (Snake.snake state').
Proof.
  intros Hsnake Hpaused Hover Hnd Hvalid Hfree.
  assert (Hmiss : Snake.occupies (Snake.snake state) (Snake.nextHead state head)
                  = false).
  { destruct (Snake.occupies _ _) eqn:Ho; trivial.
    apply occupies_In in Ho. contradiction. }
  assert (Hhead : validPosition (Snake.gridSize state) (Snake.nextHead state head)).
  { unfold Snake.nextHead. apply movePosition_total.
    - rewrite Hsnake in Hvalid. now apply Forall_inv in Hvalid.
    - apply DIRECTION_DELTAS_unit. }
  unfold Snake.applyAction, Snake.moveSnake.
  rewrite Hpaused, Hover, Hsnake. simpl orb. cbv iota zeta.
  unfold Snake.nextHead in *. rewrite Hsnake in Hmiss, Hfree, Hnd, Hvalid.
  rewrite Hmiss.
  eexists. split; [reflexivity |].
  cbn [Snake.isGameOver Snake.snake Snake.score Snake.gridSize].
  split; [reflexivity |]. split; [reflexivity |].
  destruct (positionsEqual _ (Snake.food state)) eqn:Heat.
  - split; [reflexivity |]. split; [reflexivity |]. split.
    + now constructor.
    + now constructor.
  - split.
    { destruct body; reflexivity. }
    split; [reflexivity |]. split.
    + change (removelast (?h :: head :: body))
        with (h :: removelast (head :: body)).
      constructor; [| now apply NoDup_removelast].
      intros Hin. apply Hfree. now apply In_removelast.
    + change (removelast (?h :: head :: body))
        with (h :: removelast (head :: body)).
      constructor; [assumption |].
      apply Forall_forall. intros q Hq. apply In_removelast in Hq.
      revert q Hq. now apply Forall_forall.
Qed.

End SnakeFacts.

Lemma snake_move_keeps_snake_simple_witness :
  exists state',
    Snake.applyAction (fun _ d (_ : unit) => d) (fun _ _ u => u) (fun _ => O)
      snakeAtFood Snake.Move = Some state' /\
    Snake.isGameOver state' = false /\
    Snake.gridSize state' = Snake.gridSize snakeAtFood /\
    Snake.snake state'
    = Snake.nextHead snakeAtFood (mkCubePosition FRONT 4 4)
        :: (if positionsEqual
                 (Snake.nextHead snakeAtFood (mkCubePosition FRONT 4 4))
                 (Snake.food snakeAtFood)
            then Snake.snake snakeAtFood
            else removelast (Snake.snake snakeAtFood)) /\
    Snake.score state'
    = (if positionsEqual
            (Snake.nextHead snakeAtFood (mkCubePosition FRONT 4 4))
            (Snake.food snakeAtFood)
       then Snake.score snakeAtFood + 10 else Snake.score snakeAtFood) /\
    NoDup (Snake.snake state') /\
    Forall (validPosition (Snake.gridSize state')) (Snake.snake state').
Proof.
  apply (snake_move_keeps_snake_simple unit (fun _ d _ => d) (fun _ _ u => u)
           (fun _ => O) snakeAtFood (mkCubePosition FRONT 4 4)
           [mkCubePosition FRONT 3 4; mkCubePosition FRONT 2 4]).
  - reflexivity.
  - reflexivity.
  - reflexivity.
  - simpl. repeat constructor; simpl; intuition discriminate.
  - simpl. repeat constructor; simpl; lia.
  - simpl. intuition discriminate.
Defined.
Lemma drawPosition_valid rnd k :
  validPosition (Z.of_nat Snake.classGridSize) (Snake.drawPosition rnd k).
Proof.
  unfold Snake.drawPosition, validPosition, randomBelow, Snake.classGridSize.
  cbn [x y].
  pose proof (Nat.mod_upper_bound (rnd (k + 1)%nat) 8 ltac:(lia)).
  pose proof (Nat.mod_upper_bound (rnd (k + 2)%nat) 8 ltac:(lia)).
  lia.
Qed.

Lemma spawnFoodFrom_spec rnd snake : forall more k,
  validPosition (Z.of_nat Snake.classGridSize)
    (Snake.spawnFoodFrom rnd k snake more) /\
  (Snake.occupies snake (Snake.spawnFoodFrom rnd k snake more) = true ->
   forall i, (i <= more)%nat ->
     Snake.occupies snake (Snake.drawPosition rnd (k + 3 * i)) = true) /\
  exists i, (i <= more)%nat /\
    Snake.spawnFoodFrom rnd k snake more = Snake.drawPosition rnd (k + 3 * i).
Proof.
  induction more as [| more IH]; intros k; cbn [Snake.spawnFoodFrom].
  - split; [apply drawPosition_valid |]. split.
    + intros Ho i Hi. replace i with O by lia. now rewrite Nat.add_0_r.
    + exists O. split; [lia | now rewrite Nat.add_0_r].
  - destruct (Snake.occupies snake (Snake.drawPosition rnd k)) eqn:Hhit.
    + destruct (IH (k + 3)%nat) as [Hv [Hall [i [Hi Heq]]]].
      split; [exact Hv |]. split.
      * intros Ho [| j] Hj; [now rewrite Nat.add_0_r |].
        replace (k + 3 * S j)%nat with (k + 3 + 3 * j)%nat by lia.
        apply Hall; [assumption | lia].
      * exists (S i). split; [lia |]. rewrite Heq. f_equal. lia.
    + split; [apply drawPosition_valid |]. split.
      * intros Ho. congruence.
      * exists O. split; [lia | now rewrite Nat.add_0_r].
Qed.

(** X13.  [spawnFood] always returns a position of the 8 x 8 grid of the class,
    the one drawn at one of its (at most 1000) attempts; the position is
    on the snake only if each of the 1000 attempts drew a cell of the
    snake. *)
Theorem spawnFood_lands_off_the_snake
  (rnd : RandomSource) (snake : list CubePosition) :
  validPosition 8 (Snake.spawnFood rnd snake) /\
  (exists i, (i < 1000)%nat /\
     Snake.spawnFood rnd snake = Snake.drawPosition rnd (3 * i)) /\
  (In (Snake.spawnFood rnd snake) snake ->
   forall i, (i < 1000)%nat -> In (Snake.drawPosition rnd (3 * i)) snake).
Proof.
  unfold Snake.spawnFood.
  destruct (spawnFoodFrom_spec rnd snake 999 0) as [Hv [Hall [i [Hi Heq]]]].
  split; [exact Hv |]. split.
  - exists i. split; [lia | exact Heq].
  - intros Hin j Hj. apply occupies_In. apply (Hall (proj2 (occupies_In _ _) Hin) j).
    lia.
Qed.

Section SnakeRules.

Variable CameraUp : Type.
Variable transformDirectionAcrossEdge :
  CubeFace -> Snake.SnakeDirection -> CameraUp -> Snake.SnakeDirection.
Variable rotateCameraUp : CubeFace -> CubeFace -> CameraUp -> CameraUp.

(** The speed follows the score.  After a [move] that is applied and does
    not end the game, the delay between moves is 200 ms minus 20 ms for
    every 50 points of the new score, and never less than 80 ms: it lies
    between 80 and 200 for a non-negative score, it is 200 below 50
    points and 80 from 300 points on. *)
Theorem snake_speed_follows_score
  (rnd : RandomSource) (state state' : Snake.SnakeGameState CameraUp) :
  Snake.isPaused state = false ->
  Snake.isGameOver state = false ->
  Snake.applyAction transformDirectionAcrossEdge rotateCameraUp rnd state
    Snake.Move = Some state' ->
  Snake.isGameOver state' = false ->
  0 <= Snake.score state ->
  Snake.score state <= Snake.score state' /\
  Snake.speed state' = Z.max 80 (200 - Snake.score state' / 50 * 20) /\
  80 <= Snake.speed state' <= 200 /\
  (Snake.score state' < 50 -> Snake.speed state' = 200) /\
  (300 <= Snake.score state' -> Snake.speed state' = 80).
Proof.
  intros Hpaused Hover Hmove Hlive Hscore.
  unfold Snake.applyAction, Snake.moveSnake in Hmove.
  rewrite Hpaused, Hover in Hmove. cbn [orb] in Hmove.
  destruct (Snake.snake state) as [| head body]; [discriminate |].
  cbv zeta in Hmove.
  destruct (Snake.occupies _ _).
  - apply some_eq in Hmove. subst state'. discriminate Hlive.
  - apply some_eq in Hmove. subst state'.
    cbn [Snake.score Snake.speed].
    set (s' := if positionsEqual _ _ then Snake.score state + 10
               else Snake.score state).
    assert (Hs' : Snake.score state <= s')
      by (unfold s'; destruct (positionsEqual _ _); lia).
    split; [exact Hs' |]. split; [reflexivity |].
    assert (Hq : 0 <= s' / 50) by (apply Z.div_pos; lia).
    split; [lia |]. split.
    + intros Hlt. rewrite Z.div_small by lia. reflexivity.
    + intros Hge.
      assert (6 <= s' / 50) by (apply Z.div_le_lower_bound; lia). lia.
Qed.

(** X14.  Every action listed by [getValidActions] is accepted by
    [isValidAction].  The list leaves out some accepted actions: [pause]
    once the game is over or paused, [resume] while the game runs, and
    the changes of direction of a paused game. *)
Theorem snake_getValidActions_sound
  (state : Snake.SnakeGameState CameraUp) (action : Snake.SnakeAction) :
  (In action (Snake.getValidActions state) ->
   Snake.isValidAction state action = true) /\
  (Snake.isValidAction state action = true ->
   In action (Snake.getValidActions state)
   \/ (action = Snake.Pause
       /\ (Snake.isGameOver state = true \/ Snake.isPaused state = true))
   \/ (action = Snake.Resume
       /\ Snake.isGameOver state = false /\ Snake.isPaused state = false)
   \/ (exists d, action = Snake.ChangeDirection d
       /\ Snake.isGameOver state = false /\ Snake.isPaused state = true)).
Proof.
  unfold Snake.getValidActions, Snake.isValidAction.
  destruct (Snake.isGameOver state), (Snake.isPaused state),
    (Snake.direction state), action as [| [] | |];
    simpl; split; intros H; try reflexivity; try discriminate;
    intuition (try discriminate; eauto).
Qed.

(** X15.  The snake is never told to turn back on itself: as long as the game
    is not over, no action makes [nextDirection] the opposite of
    [direction]. *)
Theorem snake_never_reverses
  (rnd : RandomSource) (state state' : Snake.SnakeGameState CameraUp)
  (action : Snake.SnakeAction) :
  Snake.nextDirection state
  <> Snake.OPPOSITE_DIRECTIONS (Snake.direction state) ->
  Snake.applyAction transformDirectionAcrossEdge rotateCameraUp rnd state
    action = Some state' ->
  Snake.isGameOver state' = false ->
  Snake.nextDirection state'
  <> Snake.OPPOSITE_DIRECTIONS (Snake.direction state').
Proof.
  intros Hinv Happly Hlive.
  destruct action as [| d | |]; cbn [Snake.applyAction] in Happly.
  - unfold Snake.moveSnake in Happly.
    destruct (Snake.isPaused state || Snake.isGameOver state).
    + now injection Happly as <-.
    + destruct (Snake.snake state) as [| head body]; [discriminate |].
      cbv zeta in Happly. destruct (Snake.occupies _ _).
      * injection Happly as <-. discriminate Hlive.
      * injection Happly as <-. cbn [Snake.nextDirection Snake.direction].
        match goal with |- ?d <> _ => destruct d; discriminate end.
  - destruct (Snake.SnakeDirection_eqb d _) eqn:He;
      cbn [negb] in Happly; injection Happly as <-; trivial.
    cbn [Snake.nextDirection Snake.direction].
    intros ->. destruct (Snake.direction state); discriminate.
  - injection Happly as <-. exact Hinv.
  - injection Happly as <-. exact Hinv.
Qed.

End SnakeRules.

Lemma snake_speed_follows_score_witness :
  Snake.score snakeAtFood <= 10 /\
  200 = Z.max 80 (200 - 10 / 50 * 20) /\
  80 <= 200 <= 200 /\
  (10 < 50 -> 200 = 200) /\
  (300 <= 10 -> 200 = 80).
Proof.
  apply (snake_speed_follows_score unit (fun _ d _ => d) (fun _ _ u => u)
           (fun _ => O) snakeAtFood
           (Snake.mkSnakeGameState
              [ mkCubePosition FRONT 5 4; mkCubePosition FRONT 4 4;
                mkCubePosition FRONT 3 4; mkCubePosition FRONT 2 4 ]
              Snake.dir_right Snake.dir_right
              (Snake.spawnFood (fun _ => O)
                 [ mkCubePosition FRONT 5 4; mkCubePosition FRONT 4 4;
                   mkCubePosition FRONT 3 4; mkCubePosition FRONT 2 4 ])
              10 200 false false 8 tt)).
  - reflexivity.
  - reflexivity.
  - vm_compute. reflexivity.
  - reflexivity.
  - simpl; lia.
Defined.

Lemma snake_never_reverses_witness :
  Snake.dir_up <> Snake.OPPOSITE_DIRECTIONS Snake.dir_right.
Proof.
  apply (snake_never_reverses unit (fun _ d _ => d) (fun _ _ u => u)
           (fun _ => O) snakeAtFood
           (Snake.mkSnakeGameState (Snake.snake snakeAtFood) Snake.dir_right
              Snake.dir_up (Snake.food snakeAtFood) 0 200 false false 8 tt)
           (Snake.ChangeDirection Snake.dir_up)).
  - simpl. discriminate.
  - reflexivity.
  - reflexivity.
Defined.

(* ===================================================================== *)
(** * Further properties of Minesweeper *)
(* ===================================================================== *)

(** ** Maps related cell by cell *)

Lemma cellsRelated_refl R m :
  (forall c, R c c) -> cellsRelated R m m.
Proof.
  intros HR. induction m as [| e m IH]; constructor; auto.
Qed.

Lemma cellsRelated_trans R m1 m2 m3 :
  (forall a b c, R a b -> R b c -> R a c) ->
  cellsRelated R m1 m2 -> cellsRelated R m2 m3 -> cellsRelated R m1 m3.
Proof.
  intros HR H12. revert m3.
  induction H12 as [| e1 e2 m1 m2 [Hk Hc] _ IH]; intros m3 H23;
    inversion H23 as [| ? e3 ? m3' [Hk' Hc'] Hrest]; subst; constructor.
  - split; [congruence | eauto].
  - now apply IH.
Qed.

Lemma cellsRelated_weaken (R R' : _ -> _ -> Prop) m m' :
  (forall c c', R c c' -> R' c c') ->
  cellsRelated R m m' -> cellsRelated R' m m'.
Proof.
  intros HR H. induction H as [| e e' m m' [Hk Hc] _ IH]; constructor; auto.
Qed.

Lemma cellsRelated_keys R m m' :
  cellsRelated R m m' -> JsMap.keys m' = JsMap.keys m.
Proof.
  intros H. induction H as [| e e' m m' [Hk _] _ IH]; simpl; congruence.
Qed.

Lemma cellsRelated_get R m m' k :
  cellsRelated R m m' ->
  match JsMap.get m k, JsMap.get m' k with
  | Some c, Some c' => R c c'
  | None, None => True
  | _, _ => False
  end.
Proof.
  intros H. induction H as [| [k0 c0] [k0' c0'] m m' [Hk Hc] _ IH];
    simpl in *; trivial.
  subst k0'. destruct (String.eqb k0 k); assumption.
Qed.

Lemma cellsRelated_set R m k c c' :
  JsMap.get m k = Some c -> R c c' -> (forall a, R a a) ->
  cellsRelated R m (JsMap.set m k c').
Proof.
  intros Hget Hc HR. induction m as [| [k0 c0] m IH]; simpl in *; [discriminate |].
  destruct (String.eqb k0 k).
  - injection Hget as ->. constructor; [now split |].
    now apply cellsRelated_refl.
  - constructor; [split; [reflexivity | apply HR] | now apply IH].
Qed.

Lemma uncovered_refl c : uncovered c c.
Proof. now left. Qed.

Lemma uncovered_trans a b c : uncovered a b -> uncovered b c -> uncovered a c.
Proof.
  intros [-> | [Hr [Hf ->]]] [-> | [Hr' [Hf' ->]]]; unfold uncovered; auto.
Qed.

Lemma opened_uncovered c c' : opened c c' -> uncovered c c'.
Proof.
  intros [-> | [Hc ->]]; [now left | right].
  unfold revealable in Hc. apply negb_true_iff in Hc.
  apply orb_false_iff in Hc. destruct Hc as [Hc _].
  apply orb_false_iff in Hc. tauto.
Qed.

Lemma opened_refl c : opened c c.
Proof. now left. Qed.

Lemma opened_trans a b c : opened a b -> opened b c -> opened a c.
Proof.
  intros [-> | [Hr ->]] [-> | [Hr' ->]]; unfold opened; auto.
Qed.

(** Uncovering a cell changes nothing but [isRevealed], which it can only
    set. *)
Lemma uncovered_fields c c' :
  uncovered c c' ->
  Minesweeper.isMine c' = Minesweeper.isMine c /\
  Minesweeper.isFlagged c' = Minesweeper.isFlagged c /\
  Minesweeper.adjacentMines c' = Minesweeper.adjacentMines c /\
  (Minesweeper.isRevealed c = true -> Minesweeper.isRevealed c' = true).
Proof. intros [-> | [_ [_ ->]]]; simpl; auto. Qed.

Lemma revealedCells_uncovered m m' :
  cellsRelated uncovered m m' ->
  (revealedCells m <= revealedCells m')%nat /\
  flaggedCells m' = flaggedCells m /\ mineView m' = mineView m.
Proof.
  unfold revealedCells, flaggedCells, mineView.
  intros H. induction H as [| [k c] [k' c'] m m' [Hk Hc] _ [IH1 [IH2 IH3]]];
    simpl in *; [auto |].
  subst k'. destruct (uncovered_fields c c' Hc) as [Hm [Hf [_ Hr]]].
  rewrite Hm, Hf, IH3.
  split; [| split; [| reflexivity]].
  - destruct (Minesweeper.isRevealed c); [rewrite Hr by reflexivity; simpl; lia |].
    destruct (Minesweeper.isRevealed c'); simpl; lia.
  - destruct (Minesweeper.isFlagged c); simpl; now rewrite IH2.
Qed.

Lemma revealedCells_set m k c :
  JsMap.get m k = Some c -> Minesweeper.isRevealed c = false ->
  revealedCells (JsMap.set m k (Minesweeper.setRevealed c))
  = S (revealedCells m).
Proof.
  unfold revealedCells. intros Hget Hc.
  induction m as [| [k0 c0] m IH]; simpl in *; [discriminate |].
  destruct (String.eqb k0 k); simpl.
  - injection Hget as ->. now rewrite Hc.
  - destruct (Minesweeper.isRevealed c0); simpl; now rewrite IH.
Qed.

Lemma keySettled_uncovered m m' k :
  cellsRelated uncovered m m' -> keySettled m k -> keySettled m' k.
Proof.
  intros H. pose proof (cellsRelated_get _ m m' k H) as Hget.
  unfold keySettled.
  destruct (JsMap.get m k) as [c |], (JsMap.get m' k) as [c' |];
    try contradiction; trivial.
  destruct (uncovered_fields c c' Hget) as [Hm [Hf [_ Hr]]].
  rewrite Hm, Hf. intuition.
Qed.
(** ** What the flood fill reveals *)

Lemma pushes_In (visited : list string) ns : forall rest n,
  In n (fold_left
          (fun stack neighbor =>
             if setHas visited (posKey neighbor) then stack
             else neighbor :: stack) ns rest)
  <-> In n rest \/ (In n ns /\ setHas visited (posKey n) = false).
Proof.
  induction ns as [| a ns IH]; intros rest n; simpl.
  - tauto.
  - destruct (setHas visited (posKey a)) eqn:Ha; rewrite IH; simpl.
    + split; [tauto |]. intros [H | [[-> | H] Hv]]; auto. congruence.
    + split; [intros [[-> | H] | [H Hv]]; auto | ].
      intros [H | [[-> | H] Hv]]; auto.
Qed.

Lemma keySettled_set m k c k' :
  JsMap.get m k = Some c ->
  keySettled (JsMap.set m k (Minesweeper.setRevealed c)) k' <->
  k = k' \/ keySettled m k'.
Proof.
  intros Hget. unfold keySettled.
  destruct (String.eqb_spec k k') as [<- | Hne].
  - rewrite get_set_same. simpl. tauto.
  - rewrite get_set_other by assumption. tauto.
Qed.

(** The loop of [revealCell], from any intermediate state in which the
    keys already visited are settled: it only opens cells that hold no
    mine, counts the cells it opens, leaves settled every position that
    was on its stack, and every neighbour of each cell it opens that has
    no mine around. *)
Lemma floodFill_spec fuel : forall g m stack visited count m' count',
  Minesweeper.floodFill fuel g m stack visited count = Some (m', count') ->
  (forall k, In k visited -> keySettled m k) ->
  cellsRelated opened m m' /\
  count' = count + Z.of_nat (revealedCells m' - revealedCells m) /\
  (forall p, In p stack -> keySettled m' (posKey p)) /\
  (forall p c c',
      JsMap.get m (posKey p) = Some c -> Minesweeper.isRevealed c = false ->
      JsMap.get m' (posKey p) = Some c' -> Minesweeper.isRevealed c' = true ->
      Minesweeper.adjacentMines c' = 0 ->
      forall n, In n (getAllNeighbors p g) -> keySettled m' (posKey n)).
Proof.
  induction fuel as [| fuel IH];
    intros g m stack visited count m' count' Hrun Hvisited; [discriminate |].
  destruct stack as [| current rest]; cbn [Minesweeper.floodFill] in Hrun.
  - injection Hrun as <- <-.
    split; [apply cellsRelated_refl, opened_refl |].
    split; [rewrite Nat.sub_diag; simpl; lia |].
    split; [intros p [] |].
    intros p c c' Hc Hhid Hc' Hrev. congruence.
  - assert (Hskip : forall visited',
               (forall k, In k visited' -> keySettled m k) ->
               keySettled m (posKey current) ->
               Minesweeper.floodFill fuel g m rest visited' count
               = Some (m', count') ->
               cellsRelated opened m m' /\
               count' = count + Z.of_nat (revealedCells m' - revealedCells m) /\
               (forall p, In p (current :: rest) -> keySettled m' (posKey p)) /\
               (forall p c c',
                   JsMap.get m (posKey p) = Some c ->
                   Minesweeper.isRevealed c = false ->
                   JsMap.get m' (posKey p) = Some c' ->
                   Minesweeper.isRevealed c' = true ->
                   Minesweeper.adjacentMines c' = 0 ->
                   forall n, In n (getAllNeighbors p g) ->
                             keySettled m' (posKey n))).
    { intros visited' Hv' Hcur Hrun'.
      destruct (IH g m rest visited' count m' count' Hrun' Hv')
        as [Hrel [Hcount [Hstack Hzero]]].
      split; [exact Hrel |]. split; [exact Hcount |]. split; [| exact Hzero].
      intros p [<- | Hp]; [| now apply Hstack].
      apply (keySettled_uncovered m m'); trivial.
      apply (cellsRelated_weaken opened); [apply opened_uncovered | exact Hrel]. }
    destruct (setHas visited (posKey current)) eqn:Hseen.
    { apply (Hskip visited); trivial. apply Hvisited. now apply setHas_In. }
    destruct (JsMap.get m (posKey current)) as [c |] eqn:Hget.
    2: { apply (Hskip (posKey current :: visited)); trivial.
         - intros k [<- | Hk]; [| now apply Hvisited].
           unfold keySettled. now rewrite Hget.
         - unfold keySettled. now rewrite Hget. }
    destruct (Minesweeper.isRevealed c || Minesweeper.isFlagged c
              || Minesweeper.isMine c) eqn:Hc.
    { assert (Hset : keySettled m (posKey current)).
      { unfold keySettled. rewrite Hget.
        destruct (Minesweeper.isRevealed c), (Minesweeper.isFlagged c),
          (Minesweeper.isMine c); simpl in Hc; try discriminate; auto. }
      apply (Hskip (posKey current :: visited)); trivial.
      intros k [<- | Hk]; [assumption | now apply Hvisited]. }
    assert (Hrevealable : revealable c = true)
      by (unfold revealable; now rewrite Hc).
    assert (Hhidden : Minesweeper.isRevealed c = false).
    { destruct (Minesweeper.isRevealed c); [discriminate | reflexivity]. }
    set (m1 := JsMap.set m (posKey current) (Minesweeper.setRevealed c)) in *.
    assert (Hstep : cellsRelated opened m m1).
    { apply (cellsRelated_set opened m (posKey current) c); trivial.
      - right. now split.
      - apply opened_refl. }
    assert (Hv1 : forall k, In k (posKey current :: visited) -> keySettled m1 k).
    { intros k Hk. apply keySettled_set; trivial.
      destruct Hk as [<- | Hk]; [now left | right; now apply Hvisited]. }
    match type of Hrun with
    | Minesweeper.floodFill _ _ _ ?stack' _ _ = _ =>
        destruct (IH g m1 stack' (posKey current :: visited) (count + 1)
                    m' count' Hrun Hv1)
          as [Hrel [Hcount [Hstack Hzero]]];
        assert (Hpushed : forall n, In n rest -> In n stack')
    end.
    { intros n Hn. destruct (Minesweeper.adjacentMines c =? 0); trivial.
      apply pushes_In. now left. }
    assert (Hrel1 : cellsRelated uncovered m1 m')
      by (apply (cellsRelated_weaken opened); [apply opened_uncovered | exact Hrel]).
    split; [| split; [| split]].
    + apply (cellsRelated_trans opened m m1 m'); trivial. apply opened_trans.
    + rewrite Hcount. unfold m1 in *.
      rewrite revealedCells_set in * by assumption.
      destruct (revealedCells_uncovered _ _ Hrel1) as [Hle _].
      rewrite revealedCells_set in Hle by assumption. lia.
    + intros p [<- | Hp]; [| apply Hstack; now apply Hpushed].
      apply (keySettled_uncovered m1 m'); trivial.
      apply keySettled_set; trivial. now left.
    + intros p c0 c0' Hc0 Hhid0 Hc0' Hrev0 Hzero0 n Hn.
      destruct (String.eqb_spec (posKey current) (posKey p)) as [He | Hne].
      * apply posKey_inj in He. subst p.
        assert (Hadj : Minesweeper.adjacentMines c = 0).
        { pose proof (cellsRelated_get _ m1 m' (posKey current) Hrel1) as Hg.
          unfold m1 in Hg. rewrite get_set_same, Hc0' in Hg.
          destruct (uncovered_fields _ _ Hg) as [_ [_ [Ha _]]].
          simpl in Ha. congruence. }
        rewrite Hadj in Hstack. change (0 =? 0) with true in Hstack.
        cbv iota in Hstack.
        destruct (setHas (posKey current :: visited) (posKey n)) eqn:Hvn.
        -- apply (keySettled_uncovered m1 m'); trivial.
           apply Hv1. now apply setHas_In.
        -- apply Hstack. apply pushes_In. right. now split.
      * apply (Hzero p c0 c0'); trivial.
        unfold m1. now rewrite get_set_other.
Qed.
(** ** One reveal *)

Lemma revealCell_spec m p g r :
  Minesweeper.revealCell m p g = Some r ->
  cellsRelated uncovered m (Minesweeper.resultCells r) /\
  Minesweeper.revealed r
  = Z.of_nat (revealedCells (Minesweeper.resultCells r) - revealedCells m) /\
  (Minesweeper.hitMine r = true ->
   exists c,
     JsMap.get m (posKey p) = Some c /\ Minesweeper.isMine c = true /\
     Minesweeper.isRevealed c = false /\ Minesweeper.isFlagged c = false /\
     Minesweeper.resultCells r
     = JsMap.set m (posKey p) (Minesweeper.setRevealed c)) /\
  (Minesweeper.hitMine r = false ->
   mineAt_hidden m p = false /\
   cellsRelated opened m (Minesweeper.resultCells r) /\
   keySettled (Minesweeper.resultCells r) (posKey p) /\
   (forall q c c',
       JsMap.get m (posKey q) = Some c -> Minesweeper.isRevealed c = false ->
       JsMap.get (Minesweeper.resultCells r) (posKey q) = Some c' ->
       Minesweeper.isRevealed c' = true ->
       Minesweeper.adjacentMines c' = 0 ->
       forall n, In n (getAllNeighbors q g) ->
                 keySettled (Minesweeper.resultCells r) (posKey n))).
Proof.
  unfold Minesweeper.revealCell, mineAt_hidden. cbv zeta.
  destruct (JsMap.get m (posKey p)) as [c |] eqn:Hget.
  2: { intros [= <-]. cbn [Minesweeper.resultCells Minesweeper.revealed
                            Minesweeper.hitMine].
       split; [apply cellsRelated_refl, uncovered_refl |].
       split; [rewrite Nat.sub_diag; reflexivity |].
       split; [discriminate |]. intros _.
       split; [reflexivity |].
       split; [apply cellsRelated_refl, opened_refl |].
       split; [unfold keySettled; now rewrite Hget |].
       intros q c0 c0' Hc0 Hhid Hc0'. congruence. }
  destruct (Minesweeper.isRevealed c || Minesweeper.isFlagged c) eqn:Hrf.
  { intros [= <-]. cbn [Minesweeper.resultCells Minesweeper.revealed
                         Minesweeper.hitMine].
    split; [apply cellsRelated_refl, uncovered_refl |].
    split; [rewrite Nat.sub_diag; reflexivity |].
    split; [discriminate |]. intros _.
    split; [reflexivity |].
    split; [apply cellsRelated_refl, opened_refl |].
    split.
    - unfold keySettled. rewrite Hget.
      destruct (Minesweeper.isRevealed c); [now left | right; now left].
    - intros q c0 c0' Hc0 Hhid Hc0'. congruence. }
  apply orb_false_iff in Hrf. destruct Hrf as [Hrev Hflag].
  destruct (Minesweeper.isMine c) eqn:Hmine.
  { intros [= <-]. cbn [Minesweeper.resultCells Minesweeper.revealed
                         Minesweeper.hitMine].
    split.
    { apply (cellsRelated_set uncovered m (posKey p) c); trivial.
      - right. auto.
      - apply uncovered_refl. }
    split; [rewrite revealedCells_set by assumption; lia |].
    split; [| discriminate]. intros _. exists c. auto. }
  destruct (Minesweeper.floodFill _ g m [p] [] 0) as [[filled count] |] eqn:Hrun;
    [| discriminate].
  intros [= <-]. cbn [Minesweeper.resultCells Minesweeper.revealed
                       Minesweeper.hitMine].
  destruct (floodFill_spec _ g m [p] [] 0 filled count Hrun)
    as [Hrel [Hcount [Hstack Hzero]]]; [intros k [] |].
  split; [apply (cellsRelated_weaken opened); [apply opened_uncovered | exact Hrel] |].
  split; [lia |]. split; [discriminate |]. intros _.
  cbn [orb negb andb].
  split; [reflexivity |]. split; [exact Hrel |].
  split; [apply Hstack; now left | exact Hzero].
Qed.
(** ** Laying the mines keeps the covers *)

Lemma sameCover_counts m m' :
  cellsRelated sameCover m m' ->
  revealedCells m' = revealedCells m /\ flaggedCells m' = flaggedCells m.
Proof.
  unfold revealedCells, flaggedCells.
  induction 1 as [| [k c] [k' c'] m m' [_ [Hr Hf]] _ [IHr IHf]]; simpl; [auto |].
  simpl in Hr, Hf. rewrite Hr, Hf.
  destruct (Minesweeper.isRevealed c), (Minesweeper.isFlagged c); simpl; auto.
Qed.

Lemma sameCover_refl c : sameCover c c.
Proof. split; reflexivity. Qed.

Lemma sameCover_trans a b c : sameCover a b -> sameCover b c -> sameCover a c.
Proof. intros [H1 H2] [H3 H4]. split; congruence. Qed.

Lemma placeMine_sameCover M : forall m,
  cellsRelated sameCover m (fold_left placeMine M m).
Proof.
  induction M as [| k M IH]; intros m; cbn [fold_left].
  - apply cellsRelated_refl, sameCover_refl.
  - apply (cellsRelated_trans _ _ (placeMine m k)); [apply sameCover_trans | | apply IH].
    unfold placeMine. destruct (JsMap.get m k) as [c |] eqn:Hget.
    + apply (cellsRelated_set _ m k c); trivial;
        [split; reflexivity | apply sameCover_refl].
    + apply cellsRelated_refl, sameCover_refl.
Qed.

Lemma mineAt_mineView m m' p :
  mineView m' = mineView m -> Minesweeper.mineAt m' p = Minesweeper.mineAt m p.
Proof.
  intros Hview. unfold Minesweeper.mineAt.
  pose proof (get_mineView m (posKey p)) as H.
  pose proof (get_mineView m' (posKey p)) as H'.
  rewrite Hview, H in H'.
  destruct (JsMap.get m (posKey p)), (JsMap.get m' (posKey p));
    simpl in H'; congruence.
Qed.

Lemma countAdjacentMines_mineView m m' k g :
  mineView m' = mineView m ->
  Minesweeper.countAdjacentMines m' k g = Minesweeper.countAdjacentMines m k g.
Proof.
  intros Hview. unfold Minesweeper.countAdjacentMines.
  destruct (parseKey k) as [pos |]; trivial.
  do 2 f_equal. apply filter_ext. intros p. now apply mineAt_mineView.
Qed.

(** The last loop of [placeMines], from a map that holds the cells of the
    snapshot it walks. *)
Lemma counts_fold g snapshot : forall m,
  NoDup (JsMap.keys snapshot) ->
  (forall k c, In (k, c) snapshot -> JsMap.get m k = Some c) ->
  cellsRelated sameCover m (fold_left (countStep g) snapshot m) /\
  mineView (fold_left (countStep g) snapshot m) = mineView m /\
  (forall k c, In (k, c) snapshot -> Minesweeper.isMine c = false ->
               JsMap.get (fold_left (countStep g) snapshot m) k
               = Some (Minesweeper.setAdjacentMines c
                         (Minesweeper.countAdjacentMines m k g))) /\
  (forall k, ~ In k (JsMap.keys snapshot) ->
             JsMap.get (fold_left (countStep g) snapshot m) k = JsMap.get m k).
Proof.
  induction snapshot as [| [k c] snapshot IH]; intros m Hnd Hsnap;
    cbn [fold_left].
  - split; [apply cellsRelated_refl, sameCover_refl |].
    split; [reflexivity |]. split; [intros k c [] | reflexivity].
  - simpl in Hnd. inversion Hnd as [| ? ? Hk Hnd']; subst.
    pose proof (Hsnap k c (or_introl eq_refl)) as Hget.
    set (m1 := countStep g m (k, c)).
    assert (Hstep : cellsRelated sameCover m m1 /\ mineView m1 = mineView m /\
                    (forall k', k' <> k -> JsMap.get m1 k' = JsMap.get m k') /\
                    (Minesweeper.isMine c = false ->
                     JsMap.get m1 k
                     = Some (Minesweeper.setAdjacentMines c
                               (Minesweeper.countAdjacentMines m k g)))).
    { unfold m1, countStep. destruct (Minesweeper.isMine c) eqn:Hc.
      - split; [apply cellsRelated_refl, sameCover_refl |].
        split; [reflexivity |]. split; [reflexivity | discriminate].
      - split.
        { apply (cellsRelated_set _ m k c); trivial;
            [split; reflexivity | apply sameCover_refl]. }
        split; [apply (mineView_set m k c); trivial |].
        split; [intros k' Hne; apply get_set_other; congruence |].
        intros _. apply get_set_same. }
    destruct Hstep as [Hrel [Hview [Hother Hself]]].
    destruct (IH m1 Hnd') as [IHrel [IHview [IHin IHout]]].
    { intros k' c' Hin. rewrite Hother; [apply Hsnap; now right |].
      intros ->. apply Hk. change k with (fst (k, c')). now apply in_map. }
    split; [apply (cellsRelated_trans _ _ m1); trivial; apply sameCover_trans |].
    split; [congruence |]. split.
    + intros k' c' [[= <- <-] | Hin] Hmine.
      * rewrite IHout by assumption. now apply Hself.
      * rewrite (IHin k' c' Hin Hmine).
        now rewrite (countAdjacentMines_mineView m m1).
    + intros k' Hout. simpl in Hout. rewrite IHout by tauto.
      apply Hother. intros ->. tauto.
Qed.

Lemma placeMines_spec rnd cells P g t :
  NoDup (JsMap.keys cells) ->
  let mined := Minesweeper.placeMines rnd cells P g t in
  cellsRelated sameCover cells mined /\
  (forall k c, JsMap.get mined k = Some c -> Minesweeper.isMine c = false ->
               Minesweeper.adjacentMines c
               = Minesweeper.countAdjacentMines mined k g).
Proof.
  intros Hnd. rewrite placeMines_unfold. cbv zeta.
  set (M := Minesweeper.sliceTo t _).
  set (laid := fold_left placeMine M cells).
  pose proof (placeMine_sameCover M cells) as Hlaid. fold laid in Hlaid.
  assert (Hnd' : NoDup (JsMap.keys laid)).
  { now rewrite (cellsRelated_keys _ _ _ Hlaid). }
  destruct (counts_fold g laid laid Hnd') as [Hrel [Hview [Hin Hout]]].
  { intros k c. now apply get_In. }
  split; [apply (cellsRelated_trans _ _ laid); trivial; apply sameCover_trans |].
  intros k c Hget Hmine.
  rewrite (countAdjacentMines_mineView laid _ k g Hview).
  destruct (JsMap.get laid k) as [c0 |] eqn:Hget0.
  - pose proof (get_mineView laid k) as Hv0.
    pose proof (get_mineView (fold_left (countStep g) laid laid) k) as Hv.
    rewrite Hview, Hv0, Hget0, Hget in Hv. simpl in Hv.
    rewrite (Hin k c0) in Hget; [| now apply get_Some_In | congruence].
    injection Hget as <-. reflexivity.
  - rewrite Hout in Hget; [congruence |]. now apply get_None_keys.
Qed.

(** ** Chords *)

Lemma fold_chordStep_None g ns :
  fold_left (Minesweeper.chordStep g) ns None = None.
Proof. induction ns; simpl; trivial. Qed.

Lemma fold_chordStep_spec g ns : forall r r',
  fold_left (Minesweeper.chordStep g) ns (Some r) = Some r' ->
  cellsRelated uncovered (Minesweeper.chordCells r) (Minesweeper.chordCells r') /\
  Minesweeper.chordRevealed r'
  = Minesweeper.chordRevealed r
    + Z.of_nat (revealedCells (Minesweeper.chordCells r')
                - revealedCells (Minesweeper.chordCells r)) /\
  (Minesweeper.chordHitMine r' = false ->
   Minesweeper.chordHitMine r = false /\
   cellsRelated opened (Minesweeper.chordCells r) (Minesweeper.chordCells r')).
Proof.
  induction ns as [| n ns IH]; intros r r'; cbn [fold_left].
  - intros [= <-]. split; [apply cellsRelated_refl, uncovered_refl |].
    split; [rewrite Nat.sub_diag; simpl; lia |].
    intros H. split; [exact H | apply cellsRelated_refl, opened_refl].
  - unfold Minesweeper.chordStep at 2.
    destruct (JsMap.get (Minesweeper.chordCells r) (posKey n)) as [c |];
      [| apply IH].
    destruct (negb (Minesweeper.isFlagged c) && negb (Minesweeper.isRevealed c));
      [| apply IH].
    destruct (Minesweeper.revealCell (Minesweeper.chordCells r) n g)
      as [res |] eqn:Hres; [| now rewrite fold_chordStep_None].
    intros Hrun. apply IH in Hrun.
    cbn [Minesweeper.chordCells Minesweeper.chordRevealed
           Minesweeper.chordHitMine] in Hrun.
    destruct Hrun as [Hrel [Hcount Hsafe]].
    destruct (revealCell_spec _ _ _ _ Hres) as [Hrel0 [Hcount0 [_ Hsafe0]]].
    pose proof (revealedCells_uncovered _ _ Hrel) as [Hle _].
    pose proof (revealedCells_uncovered _ _ Hrel0) as [Hle0 _].
    split; [apply (cellsRelated_trans _ _ (Minesweeper.resultCells res));
            trivial; apply uncovered_trans |].
    split; [lia |].
    intros Hhit. destruct (Hsafe Hhit) as [Hhit0 Hopen].
    destruct (Minesweeper.hitMine res) eqn:Hres'; [discriminate |].
    split; [exact Hhit0 |].
    apply (cellsRelated_trans _ _ (Minesweeper.resultCells res));
      [apply opened_trans | | exact Hopen].
    now apply Hsafe0.
Qed.

Lemma chordReveal_spec m p g r :
  Minesweeper.chordReveal m p g = Some r ->
  cellsRelated uncovered m (Minesweeper.chordCells r) /\
  Minesweeper.chordRevealed r
  = Z.of_nat (revealedCells (Minesweeper.chordCells r) - revealedCells m) /\
  (Minesweeper.chordHitMine r = false ->
   cellsRelated opened m (Minesweeper.chordCells r)).
Proof.
  assert (Hsame : Some (Minesweeper.mkChordResult m false 0 None) = Some r ->
                  cellsRelated uncovered m (Minesweeper.chordCells r) /\
                  Minesweeper.chordRevealed r
                  = Z.of_nat (revealedCells (Minesweeper.chordCells r)
                              - revealedCells m) /\
                  (Minesweeper.chordHitMine r = false ->
                   cellsRelated opened m (Minesweeper.chordCells r))).
  { intros [= <-]. simpl. rewrite Nat.sub_diag.
    split; [apply cellsRelated_refl, uncovered_refl |].
    split; [reflexivity |]. intros _. apply cellsRelated_refl, opened_refl. }
  unfold Minesweeper.chordReveal. cbv zeta.
  destruct (JsMap.get m (posKey p)) as [c |]; trivial.
  destruct (negb (Minesweeper.isRevealed c)
            || (Minesweeper.adjacentMines c =? 0)); trivial.
  match goal with
  | |- context [if ?b then _ else _] => destruct b; trivial
  end.
  intros Hrun. apply fold_chordStep_spec in Hrun. simpl in Hrun.
  destruct Hrun as [Hrel [Hcount Hsafe]].
  split; [exact Hrel |]. split; [exact Hcount |].
  intros Hhit. now apply Hsafe.
Qed.
(** ** What the actions keep *)

Lemma uncovered_played c c' : uncovered c c' -> played c c'.
Proof.
  intros [-> | [Hr [_ ->]]]; repeat split; trivial.
  intros H. congruence.
Qed.

Lemma played_refl c : played c c.
Proof. repeat split. Qed.

Lemma flag_counts m k c b :
  JsMap.get m k = Some c ->
  revealedCells (JsMap.set m k (Minesweeper.setFlagged c b)) = revealedCells m /\
  Z.of_nat (flaggedCells (JsMap.set m k (Minesweeper.setFlagged c b)))
  = Z.of_nat (flaggedCells m)
    + (if b then 1 else 0) - (if Minesweeper.isFlagged c then 1 else 0).
Proof.
  unfold revealedCells, flaggedCells.
  induction m as [| [k0 c0] m IH]; cbn [JsMap.get JsMap.set]; [discriminate |].
  destruct (String.eqb k0 k); cbn [filter snd].
  - intros [= ->]. cbn [Minesweeper.setFlagged Minesweeper.isRevealed
                          Minesweeper.isFlagged].
    split; [now destruct (Minesweeper.isRevealed c) |].
    destruct b, (Minesweeper.isFlagged c); cbn [length]; cbv iota;
      rewrite ?Nat2Z.inj_succ; lia.
  - intros Hget. destruct (IH Hget) as [IHr IHf].
    split; [destruct (Minesweeper.isRevealed c0); cbn [length]; congruence |].
    destruct (Minesweeper.isFlagged c0); cbn [length]; cbv iota;
      rewrite ?Nat2Z.inj_succ; lia.
Qed.

Lemma noRevealedMine_opened m m' :
  cellsRelated opened m m' -> noRevealedMine m -> noRevealedMine m'.
Proof.
  unfold noRevealedMine.
  induction 1 as [| [k c] [k' c'] m m' [_ Hc] _ IH]; intros Hm;
    constructor; inversion Hm; subst; auto.
  simpl in *. destruct Hc as [-> | [Hc ->]]; trivial.
  intros _. unfold revealable in Hc. simpl.
  destruct (Minesweeper.isMine c); trivial.
  rewrite orb_true_r in Hc. discriminate.
Qed.

Lemma noRevealedMine_set m k c' :
  Minesweeper.isRevealed c' = false -> noRevealedMine m ->
  noRevealedMine (JsMap.set m k c').
Proof.
  intros Hc'. unfold noRevealedMine.
  induction m as [| [k0 c0] m IH]; simpl; intros Hm.
  - constructor; trivial. simpl. congruence.
  - inversion Hm; subst. destruct (String.eqb k0 k); constructor; auto.
    simpl. congruence.
Qed.

Lemma revealedCells_none m :
  revealedCells m = 0%nat ->
  forall k c, In (k, c) m -> Minesweeper.isRevealed c = false.
Proof.
  unfold revealedCells. induction m as [| [k0 c0] m IH]; simpl; [intros _ ? ? [] |].
  destruct (Minesweeper.isRevealed c0) eqn:Hc0; [discriminate |].
  intros H k c [[= <- <-] | Hin]; eauto.
Qed.

Lemma noRevealedMine_none m : revealedCells m = 0%nat -> noRevealedMine m.
Proof.
  intros H. apply Forall_forall. intros [k c] Hin Hr. simpl in Hr.
  rewrite (revealedCells_none m H k c Hin) in Hr. discriminate.
Qed.

Lemma wellKept_step rnd state action state' :
  wellKept state ->
  Minesweeper.applyAction rnd state action = Some state' ->
  wellKept state' /\
  JsMap.keys (Minesweeper.cells state') = JsMap.keys (Minesweeper.cells state) /\
  (Minesweeper.isFirstClick state = false ->
   cellsRelated played (Minesweeper.cells state) (Minesweeper.cells state')).
Proof.
  intros [Hnd [[Hrev Hflag] [Hwon [Hfresh Hmines]]]].
  unfold Minesweeper.applyAction.
  destruct (Minesweeper.isGameOver state) eqn:Hover.
  { intros Hrun. apply some_eq in Hrun. subst state'.
    split; [unfold wellKept, countersAgree; rewrite Hover; tauto |].
    split; trivial. intros _. apply cellsRelated_refl, played_refl. }
  specialize (Hmines (or_introl eq_refl)).
  assert (Hnotwon : Minesweeper.isWon state = false).
  { destruct (Minesweeper.isWon state); trivial.
    destruct (Hwon eq_refl). discriminate. }
  destruct action as [p | p | p].
  - (* reveal *)
    set (cells0 := if Minesweeper.isFirstClick state then _ else _).
    assert (Hlaid : cellsRelated sameCover (Minesweeper.cells state) cells0).
    { unfold cells0. destruct (Minesweeper.isFirstClick state).
      - now apply placeMines_spec.
      - apply cellsRelated_refl, sameCover_refl. }
    destruct (Minesweeper.revealCell cells0 p (Minesweeper.gridSize state))
      as [r |] eqn:Hr; [| discriminate].
    intros Hrun. apply some_eq in Hrun. subst state'.
    destruct (revealCell_spec _ _ _ _ Hr) as [Hrel [Hcount [Hhit Hsafe]]].
    destruct (sameCover_counts _ _ Hlaid) as [Hr0 Hf0].
    destruct (revealedCells_uncovered _ _ Hrel) as [Hle [Hf1 _]].
    pose proof (cellsRelated_keys _ _ _ Hlaid) as Hk0.
    pose proof (cellsRelated_keys _ _ _ Hrel) as Hk1.
    split; [| split].
    + unfold wellKept, countersAgree.
      cbn [Minesweeper.cells Minesweeper.revealedCount Minesweeper.flagCount
             Minesweeper.isWon Minesweeper.isGameOver Minesweeper.isFirstClick
             Minesweeper.gridSize Minesweeper.totalMines].
      split; [congruence |]. split; [split; [lia | congruence] |].
      split; [| split; [discriminate |]].
      * intros H. apply andb_true_iff in H. destruct H as [Hw _].
        rewrite Hw. split; [apply orb_true_r |].
        apply Z.geb_le in Hw. lia.
      * intros H.
        assert (Hno : Minesweeper.hitMine r = false).
        { destruct (Minesweeper.hitMine r); trivial.
          destruct H as [H | H]; [discriminate |].
          rewrite andb_false_r in H. discriminate. }
        destruct (Hsafe Hno) as [_ [Hopen _]].
        apply (noRevealedMine_opened cells0); trivial.
        unfold cells0 in *.
        destruct (Minesweeper.isFirstClick state) eqn:Hfirst; trivial.
        apply noRevealedMine_none. rewrite Hr0. now apply Hfresh.
    + cbn [Minesweeper.cells]. congruence.
    + intros Hfirst. cbn [Minesweeper.cells]. unfold cells0 in Hrel.
      rewrite Hfirst in Hrel.
      apply (cellsRelated_weaken uncovered); [apply uncovered_played | exact Hrel].
  - (* flag *)
    destruct (JsMap.get (Minesweeper.cells state) (posKey p)) as [c |] eqn:Hget.
    2: { intros Hrun. apply some_eq in Hrun. subst state'.
         split; [unfold wellKept, countersAgree; rewrite Hover; tauto |].
         split; trivial. intros _. apply cellsRelated_refl, played_refl. }
    destruct (Minesweeper.isRevealed c) eqn:Hc.
    { intros Hrun. apply some_eq in Hrun. subst state'.
      split; [unfold wellKept, countersAgree; rewrite Hover; tauto |].
      split; trivial. intros _. apply cellsRelated_refl, played_refl. }
    intros Hrun. apply some_eq in Hrun. subst state'.
    destruct (flag_counts _ _ _ (negb (Minesweeper.isFlagged c)) Hget)
      as [Hr1 Hf1].
    assert (Hkeys : JsMap.keys (JsMap.set (Minesweeper.cells state) (posKey p)
                                  (Minesweeper.setFlagged c
                                     (negb (Minesweeper.isFlagged c))))
                    = JsMap.keys (Minesweeper.cells state)).
    { apply keys_set_present.
      destruct (in_dec string_dec (posKey p)
                  (JsMap.keys (Minesweeper.cells state))) as [Hin | Hout];
        trivial.
      apply get_None_keys in Hout. congruence. }
    split; [| split].
    + unfold wellKept, countersAgree.
      cbn [Minesweeper.cells Minesweeper.revealedCount Minesweeper.flagCount
             Minesweeper.isWon Minesweeper.isGameOver Minesweeper.isFirstClick
             Minesweeper.gridSize Minesweeper.totalMines].
      split; [congruence |]. split.
      { split; [congruence |]. rewrite Hf1, Hflag.
        destruct (Minesweeper.isFlagged c); simpl negb; cbv iota; lia. }
      split; [intros H; congruence |].
      split; [intros H; rewrite Hr1; auto |].
      intros _. now apply noRevealedMine_set.
    + exact Hkeys.
    + intros _. cbn [Minesweeper.cells].
      apply (cellsRelated_set _ _ _ c); trivial; [| apply played_refl].
      repeat split. simpl. congruence.
  - (* chord *)
    destruct (Minesweeper.chordReveal (Minesweeper.cells state) p
                (Minesweeper.gridSize state)) as [r |] eqn:Hr; [| discriminate].
    intros Hrun. apply some_eq in Hrun. subst state'.
    destruct (chordReveal_spec _ _ _ _ Hr) as [Hrel [Hcount Hsafe]].
    destruct (revealedCells_uncovered _ _ Hrel) as [Hle [Hf1 _]].
    pose proof (cellsRelated_keys _ _ _ Hrel) as Hk1.
    split; [| split].
    + unfold wellKept, countersAgree.
      cbn [Minesweeper.cells Minesweeper.revealedCount Minesweeper.flagCount
             Minesweeper.isWon Minesweeper.isGameOver Minesweeper.isFirstClick
             Minesweeper.gridSize Minesweeper.totalMines].
      split; [congruence |]. split; [split; [lia | congruence] |].
      split; [| split].
      * intros H. apply andb_true_iff in H. destruct H as [Hw _].
        rewrite Hw. split; [apply orb_true_r |].
        apply Z.geb_le in Hw. lia.
      * intros Hfirst. specialize (Hfresh Hfirst).
        unfold Minesweeper.chordReveal in Hr.
        destruct (JsMap.get (Minesweeper.cells state) (posKey p)) as [c |] eqn:Hget;
          [| apply some_eq in Hr; subst r; exact Hfresh].
        rewrite (revealedCells_none _ Hfresh (posKey p) c) in Hr
          by now apply get_Some_In.
        apply some_eq in Hr. subst r. exact Hfresh.
      * intros H.
        assert (Hno : Minesweeper.chordHitMine r = false).
        { destruct (Minesweeper.chordHitMine r); trivial.
          destruct H as [H | H]; [discriminate |].
          rewrite andb_false_r in H. discriminate. }
        now apply (noRevealedMine_opened (Minesweeper.cells state)); auto.
    + cbn [Minesweeper.cells]. exact Hk1.
    + intros _. cbn [Minesweeper.cells].
      apply (cellsRelated_weaken uncovered); [apply uncovered_played | exact Hrel].
Qed.
(** ** The state built by [init] *)

Lemma init_wellKept config : wellKept (Minesweeper.init config).
Proof.
  assert (Hnone : forall ps,
             revealedCells (map (fun p => (posKey p, Minesweeper.emptyCell)) ps)
             = 0%nat /\
             flaggedCells (map (fun p => (posKey p, Minesweeper.emptyCell)) ps)
             = 0%nat).
  { induction ps as [| p ps [IHr IHf]]; split; trivial. }
  unfold wellKept, countersAgree. rewrite init_cells.
  destruct (Hnone (Minesweeper.allPositions (Minesweeper.configGridSize config)))
    as [Hr Hf].
  rewrite Hr, Hf.
  split.
  { unfold JsMap.keys. rewrite map_map. apply NoDup_posKeys, NoDup_allPositions. }
  split; [split; reflexivity |]. split; [discriminate |]. split; [reflexivity |].
  intros _. now apply noRevealedMine_none.
Qed.

(** X16.  The bookkeeping of Minesweeper.  A state is well kept when the
    keys of its cell map are distinct, [revealedCount] and [flagCount] are
    the numbers of revealed and of flagged cells, a won game is over and
    has [revealedCount >= 6 * gridSize^2 - totalMines], no cell is revealed
    before the first click, and no mine is revealed unless the game is
    lost.  The state built by [init] is well kept ([init_wellKept]), and
    [applyAction] turns a well-kept state into a well-kept state with the
    same keys in the same order; once the first click is made it moves no
    mine, changes no number and leaves every revealed cell as it is. *)
Theorem minesweeper_state_stays_well_kept (rnd : RandomSource)
  (state state' : Minesweeper.MinesweeperGameState)
  (action : Minesweeper.MinesweeperAction) :
  wellKept state ->
  Minesweeper.applyAction rnd state action = Some state' ->
  wellKept state' /\
  JsMap.keys (Minesweeper.cells state') = JsMap.keys (Minesweeper.cells state) /\
  (Minesweeper.isFirstClick state = false ->
   cellsRelated played (Minesweeper.cells state) (Minesweeper.cells state')).
Proof. apply wellKept_step. Qed.

Lemma minesweeper_state_stays_well_kept_witness :
  exists state',
    Minesweeper.applyAction (fun k => k)
      (Minesweeper.init Minesweeper.DEFAULT_CONFIG)
      (Minesweeper.Reveal (mkCubePosition TOP 1 1)) = Some state' /\
    wellKept state' /\
    JsMap.keys (Minesweeper.cells state')
    = JsMap.keys (Minesweeper.cells (Minesweeper.init Minesweeper.DEFAULT_CONFIG)).
Proof.
  destruct (minesweeper_applyAction_total (fun k => k)
              (Minesweeper.init Minesweeper.DEFAULT_CONFIG)
              (Minesweeper.Reveal (mkCubePosition TOP 1 1))) as [state' Hrun].
  exists state'. split; [exact Hrun |].
  destruct (minesweeper_state_stays_well_kept (fun k => k)
              (Minesweeper.init Minesweeper.DEFAULT_CONFIG) state'
              (Minesweeper.Reveal (mkCubePosition TOP 1 1))
              (init_wellKept Minesweeper.DEFAULT_CONFIG) Hrun)
    as [Hkept [Hkeys _]].
  split; assumption.
Defined.

(** X17.  A reveal, after the first click, of a cell that holds no mine
    sets off no mine and ends the game only by winning it.  It changes
    cells only by revealing cells that were hidden, unflagged and without
    a mine.  Afterwards the cell at [P], if there is one, is revealed or
    flagged, and around every cell that the reveal has opened and whose
    number is 0, every neighbour listed by [getAllNeighbors] is settled:
    absent, revealed, flagged or a mine.  *)
Theorem minesweeper_reveal_opens_region (rnd : RandomSource)
  (state state' : Minesweeper.MinesweeperGameState) (P : CubePosition) :
  Minesweeper.isGameOver state = false ->
  Minesweeper.isFirstClick state = false ->
  Minesweeper.mineAt (Minesweeper.cells state) P = false ->
  Minesweeper.applyAction rnd state (Minesweeper.Reveal P) = Some state' ->
  Minesweeper.explodedMine state' = None /\
  Minesweeper.isGameOver state' = Minesweeper.isWon state' /\
  cellsRelated opened (Minesweeper.cells state) (Minesweeper.cells state') /\
  (forall c, JsMap.get (Minesweeper.cells state') (posKey P) = Some c ->
             Minesweeper.isRevealed c = true \/ Minesweeper.isFlagged c = true) /\
  (forall q c c',
      JsMap.get (Minesweeper.cells state) (posKey q) = Some c ->
      Minesweeper.isRevealed c = false ->
      JsMap.get (Minesweeper.cells state') (posKey q) = Some c' ->
      Minesweeper.isRevealed c' = true ->
      Minesweeper.adjacentMines c' = 0 ->
      forall n, In n (getAllNeighbors q (Minesweeper.gridSize state)) ->
                keySettled (Minesweeper.cells state') (posKey n)).
Proof.
  intros Hover Hfirst Hmine. unfold Minesweeper.applyAction.
  rewrite Hover, Hfirst.
  destruct (Minesweeper.revealCell (Minesweeper.cells state) P
              (Minesweeper.gridSize state)) as [r |] eqn:Hr; [| discriminate].
  intros Hrun. apply some_eq in Hrun. subst state'.
  cbn [Minesweeper.explodedMine Minesweeper.isGameOver Minesweeper.isWon
         Minesweeper.cells].
  destruct (revealCell_spec _ _ _ _ Hr) as [Hrel [_ [Hhit Hsafe]]].
  assert (Hno : Minesweeper.hitMine r = false).
  { destruct (Minesweeper.hitMine r); trivial.
    destruct (Hhit eq_refl) as [c [Hget [Hc _]]].
    unfold Minesweeper.mineAt in Hmine. rewrite Hget in Hmine. congruence. }
  destruct (Hsafe Hno) as [_ [Hopen [HP Hzero]]].
  rewrite Hno. split; [reflexivity |].
  split; [now rewrite andb_true_r |]. split; [exact Hopen |].
  split; [| exact Hzero].
  intros c Hc. unfold keySettled in HP. rewrite Hc in HP.
  destruct HP as [H | [H | H]]; auto.
  pose proof (cellsRelated_get _ _ _ (posKey P) Hrel) as Hget.
  rewrite Hc in Hget. unfold Minesweeper.mineAt in Hmine.
  destruct (JsMap.get (Minesweeper.cells state) (posKey P)) as [c0 |];
    [| contradiction].
  apply uncovered_fields in Hget. destruct Hget as [Hm _]. congruence.
Qed.

(** X18.  The numbers laid by the first click are right.  When the first
    reveal of a game is applied to a cell map with distinct keys, then in
    the state returned every cell without a mine, at a position with
    coordinates [>= 0], has for [adjacentMines] the number of positions of
    [getAllNeighbors] that hold a mine. *)
Theorem minesweeper_numbers_count_mines (rnd : RandomSource)
  (state state' : Minesweeper.MinesweeperGameState) (P : CubePosition) :
  Minesweeper.isGameOver state = false ->
  Minesweeper.isFirstClick state = true ->
  NoDup (JsMap.keys (Minesweeper.cells state)) ->
  Minesweeper.applyAction rnd state (Minesweeper.Reveal P) = Some state' ->
  forall q c,
    0 <= x q -> 0 <= y q ->
    JsMap.get (Minesweeper.cells state') (posKey q) = Some c ->
    Minesweeper.isMine c = false ->
    Minesweeper.adjacentMines c
    = Z.of_nat (length (filter (Minesweeper.mineAt (Minesweeper.cells state'))
                          (getAllNeighbors q (Minesweeper.gridSize state)))).
Proof.
  intros Hover Hfirst Hnd. unfold Minesweeper.applyAction.
  rewrite Hover, Hfirst.
  set (mined := Minesweeper.placeMines _ _ _ _ _).
  destruct (Minesweeper.revealCell mined P (Minesweeper.gridSize state))
    as [r |] eqn:Hr; [| discriminate].
  intros Hrun. apply some_eq in Hrun. subst state'.
  cbn [Minesweeper.cells].
  intros q c Hx Hy Hget Hc.
  destruct (revealCell_spec _ _ _ _ Hr) as [Hrel _].
  destruct (revealedCells_uncovered _ _ Hrel) as [_ [_ Hview]].
  destruct (placeMines_spec rnd (Minesweeper.cells state) P
              (Minesweeper.gridSize state) (Minesweeper.totalMines state) Hnd)
    as [_ Hnumbers].
  fold mined in Hnumbers.
  pose proof (cellsRelated_get _ _ _ (posKey q) Hrel) as Hq.
  rewrite Hget in Hq.
  destruct (JsMap.get mined (posKey q)) as [c0 |] eqn:Hget0; [| contradiction].
  apply uncovered_fields in Hq. destruct Hq as [Hm [_ [Ha _]]].
  rewrite Ha, (Hnumbers _ _ Hget0) by congruence.
  unfold Minesweeper.countAdjacentMines. rewrite parseKey_posKey by assumption.
  do 2 f_equal. apply filter_ext. intros p. symmetry.
  now apply mineAt_mineView.
Qed.

Lemma minesweeper_numbers_count_mines_witness :
  exists state',
    Minesweeper.applyAction (fun k => k)
      (Minesweeper.init Minesweeper.DEFAULT_CONFIG)
      (Minesweeper.Reveal (mkCubePosition TOP 1 1)) = Some state' /\
    forall q c,
      0 <= x q -> 0 <= y q ->
      JsMap.get (Minesweeper.cells state') (posKey q) = Some c ->
      Minesweeper.isMine c = false ->
      Minesweeper.adjacentMines c
      = Z.of_nat (length (filter (Minesweeper.mineAt (Minesweeper.cells state'))
                            (getAllNeighbors q 8))).
Proof.
  destruct (minesweeper_applyAction_total (fun k => k)
              (Minesweeper.init Minesweeper.DEFAULT_CONFIG)
              (Minesweeper.Reveal (mkCubePosition TOP 1 1))) as [state' Hrun].
  exists state'. split; [exact Hrun |].
  apply (minesweeper_numbers_count_mines (fun k => k)
           (Minesweeper.init Minesweeper.DEFAULT_CONFIG) state'
           (mkCubePosition TOP 1 1)).
  - reflexivity.
  - reflexivity.
  - apply init_wellKept.
  - exact Hrun.
Defined.
Lemma minesweeper_reveal_opens_region_witness :
  exists state',
    Minesweeper.applyAction (fun k => k) afterFirstClick
      (Minesweeper.Reveal (mkCubePosition BACK 1 0)) = Some state' /\
    Minesweeper.explodedMine state' = None /\
    cellsRelated opened (Minesweeper.cells afterFirstClick)
      (Minesweeper.cells state') /\
    (forall c,
        JsMap.get (Minesweeper.cells state') (posKey (mkCubePosition BACK 1 0))
        = Some c ->
        Minesweeper.isRevealed c = true \/ Minesweeper.isFlagged c = true).
Proof.
  destruct (minesweeper_applyAction_total (fun k => k) afterFirstClick
              (Minesweeper.Reveal (mkCubePosition BACK 1 0))) as [state' Hrun].
  exists state'. split; [exact Hrun |].
  destruct (minesweeper_reveal_opens_region (fun k => k) afterFirstClick state'
              (mkCubePosition BACK 1 0)) as [Hsafe [_ [Hopen [HP _]]]].
  - vm_compute. reflexivity.
  - vm_compute. reflexivity.
  - vm_compute. reflexivity.
  - exact Hrun.
  - split; [exact Hsafe |]. split; [exact Hopen | exact HP].
Defined.

(** ** The first click opens a region *)

Lemma placeMines_safe rnd cells0 g P t q :
  0 <= t ->
  mineView cells0
  = map (fun p => (posKey p, false)) (Minesweeper.allPositions g) ->
  validPosition g P ->
  q = P \/ In q (getAllNeighbors P g) ->
  exists c,
    JsMap.get (Minesweeper.placeMines rnd cells0 P g t) (posKey q) = Some c /\
    Minesweeper.isMine c = false.
Proof.
  intros Ht Hfresh HP Hq.
  destruct (placeMines_fresh rnd cells0 g P t Ht Hfresh)
    as [M [Hview [_ [_ [Hsafe _]]]]].
  destruct (safeZoneFrom_spec (getAllNeighbors P g) [posKey P]) as [Hzone _].
  assert (Hvalid : validPosition g q).
  { destruct Hq as [-> | Hq]; [assumption |].
    now apply (getAllNeighbors_valid P g). }
  assert (Hinzone : In (posKey q)
                      (safeZoneFrom [posKey P] (getAllNeighbors P g))).
  { apply Hzone. destruct Hq as [-> | Hq]; [left; now left |].
    right. now apply in_map. }
  assert (Hnot : setHas M (posKey q) = false).
  { destruct (setHas M (posKey q)) eqn:E; trivial.
    apply setHas_In in E. now apply Hsafe in E. }
  pose proof (get_mineView (Minesweeper.placeMines rnd cells0 P g t) (posKey q))
    as Hget.
  rewrite Hview, (get_keyed (fun p => setHas M (posKey p))) in Hget
    by now apply In_allPositions.
  rewrite Hnot in Hget.
  destruct (JsMap.get (Minesweeper.placeMines rnd cells0 P g t) (posKey q))
    as [c |]; [| discriminate].
  exists c. split; [reflexivity |]. simpl in Hget. congruence.
Qed.

Lemma filter_none {A : Type} (f : A -> bool) l :
  (forall a, In a l -> f a = false) -> filter f l = [].
Proof.
  induction l as [| a l IH]; simpl; trivial.
  intros H. rewrite (H a) by now left. apply IH. intros b Hb. apply H. now right.
Qed.

(** X19.  The first click opens a region.  On a fresh board (no click
    yet, no mine laid) with [totalMines >= 0], a reveal that
    [isValidAction] accepts, at a position [P] of the grid, sets off no
    mine; in the state returned the cell at [P] is revealed and has the
    number 0, and every position of [getAllNeighbors P] has a cell that is
    revealed, or flagged. *)
Theorem minesweeper_first_click_opens_neighbourhood (rnd : RandomSource)
  (state : Minesweeper.MinesweeperGameState) (P : CubePosition) :
  freshBoard state ->
  validPosition (Minesweeper.gridSize state) P ->
  0 <= Minesweeper.totalMines state ->
  Minesweeper.isValidAction state (Minesweeper.Reveal P) = true ->
  exists state',
    Minesweeper.applyAction rnd state (Minesweeper.Reveal P) = Some state' /\
    Minesweeper.explodedMine state' = None /\
    (exists c,
        JsMap.get (Minesweeper.cells state') (posKey P) = Some c /\
        Minesweeper.isRevealed c = true /\ Minesweeper.adjacentMines c = 0) /\
    (forall n, In n (getAllNeighbors P (Minesweeper.gridSize state)) ->
               exists c,
                 JsMap.get (Minesweeper.cells state') (posKey n) = Some c /\
                 (Minesweeper.isRevealed c = true \/
                  Minesweeper.isFlagged c = true)).
Proof.
  intros [Hfirst [Hover Hfresh]] HP Ht Hvalid.
  set (g := Minesweeper.gridSize state) in *.
  assert (Hnd : NoDup (JsMap.keys (Minesweeper.cells state))).
  { rewrite <- keys_mineView, Hfresh. unfold JsMap.keys. rewrite map_map.
    apply NoDup_posKeys, NoDup_allPositions. }
  unfold Minesweeper.isValidAction in Hvalid. rewrite Hover in Hvalid.
  cbn [Minesweeper.payload] in Hvalid.
  destruct (JsMap.get (Minesweeper.cells state) (posKey P)) as [c0 |] eqn:Hc0;
    [| discriminate].
  apply andb_true_iff in Hvalid. destruct Hvalid as [Hrev0 Hflag0].
  apply negb_true_iff in Hrev0, Hflag0.
  unfold Minesweeper.applyAction. rewrite Hover, Hfirst. fold g.
  set (mined := Minesweeper.placeMines _ _ _ _ _).
  destruct (placeMines_spec rnd (Minesweeper.cells state) P g
              (Minesweeper.totalMines state) Hnd) as [Hcover Hnumbers].
  fold mined in Hcover, Hnumbers.
  assert (Hzone : forall q, q = P \/ In q (getAllNeighbors P g) ->
                            exists c, JsMap.get mined (posKey q) = Some c /\
                                      Minesweeper.isMine c = false).
  { intros q Hq. now apply placeMines_safe. }
  destruct (Hzone P (or_introl eq_refl)) as [cP [HcP HmineP]].
  pose proof (cellsRelated_get _ _ _ (posKey P) Hcover) as HcoverP.
  rewrite Hc0, HcP in HcoverP. destruct HcoverP as [HrevP HflagP].
  assert (HzeroP : Minesweeper.adjacentMines cP = 0).
  { rewrite (Hnumbers _ _ HcP HmineP).
    unfold Minesweeper.countAdjacentMines.
    destruct HP as [HPx HPy]. rewrite parseKey_posKey by lia.
    rewrite filter_none; trivial.
    intros n Hn. destruct (Hzone n (or_intror Hn)) as [cn [Hcn Hminen]].
    unfold Minesweeper.mineAt. now rewrite Hcn. }
  destruct (revealCell_total mined P g) as [r [Hr _]]. rewrite Hr.
  eexists. split; [reflexivity |].
  cbn [Minesweeper.explodedMine Minesweeper.cells].
  destruct (revealCell_spec _ _ _ _ Hr) as [Hrel [_ [Hhit Hsafe]]].
  assert (Hno : Minesweeper.hitMine r = false).
  { destruct (Minesweeper.hitMine r); trivial.
    destruct (Hhit eq_refl) as [c [Hget [Hc _]]]. congruence. }
  destruct (Hsafe Hno) as [_ [Hopen [Hsettled Hzero]]].
  rewrite Hno. split; [reflexivity |].
  assert (Hafter : forall q c,
             JsMap.get mined (posKey q) = Some c ->
             Minesweeper.isMine c = false ->
             keySettled (Minesweeper.resultCells r) (posKey q) ->
             exists c',
               JsMap.get (Minesweeper.resultCells r) (posKey q) = Some c' /\
               Minesweeper.adjacentMines c' = Minesweeper.adjacentMines c /\
               Minesweeper.isFlagged c' = Minesweeper.isFlagged c /\
               (Minesweeper.isRevealed c' = true \/
                Minesweeper.isFlagged c' = true)).
  { intros q c Hc Hmine Hq.
    pose proof (cellsRelated_get _ _ _ (posKey q) Hrel) as Hget.
    rewrite Hc in Hget. unfold keySettled in Hq.
    destruct (JsMap.get (Minesweeper.resultCells r) (posKey q)) as [c' |];
      [| contradiction].
    apply uncovered_fields in Hget. destruct Hget as [Hm [Hf [Ha _]]].
    exists c'. repeat split; trivial.
    destruct Hq as [H | [H | H]]; auto. congruence. }
  destruct (Hafter P cP HcP HmineP Hsettled) as [cP' [HcP' [HaP' [HfP' HoP']]]].
  assert (HrevP' : Minesweeper.isRevealed cP' = true).
  { destruct HoP' as [H | H]; trivial. congruence. }
  split.
  - exists cP'. repeat split; trivial. congruence.
  - intros n Hn. destruct (Hzone n (or_intror Hn)) as [cn [Hcn Hminen]].
    destruct (Hafter n cn Hcn Hminen) as [cn' [Hcn' [_ [_ Hon']]]].
    + apply (Hzero P cP cP'); trivial; congruence.
    + exists cn'. split; trivial.
Qed.

Lemma minesweeper_first_click_opens_neighbourhood_witness :
  exists state',
    Minesweeper.applyAction (fun k => k)
      (Minesweeper.init Minesweeper.DEFAULT_CONFIG)
      (Minesweeper.Reveal (mkCubePosition FRONT 3 3)) = Some state' /\
    Minesweeper.explodedMine state' = None /\
    (exists c,
        JsMap.get (Minesweeper.cells state') (posKey (mkCubePosition FRONT 3 3))
        = Some c /\
        Minesweeper.isRevealed c = true /\ Minesweeper.adjacentMines c = 0) /\
    (forall n, In n (getAllNeighbors (mkCubePosition FRONT 3 3) 8) ->
               exists c,
                 JsMap.get (Minesweeper.cells state') (posKey n) = Some c /\
                 (Minesweeper.isRevealed c = true \/
                  Minesweeper.isFlagged c = true)).
Proof.
  apply (minesweeper_first_click_opens_neighbourhood (fun k => k)
           (Minesweeper.init Minesweeper.DEFAULT_CONFIG)
           (mkCubePosition FRONT 3 3)).
  - apply init_fresh.
  - unfold validPosition; simpl; lia.
  - simpl; lia.
  - vm_compute. reflexivity.
Defined.
(** ** The valid actions *)

Lemma cellActions_payload p c a :
  In a (Minesweeper.cellActions p c) -> Minesweeper.payload a = p.
Proof.
  unfold Minesweeper.cellActions. intros H.
  apply in_app_or in H. destruct H as [H | H];
    [| apply in_app_or in H; destruct H as [H | H]];
    match type of H with
    | In _ (if ?b then _ else _) =>
        destruct b; [destruct H as [<- | []]; reflexivity | destruct H]
    end.
Qed.

Lemma cellActions_valid c a :
  In a (Minesweeper.cellActions (Minesweeper.payload a) c) <->
  match a with
  | Minesweeper.Reveal _ =>
      negb (Minesweeper.isRevealed c) && negb (Minesweeper.isFlagged c)
  | Minesweeper.Flag _ => negb (Minesweeper.isRevealed c)
  | Minesweeper.Chord _ =>
      Minesweeper.isRevealed c && (Minesweeper.adjacentMines c >? 0)
  end = true.
Proof.
  unfold Minesweeper.cellActions.
  destruct a as [p | p | p]; cbn [Minesweeper.payload];
    destruct (Minesweeper.isRevealed c), (Minesweeper.isFlagged c),
      (Minesweeper.adjacentMines c >? 0); simpl;
    intuition (try discriminate; try congruence).
Qed.

Lemma actionsOf_spec entries :
  (forall k c, In (k, c) entries ->
               exists p, k = posKey p /\ 0 <= x p /\ 0 <= y p) ->
  exists actions,
    Minesweeper.actionsOf entries = Some actions /\
    forall a, In a actions <->
              exists c, In (posKey (Minesweeper.payload a), c) entries /\
                        In a (Minesweeper.cellActions (Minesweeper.payload a) c).
Proof.
  induction entries as [| [k c] entries IH]; intros Hkeys;
    cbn [Minesweeper.actionsOf].
  - exists []. split; trivial. intros a. split; [intros [] | intros [c [[] _]]].
  - destruct (Hkeys k c (or_introl eq_refl)) as [p [-> [Hx Hy]]].
    rewrite parseKey_posKey by assumption.
    destruct IH as [actions [-> Hin]].
    { intros k' c' H. apply (Hkeys k' c'). now right. }
    eexists. split; [reflexivity |].
    intros a. rewrite in_app_iff, Hin. split.
    + intros [Ha | [c' [Hc' Ha]]].
      * exists c. pose proof (cellActions_payload _ _ _ Ha) as ->.
        split; [now left | assumption].
      * exists c'. split; [now right | assumption].
    + intros [c' [[Heq | Hc'] Ha]].
      * injection Heq as Hk <-. apply posKey_inj in Hk. rewrite <- Hk in Ha.
        now left.
      * right. now exists c'.
Qed.

(** X20.  [getValidActions] lists exactly the valid actions.  On a board
    whose cell map has one cell for each position of the grid, the list it
    returns holds an action if and only if [isValidAction] accepts that
    action; it is empty once the game is over. *)
Theorem minesweeper_getValidActions_exact
  (state : Minesweeper.MinesweeperGameState) :
  onBoard state ->
  exists actions,
    Minesweeper.getValidActions state = Some actions /\
    (forall a, In a actions <-> Minesweeper.isValidAction state a = true) /\
    (Minesweeper.isGameOver state = true -> actions = []).
Proof.
  unfold onBoard. intros Hboard.
  unfold Minesweeper.getValidActions, Minesweeper.isValidAction.
  destruct (Minesweeper.isGameOver state).
  { exists []. split; trivial. split; trivial.
    intros a. split; [intros [] | discriminate]. }
  assert (Hnd : NoDup (JsMap.keys (Minesweeper.cells state))).
  { rewrite Hboard. apply NoDup_posKeys, NoDup_allPositions. }
  destruct (actionsOf_spec (Minesweeper.cells state)) as [actions [Hrun Hin]].
  { intros k c Hkc.
    assert (Hk : In k (JsMap.keys (Minesweeper.cells state)))
      by (change k with (fst (k, c)); now apply in_map).
    rewrite Hboard in Hk. apply in_map_iff in Hk. destruct Hk as [p [<- Hp]].
    apply In_allPositions in Hp. destruct Hp as [Hx Hy].
    exists p. split; trivial. lia. }
  exists actions. split; [exact Hrun |]. split; [| discriminate].
  intros a. rewrite Hin. split.
  - intros [c [Hc Ha]]. rewrite (get_In _ _ c Hnd Hc).
    apply cellActions_valid in Ha. destruct a; exact Ha.
  - destruct (JsMap.get (Minesweeper.cells state)
                (posKey (Minesweeper.payload a))) as [c |] eqn:Hget;
      [| discriminate].
    intros Ha. exists c. split; [now apply get_Some_In |].
    apply cellActions_valid. destruct a; exact Ha.
Qed.

Lemma minesweeper_getValidActions_exact_witness :
  exists actions,
    Minesweeper.getValidActions (Minesweeper.init Minesweeper.DEFAULT_CONFIG)
    = Some actions /\
    (forall a, In a actions <->
               Minesweeper.isValidAction
                 (Minesweeper.init Minesweeper.DEFAULT_CONFIG) a = true) /\
    (Minesweeper.isGameOver (Minesweeper.init Minesweeper.DEFAULT_CONFIG) = true ->
     actions = []).
Proof.
  apply (minesweeper_getValidActions_exact
           (Minesweeper.init Minesweeper.DEFAULT_CONFIG)).
  unfold onBoard. rewrite init_cells. unfold JsMap.keys. rewrite map_map.
  reflexivity.
Defined.

(** ** A board that is won *)

Lemma cleared_count m :
  noRevealedMine m ->
  (revealedCells m + Minesweeper.countMines m <= length m)%nat /\
  ((revealedCells m + Minesweeper.countMines m)%nat = length m ->
   forall k c, In (k, c) m ->
               Minesweeper.isRevealed c = negb (Minesweeper.isMine c)).
Proof.
  unfold noRevealedMine, revealedCells, Minesweeper.countMines.
  induction 1 as [| [k0 c0] m Hc0 _ [IHle IHeq]]; cbn [filter snd length].
  - split; [lia | intros _ k c []].
  - simpl in Hc0.
    destruct (Minesweeper.isRevealed c0) eqn:Hr, (Minesweeper.isMine c0) eqn:Hm;
      cbn [length]; try (specialize (Hc0 eq_refl); discriminate).
    + split; [lia |]. intros Hlen k c [[= <- <-] | Hin].
      * now rewrite Hr, Hm.
      * apply (IHeq ltac:(lia) k c Hin).
    + split; [lia |]. intros Hlen k c [[= <- <-] | Hin].
      * now rewrite Hr, Hm.
      * apply (IHeq ltac:(lia) k c Hin).
    + split; [lia |]. intros Hlen. lia.
Qed.

(** X21.  A game that is won has cleared the board.  In a well-kept
    state with [isWon], whose cell map has [6 * gridSize^2] cells of which
    [totalMines] hold a mine, every cell without a mine is revealed and no
    mine is revealed. *)
Theorem minesweeper_won_board_is_cleared
  (state : Minesweeper.MinesweeperGameState) :
  wellKept state ->
  Minesweeper.isWon state = true ->
  Z.of_nat (length (Minesweeper.cells state))
  = 6 * Minesweeper.gridSize state * Minesweeper.gridSize state ->
  Z.of_nat (Minesweeper.countMines (Minesweeper.cells state))
  = Minesweeper.totalMines state ->
  forall k c, In (k, c) (Minesweeper.cells state) ->
              Minesweeper.isRevealed c = negb (Minesweeper.isMine c).
Proof.
  intros [_ [[Hrev _] [Hwon [_ Hmines]]]] Hw Hlen Hcount.
  destruct (Hwon Hw) as [_ Hle].
  destruct (cleared_count (Minesweeper.cells state)) as [Hsum Hall]; [auto |].
  apply Hall. lia.
Qed.

Lemma clearedBoard_run :
  Minesweeper.applyAction (fun k => k)
    (Minesweeper.init (Minesweeper.mkMinesweeperConfig 2 1))
    (Minesweeper.Reveal (mkCubePosition FRONT 0 0)) = Some clearedBoard.
Proof.
  unfold clearedBoard, firstClickOn.
  destruct (minesweeper_applyAction_total (fun k => k)
              (Minesweeper.init (Minesweeper.mkMinesweeperConfig 2 1))
              (Minesweeper.Reveal (mkCubePosition FRONT 0 0))) as [s ->].
  reflexivity.
Qed.

Lemma minesweeper_won_board_is_cleared_witness :
  Minesweeper.isWon clearedBoard = true /\
  forall k c, In (k, c) (Minesweeper.cells clearedBoard) ->
              Minesweeper.isRevealed c = negb (Minesweeper.isMine c).
Proof.
  split; [vm_compute; reflexivity |].
  apply (minesweeper_won_board_is_cleared clearedBoard).
  - apply (wellKept_step (fun k => k)
             (Minesweeper.init (Minesweeper.mkMinesweeperConfig 2 1))
             (Minesweeper.Reveal (mkCubePosition FRONT 0 0))).
    + apply init_wellKept.
    + apply clearedBoard_run.
  - vm_compute. reflexivity.
  - vm_compute. reflexivity.
  - vm_compute. reflexivity.
Defined.

(* ===================================================================== *)
(** * Further properties of Tetris *)
(* ===================================================================== *)

(** ** The current piece lies on free cells *)

Lemma cellsFree_same state state' cells :
  Tetris.grid state' = Tetris.grid state ->
  Tetris.width state' = Tetris.width state ->
  Tetris.depth state' = Tetris.depth state ->
  Tetris.height state' = Tetris.height state ->
  Tetris.cellsFree state' cells = Tetris.cellsFree state cells.
Proof.
  intros Hg Hw Hd Hh. induction cells as [| cell rest IH]; cbn [Tetris.cellsFree];
    trivial.
  unfold Tetris.inBounds. rewrite Hg, Hw, Hd, Hh, IH. reflexivity.
Qed.

Lemma isValidPosition_same state state' piece :
  Tetris.grid state' = Tetris.grid state ->
  Tetris.width state' = Tetris.width state ->
  Tetris.depth state' = Tetris.depth state ->
  Tetris.height state' = Tetris.height state ->
  Tetris.isValidPosition state' piece = Tetris.isValidPosition state piece.
Proof. intros. now apply cellsFree_same. Qed.

Lemma pieceFree_withPiece state piece :
  Tetris.isValidPosition state piece = Some true ->
  pieceFree (Tetris.withPiece state piece).
Proof.
  intros Hok p [= <-].
  rewrite (isValidPosition_same state); trivial.
Qed.

Lemma tryKicks_free state newPiece ks state' :
  pieceFree state ->
  Tetris.tryKicks state newPiece ks = Some state' -> pieceFree state'.
Proof.
  intros Hfree. induction ks as [| kick rest IH]; cbn [Tetris.tryKicks].
  - intros Hrun. apply some_eq in Hrun. now subst.
  - destruct (Tetris.isValidPosition state (Tetris.translate newPiece kick))
      as [[] |] eqn:Hok; cbn [Tetris.andThen]; [| exact IH | discriminate].
    intros Hrun. apply some_eq in Hrun. subst state'.
    now apply pieceFree_withPiece.
Qed.

Lemma lockPiece_free rnd state state' :
  pieceFree state -> Tetris.lockPiece rnd state = Some state' -> pieceFree state'.
Proof.
  intros Hfree. unfold Tetris.lockPiece.
  destruct (Tetris.currentPiece state) as [piece |] eqn:Hpiece.
  2: { intros Hrun. apply some_eq in Hrun. now subst. }
  cbv zeta.
  destruct (Tetris.placeCells _ _ _ _) as [stamped |]; [| discriminate].
  cbn [Tetris.andThen].
  destruct (Tetris.completedLayersIn _ _ _ _) as [completed |]; [| discriminate].
  cbn [Tetris.andThen].
  match goal with
  | |- context [Tetris.isValidPosition ?s ?p] =>
      destruct (Tetris.isValidPosition s p) as [ok |] eqn:Hok; [| discriminate]
  end.
  cbn [Tetris.andThen].
  intros Hrun. apply some_eq in Hrun. subst state'.
  intros p. cbn [Tetris.currentPiece].
  destruct ok; cbn [negb]; [| discriminate].
  intros Hp. apply some_eq in Hp. subst p.
  rewrite <- Hok. now apply isValidPosition_same.
Qed.

Lemma dropWhileFree_free state : forall fuel piece distance landed distance',
  Tetris.isValidPosition state piece = Some true ->
  Tetris.dropWhileFree fuel state piece distance = Some (landed, distance') ->
  Tetris.isValidPosition state landed = Some true.
Proof.
  induction fuel as [| fuel IH]; intros piece distance landed distance' Hok;
    cbn [Tetris.dropWhileFree]; [discriminate |].
  destruct (Tetris.isValidPosition state (Tetris.lowered piece))
    as [[] |] eqn:Hlow; cbn [Tetris.andThen]; [| | discriminate].
  - now apply IH.
  - intros [= <- _]. exact Hok.
Qed.

Lemma pieceFree_step rnd state action state' :
  pieceFree state ->
  action <> Tetris.Hold ->
  Tetris.applyAction rnd state action = Some state' ->
  pieceFree state'.
Proof.
  intros Hfree Hhold.
  assert (Hsame : Some state = Some state' -> pieceFree state')
    by (intros Hrun; apply some_eq in Hrun; now subst).
  destruct action as [direction | axis | [] | | | |]; cbn [Tetris.applyAction].
  - unfold Tetris.movePiece.
    destruct (Tetris.currentPiece state) as [piece |]; trivial. cbv zeta.
    match goal with
    | |- context [Tetris.isValidPosition state ?p] =>
        destruct (Tetris.isValidPosition state p) as [[] |] eqn:Hok;
          cbn [Tetris.andThen]; trivial; [| discriminate]
    end.
    intros Hrun. apply some_eq in Hrun. subst state'.
    now apply pieceFree_withPiece.
  - unfold Tetris.rotatePiece.
    destruct (Tetris.currentPiece state) as [piece |]; trivial. cbv zeta.
    match goal with
    | |- context [Tetris.isValidPosition state ?p] =>
        destruct (Tetris.isValidPosition state p) as [[] |] eqn:Hok;
          cbn [Tetris.andThen]; [| | discriminate]
    end.
    + intros Hrun. apply some_eq in Hrun. subst state'.
      now apply pieceFree_withPiece.
    + now apply tryKicks_free.
  - unfold Tetris.softDrop.
    destruct (Tetris.currentPiece state) as [piece |]; trivial. cbv zeta.
    destruct (Tetris.isValidPosition state (Tetris.lowered piece))
      as [[] |] eqn:Hok; cbn [Tetris.andThen]; trivial; [| discriminate].
    intros Hrun. apply some_eq in Hrun. subst state'.
    intros p [= <-]. rewrite <- Hok. now apply isValidPosition_same.
  - unfold Tetris.hardDrop.
    destruct (Tetris.currentPiece state) as [piece |] eqn:Hpiece; trivial.
    destruct (Tetris.dropWhileFree _ state piece 0) as [[landed distance] |]
      eqn:Hdrop; [| discriminate].
    cbn [Tetris.andThen]. apply lockPiece_free.
    intros p [= <-].
    rewrite <- (dropWhileFree_free state _ piece 0 landed distance
                  (Hfree piece Hpiece) Hdrop).
    now apply isValidPosition_same.
  - unfold Tetris.tick.
    destruct (Tetris.currentPiece state) as [piece |]; trivial.
    destruct (Tetris.isPaused state); trivial. cbv zeta.
    destruct (Tetris.isValidPosition state (Tetris.lowered piece))
      as [[] |] eqn:Hok; cbn [Tetris.andThen]; [| | discriminate].
    + intros Hrun. apply some_eq in Hrun. subst state'.
      now apply pieceFree_withPiece.
    + now apply lockPiece_free.
  - contradiction.
  - intros Hrun. apply some_eq in Hrun. subst state'.
    intros p Hp. rewrite <- (Hfree p Hp). now apply isValidPosition_same.
  - intros Hrun. apply some_eq in Hrun. subst state'.
    intros p Hp. rewrite <- (Hfree p Hp). now apply isValidPosition_same.
Qed.

Lemma init_pieceFree rnd : pieceFree (Tetris.init rnd).
Proof.
  intros p. unfold Tetris.init. cbn [Tetris.currentPiece].
  intros Hp. apply some_eq in Hp. subst p.
  unfold Tetris.randomTetracube.
  pose proof (Nat.mod_upper_bound (rnd 0%nat) (length Tetris.TETRACUBE_TYPES))
    as Hlt.
  unfold randomBelow.
  set (i := Nat.modulo (rnd 0%nat) (length Tetris.TETRACUBE_TYPES)) in *.
  specialize (Hlt ltac:(discriminate)). change (length _) with 9%nat in Hlt.
  do 9 (destruct i as [| i]; [vm_compute; reflexivity |]). lia.
Qed.

(** [hold] spawns the held piece, or the next one, without looking at the
    grid: on [blockedSpawn], whose piece lies on free cells, it returns a
    state whose piece lies on a filled cell. *)
Lemma hold_spawns_unchecked rnd :
  wellFormed blockedSpawn /\ pieceFree blockedSpawn /\
  exists state',
    Tetris.applyAction rnd blockedSpawn Tetris.Hold = Some state' /\
    Tetris.isValidPosition state' (Tetris.spawnPiece Tetris.cube_O) = Some false /\
    Tetris.currentPiece state' = Some (Tetris.spawnPiece Tetris.cube_O).
Proof.
  split.
  { split; [reflexivity |].
    repeat (constructor; [split; [reflexivity | repeat constructor] |]).
    constructor. }
  split.
  { intros p Hp. apply some_eq in Hp. subst p. vm_compute. reflexivity. }
  eexists. split; [reflexivity |]. split; [vm_compute; reflexivity | reflexivity].
Qed.
(** X22.  The current piece lies on free cells.  If the current piece,
    when there is one, lies within the well on cells that are not filled
    (which [isValidPosition] checks), then so does the current piece of the
    state returned by any action other than [hold].  The state built by
    [init] is such a state ([init_pieceFree]).  [hold] spawns the held
    piece without looking at the grid ([hold_spawns_unchecked]). *)
Theorem tetris_piece_stays_free (rnd : RandomSource)
  (state state' : Tetris.Tetris3DGameState) (action : Tetris.Tetris3DAction) :
  pieceFree state ->
  action <> Tetris.Hold ->
  Tetris.applyAction rnd state action = Some state' ->
  pieceFree state'.
Proof. apply pieceFree_step. Qed.

Lemma tetris_piece_stays_free_witness :
  exists state',
    Tetris.applyAction (fun k => k) (Tetris.init (fun k => k))
      (Tetris.Drop Tetris.hard) = Some state' /\
    pieceFree state'.
Proof.
  destruct (tetris_applyAction_total (fun k => k) (Tetris.init (fun k => k))
              (Tetris.Drop Tetris.hard) (init_wellFormed (fun k => k)))
    as [state' [Hrun _]].
  exists state'. split; [exact Hrun |].
  apply (tetris_piece_stays_free (fun k => k) (Tetris.init (fun k => k)) state'
           (Tetris.Drop Tetris.hard)).
  - apply init_pieceFree.
  - discriminate.
  - exact Hrun.
Defined.

(** ** The ghost and the hard drop *)

Lemma sunk_lowered piece n : Tetris.lowered (sunk piece n) = sunk piece (n + 1).
Proof.
  unfold Tetris.lowered, sunk. cbn [Tetris.type Tetris.position Tetris.x
    Tetris.y Tetris.z Tetris.rotationX Tetris.rotationY Tetris.rotationZ].
  do 2 f_equal. lia.
Qed.

Lemma sunk_0 piece : sunk piece 0 = piece.
Proof.
  destruct piece as [t [px py pz] rx ry rz]. unfold sunk. simpl.
  now rewrite Z.sub_0_r.
Qed.

(** The loops of [getGhostPosition] and of [hardDrop] from the same piece,
    [n] cells down. *)
Lemma ghost_and_drop state piece : forall fuel n distance,
  0 <= n ->
  match Tetris.ghostWhileFree fuel state (sunk piece n) with
  | Some ghost =>
      exists m,
        n <= m /\ ghost = sunk piece m /\
        Tetris.isValidPosition state (sunk piece (m + 1)) = Some false /\
        (forall i, n < i <= m ->
                   Tetris.isValidPosition state (sunk piece i) = Some true) /\
        Tetris.dropWhileFree fuel state (sunk piece n) distance
        = Some (ghost, distance + (m - n))
  | None => Tetris.dropWhileFree fuel state (sunk piece n) distance = None
  end.
Proof.
  induction fuel as [| fuel IH]; intros n distance Hn;
    cbn [Tetris.ghostWhileFree Tetris.dropWhileFree]; trivial.
  rewrite sunk_lowered.
  destruct (Tetris.isValidPosition state (sunk piece (n + 1)))
    as [[] |] eqn:Hok; cbn [Tetris.andThen]; trivial.
  - specialize (IH (n + 1) (distance + 1) ltac:(lia)).
    destruct (Tetris.ghostWhileFree fuel state (sunk piece (n + 1)))
      as [ghost |]; trivial.
    destruct IH as [m [Hm [Hghost [Hrest [Hfree Hdrop]]]]].
    exists m. split; [lia |]. split; trivial. split; trivial.
    split.
    + intros i Hi. destruct (Z.eq_dec i (n + 1)) as [-> | Hne]; trivial.
      apply Hfree. lia.
    + rewrite Hdrop. do 2 f_equal. lia.
  - exists n. split; [lia |]. split; trivial. split; trivial.
    split; [intros i Hi; lia |]. do 2 f_equal. lia.
Qed.

(** X23.  The ghost is where a hard drop locks the piece.  On a
    well-formed state with a current piece, [getGhostPosition] returns the
    piece moved [m >= 0] cells down, the first [m] for which the piece one
    cell lower is not in a valid position; and the [drop] action with
    payload [hard] returns what [lockPiece] returns for the state whose
    current piece is that ghost and whose score is [2 * m] higher. *)
Theorem tetris_hard_drop_locks_at_ghost (rnd : RandomSource)
  (state : Tetris.Tetris3DGameState) (piece : Tetris.FallingPiece3D) :
  wellFormed state ->
  Tetris.currentPiece state = Some piece ->
  exists m,
    0 <= m /\
    Tetris.getGhostPosition state = Some (Some (sunk piece m)) /\
    Tetris.isValidPosition state (sunk piece (m + 1)) = Some false /\
    (forall i, 0 < i <= m ->
               Tetris.isValidPosition state (sunk piece i) = Some true) /\
    Tetris.applyAction rnd state (Tetris.Drop Tetris.hard)
    = Tetris.lockPiece rnd
        (Tetris.withScore (Tetris.withPiece state (sunk piece m))
           (Tetris.score state + m * 2)).
Proof.
  intros Hwf Hpiece.
  set (fuel := S (Z.to_nat (Tetris.y (Tetris.position piece) + 4))).
  destruct (dropWhileFree_total state fuel piece 0 Hwf)
    as [landed [distance Hdrop]]; [unfold fuel; lia | unfold fuel; lia |].
  pose proof (ghost_and_drop state piece fuel 0 0 ltac:(lia)) as Hghost.
  rewrite sunk_0 in Hghost.
  destruct (Tetris.ghostWhileFree fuel state piece) as [ghost |] eqn:Hrun;
    [| congruence].
  destruct Hghost as [m [Hm [-> [Hrest [Hfree Hdrop']]]]].
  exists m. split; [exact Hm |].
  unfold Tetris.getGhostPosition, Tetris.applyAction, Tetris.hardDrop.
  rewrite Hpiece. fold fuel. rewrite Hrun, Hdrop'. cbn [Tetris.andThen].
  split; [reflexivity |]. split; [exact Hrest |]. split; [exact Hfree |].
  do 3 f_equal. lia.
Qed.

Lemma tetris_hard_drop_locks_at_ghost_witness :
  exists m,
    0 <= m /\
    Tetris.getGhostPosition (Tetris.init (fun k => k))
    = Some (Some (sunk (Tetris.spawnPiece Tetris.cube_I) m)) /\
    Tetris.isValidPosition (Tetris.init (fun k => k))
      (sunk (Tetris.spawnPiece Tetris.cube_I) (m + 1)) = Some false /\
    (forall i, 0 < i <= m ->
               Tetris.isValidPosition (Tetris.init (fun k => k))
                 (sunk (Tetris.spawnPiece Tetris.cube_I) i) = Some true) /\
    Tetris.applyAction (fun k => k) (Tetris.init (fun k => k))
      (Tetris.Drop Tetris.hard)
    = Tetris.lockPiece (fun k => k)
        (Tetris.withScore
           (Tetris.withPiece (Tetris.init (fun k => k))
              (sunk (Tetris.spawnPiece Tetris.cube_I) m))
           (Tetris.score (Tetris.init (fun k => k)) + m * 2)).
Proof.
  apply (tetris_hard_drop_locks_at_ghost (fun k => k) (Tetris.init (fun k => k))
           (Tetris.spawnPiece Tetris.cube_I)).
  - apply init_wellFormed.
  - reflexivity.
Defined.

(** ** The valid actions *)

(** X24.  [getValidActions] lists only actions that [isValidAction]
    accepts, but not all of them: the valid actions it leaves out are the
    rotations about a negative axis, and [hold] when [canHold] is false. *)
Theorem tetris_getValidActions_sound_not_complete
  (state : Tetris.Tetris3DGameState) (action : Tetris.Tetris3DAction) :
  In action (Tetris.getValidActions state) <->
  Tetris.isValidAction state action = true /\
  match action with
  | Tetris.Rotate Tetris.rot_x_neg | Tetris.Rotate Tetris.rot_y_neg
  | Tetris.Rotate Tetris.rot_z_neg => False
  | Tetris.Hold => Tetris.canHold state = true
  | _ => True
  end.
Proof.
  unfold Tetris.getValidActions, Tetris.isValidAction.
  destruct (Tetris.isGameOver state); [simpl; intuition discriminate |].
  destruct (Tetris.isPaused state), (Tetris.currentPiece state) as [piece |],
    (Tetris.canHold state);
    destruct action as [[] | [] | [] | | | |]; simpl;
    intuition (try discriminate; try congruence).
Qed.

(* ===================================================================== *)
(** * Further properties of Nonogram *)
(* ===================================================================== *)

(** ** Clues *)

Lemma clueTotal_app a b : clueTotal (a ++ b) = clueTotal a + clueTotal b.
Proof.
  unfold clueTotal. induction a as [| n a IH]; simpl; [reflexivity |].
  rewrite IH. lia.
Qed.

Lemma lineGroups_spec line : forall currentGroup clue,
  0 <= currentGroup ->
  let result := Nonogram.lineGroups line currentGroup clue in
  clueTotal result = clueTotal clue + currentGroup + filledIn line /\
  (Forall (fun n => 0 < n) clue -> Forall (fun n => 0 < n) result) /\
  clueTotal result + Z.of_nat (length result)
  <= clueTotal clue + Z.of_nat (length clue) + currentGroup
     + Z.of_nat (length line) + 1 /\
  (currentGroup = 0 -> filledIn line = 0 -> result = clue).
Proof.
  unfold filledIn.
  induction line as [| cell rest IH]; intros currentGroup clue Hcur;
    cbn [Nonogram.lineGroups].
  - cbn [filter length]. destruct (Z.gtb_spec currentGroup 0) as [Hpos | Hzero].
    + rewrite clueTotal_app, length_app. cbn [clueTotal fold_right length].
      split; [lia |]. split; [| split; [lia | lia]].
      intros H. apply Forall_app. split; trivial. now constructor.
    + split; [simpl; lia |]. split; trivial. split; [simpl; lia | trivial].
  - destruct cell; cbn [filter length].
    + specialize (IH (currentGroup + 1) clue ltac:(lia)). cbv zeta in IH.
      destruct IH as [Hsum [Hpos [Hroom _]]].
      split; [rewrite Hsum; lia |]. split; trivial. split; [lia |].
      intros _ H. rewrite Nat2Z.inj_succ in H. lia.
    + destruct (Z.gtb_spec currentGroup 0) as [Hgt | Hzero].
      * specialize (IH 0 (clue ++ [currentGroup]) ltac:(lia)). cbv zeta in IH.
        rewrite clueTotal_app, length_app in IH.
        cbn [clueTotal fold_right length] in IH.
        destruct IH as [Hsum [Hpos [Hroom _]]].
        split; [lia |]. split; [| split; [lia | lia]].
        intros H. apply Hpos, Forall_app. split; trivial. now constructor.
      * specialize (IH currentGroup clue Hcur). cbv zeta in IH.
        destruct IH as [Hsum [Hpos [Hroom Hnone]]].
        split; [lia |]. split; trivial. split; [lia | trivial].
Qed.

Lemma calculateLineClue_spec line :
  let clue := Nonogram.calculateLineClue line in
  clueTotal clue = filledIn line /\
  (filledIn line = 0 -> clue = [0]) /\
  (0 < filledIn line -> Forall (fun n => 0 < n) clue) /\
  clueTotal clue + Z.of_nat (length clue) - 1 <= Z.of_nat (length line).
Proof.
  unfold Nonogram.calculateLineClue.
  destruct (lineGroups_spec line 0 [] ltac:(lia)) as [Hsum [Hpos [Hroom Hnone]]].
  cbv zeta in *. cbn [clueTotal fold_right length] in Hsum, Hroom.
  destruct (Nonogram.lineGroups line 0 []) as [| n clue] eqn:Hclue.
  - cbn [clueTotal fold_right length] in *.
    split; [lia |]. split; [reflexivity |]. split; [lia | lia].
  - split; [lia |]. split; [| split; [| lia]].
    + intros H. specialize (Hnone eq_refl H). discriminate.
    + intros _. apply Hpos. constructor.
Qed.

(** X25.  A clue counts the filled cells of its line.  The numbers of the
    clue that [calculateLineClue] gives for a line add up to the number of
    filled cells of the line; the clue of a line without filled cell is
    [[0]], and every number of any other clue is positive; the groups fit
    in the line with a gap between them: the total plus the number of
    groups, minus one, is at most the length of the line. *)
Theorem nonogram_clue_counts_filled_cells (line : list bool) :
  clueTotal (Nonogram.calculateLineClue line) = filledIn line /\
  (filledIn line = 0 -> Nonogram.calculateLineClue line = [0]) /\
  (0 < filledIn line ->
   Forall (fun n => 0 < n) (Nonogram.calculateLineClue line)) /\
  clueTotal (Nonogram.calculateLineClue line)
  + Z.of_nat (length (Nonogram.calculateLineClue line)) - 1
  <= Z.of_nat (length line).
Proof. apply calculateLineClue_spec. Qed.
Lemma clueTotal_map_ext {A : Type} (f g : A -> Z) l :
  (forall a, In a l -> f a = g a) ->
  clueTotal (map f l) = clueTotal (map g l).
Proof.
  intros H. f_equal. apply map_ext_in. exact H.
Qed.

Lemma clueTotal_map_add {A : Type} (f g : A -> Z) l :
  clueTotal (map (fun a => f a + g a) l)
  = clueTotal (map f l) + clueTotal (map g l).
Proof.
  unfold clueTotal. induction l as [| a l IH]; simpl; [reflexivity |].
  rewrite IH. lia.
Qed.

Lemma clueTotal_swap {A B : Type} (F : A -> B -> Z) la lb :
  clueTotal (map (fun a => clueTotal (map (fun b => F a b) lb)) la)
  = clueTotal (map (fun b => clueTotal (map (fun a => F a b) la)) lb).
Proof.
  induction la as [| a la IH]; cbn [map].
  - unfold clueTotal at 1. cbn [fold_right].
    induction lb as [| b lb IHb]; trivial.
  - change (clueTotal (?h :: ?t)) with (h + clueTotal t).
    rewrite IH.
    rewrite <- clueTotal_map_add. apply clueTotal_map_ext. intros b _.
    reflexivity.
Qed.

Lemma filledIn_map {A : Type} (f : A -> bool) l :
  filledIn (map f l) = clueTotal (map (fun a => if f a then 1 else 0) l).
Proof.
  unfold filledIn, clueTotal. induction l as [| a l IH]; cbn [map filter];
    [reflexivity |].
  cbn [fold_right]. rewrite <- IH.
  destruct (f a); cbn [length]; lia.
Qed.

Lemma nth_indices {A : Type} (l : list A) d :
  l = map (fun i => nth i l d) (seq 0 (length l)).
Proof.
  induction l as [| a l IH]; cbn [length seq map]; [reflexivity |].
  f_equal. rewrite <- seq_shift, map_map. exact IH.
Qed.

Lemma upTo_indices {A : Type} (f : Z -> A) g :
  map f (upTo g) = map (fun i => f (Z.of_nat i)) (seq 0 (Z.to_nat g)).
Proof. unfold upTo. now rewrite map_map. Qed.

(** X26.  The row clues and the column clues of a face agree.  For a
    pattern of [gridSize] rows of [gridSize] cells, the numbers of all the
    row clues built by [generateFaceClues] and the numbers of all its
    column clues add up to the same total, the number of filled cells of
    the pattern. *)
Theorem nonogram_row_and_column_clues_agree (facePattern : list (list bool))
  (gridSize : Z) :
  squarePattern (Z.to_nat gridSize) facePattern ->
  clueTotal (map clueTotal
               (Nonogram.rows (Nonogram.generateFaceClues facePattern gridSize)))
  = clueTotal (map filledIn facePattern) /\
  clueTotal (map clueTotal
               (Nonogram.cols (Nonogram.generateFaceClues facePattern gridSize)))
  = clueTotal (map filledIn facePattern).
Proof.
  intros [Hrows Hcols].
  unfold Nonogram.generateFaceClues. cbn [Nonogram.rows Nonogram.cols].
  set (n := Z.to_nat gridSize) in *.
  set (cellAt := fun i j => if nth i (nth j facePattern []) false then 1 else 0).
  assert (Hrow : forall j, (j < n)%nat ->
                 filledIn (nth j facePattern [])
                 = clueTotal (map (fun i => cellAt i j) (seq 0 n))).
  { intros j Hj.
    assert (Hlen : length (nth j facePattern []) = n).
    { rewrite Forall_forall in Hcols. apply Hcols, nth_In. lia. }
    rewrite (nth_indices (nth j facePattern []) false) at 1.
    rewrite Hlen, filledIn_map. reflexivity. }
  assert (Htotal : clueTotal (map filledIn facePattern)
                   = clueTotal (map (fun j => clueTotal
                                       (map (fun i => cellAt i j) (seq 0 n)))
                                  (seq 0 n))).
  { rewrite (nth_indices facePattern []) at 1. rewrite Hrows, map_map.
    apply clueTotal_map_ext. intros j Hj. apply in_seq in Hj. apply Hrow. lia. }
  rewrite Htotal. split.
  - rewrite !map_map, upTo_indices. fold n.
    apply clueTotal_map_ext. intros j Hj. apply in_seq in Hj.
    rewrite Nat2Z.id.
    rewrite (proj1 (calculateLineClue_spec _)). apply Hrow. lia.
  - rewrite !map_map, upTo_indices. fold n.
    rewrite clueTotal_swap.
    apply clueTotal_map_ext. intros i Hi.
    rewrite (proj1 (calculateLineClue_spec _)).
    rewrite upTo_indices. fold n. rewrite filledIn_map.
    apply clueTotal_map_ext. intros j Hj.
    unfold Nonogram.patternCell, cellAt. now rewrite !Nat2Z.id.
Qed.

Lemma nonogram_row_and_column_clues_agree_witness :
  clueTotal (map clueTotal
               (Nonogram.rows
                  (Nonogram.generateFaceClues
                     [[true; false; true]; [true; true; false];
                      [false; false; true]] 3)))
  = clueTotal (map filledIn [[true; false; true]; [true; true; false];
                             [false; false; true]]) /\
  clueTotal (map clueTotal
               (Nonogram.cols
                  (Nonogram.generateFaceClues
                     [[true; false; true]; [true; true; false];
                      [false; false; true]] 3)))
  = clueTotal (map filledIn [[true; false; true]; [true; true; false];
                             [false; false; true]]).
Proof.
  apply (nonogram_row_and_column_clues_agree
           [[true; false; true]; [true; true; false]; [false; false; true]] 3).
  split; [reflexivity | repeat constructor].
Defined.
(** ** What the actions keep *)

Lemma get_set m k (v : Nonogram.NonogramCell) k' :
  JsMap.get (JsMap.set m k v) k'
  = if String.eqb k k' then Some v else JsMap.get m k'.
Proof.
  destruct (String.eqb_spec k k') as [<- | Hne].
  - apply get_set_same.
  - now apply get_set_other.
Qed.

(** X27.  The picture shown is always part of the solution.  If every
    cell in the state [FILLED] has [solution] true, the same holds after
    any action; an action changes the [solution] of no cell, and raises
    [mistakes] by one exactly when it is a [fill] of a cell whose
    [solution] is false, leaving it unchanged otherwise. *)
Theorem nonogram_filled_cells_are_solution (game : Nonogram.NonogramConfig)
  (st st' : Nonogram.NonogramGameState) (action : Nonogram.NonogramAction) :
  pictured (Nonogram.cells st) ->
  Nonogram.applyAction game st action = Some st' ->
  pictured (Nonogram.cells st') /\
  (forall key cell,
      JsMap.get (Nonogram.cells st) key = Some cell ->
      exists cell',
        JsMap.get (Nonogram.cells st') key = Some cell' /\
        Nonogram.solution cell' = Nonogram.solution cell) /\
  Nonogram.mistakes st'
  = Nonogram.mistakes st
    + match action, JsMap.get (Nonogram.cells st)
                      (posKey (Nonogram.payload action)) with
      | Nonogram.Fill _, Some cell => if Nonogram.solution cell then 0 else 1
      | _, _ => 0
      end.
Proof.
  intros Hpic. unfold Nonogram.applyAction. cbv zeta.
  set (key := posKey (Nonogram.payload action)).
  assert (Hset : forall newState,
             (newState = Nonogram.FILLED ->
              exists c, JsMap.get (Nonogram.cells st) key = Some c /\
                        Nonogram.solution c = true) ->
             pictured (JsMap.set (Nonogram.cells st) key
                         (Nonogram.withState
                            (JsMap.get (Nonogram.cells st) key) newState)) /\
             (forall k c,
                 JsMap.get (Nonogram.cells st) k = Some c ->
                 exists c',
                   JsMap.get (JsMap.set (Nonogram.cells st) key
                                (Nonogram.withState
                                   (JsMap.get (Nonogram.cells st) key) newState))
                     k = Some c' /\
                   Nonogram.solution c' = Nonogram.solution c)).
  { intros newState Hfilled. split.
    - intros k c. rewrite get_set.
      destruct (String.eqb_spec key k) as [<- | Hne]; [| apply Hpic].
      intros [= <-] Hstate.
      destruct (JsMap.get (Nonogram.cells st) key) as [c0 |];
        cbn [Nonogram.withState Nonogram.state Nonogram.solution] in *.
      + destruct (Hfilled Hstate) as [c [[= <-] Hc]]. exact Hc.
      + destruct (Hfilled Hstate) as [c [Hc _]]. discriminate.
    - intros k c Hc. rewrite get_set.
      destruct (String.eqb_spec key k) as [<- | Hne]; [| now exists c].
      rewrite Hc. eexists. split; reflexivity. }
  destruct (JsMap.get (Nonogram.cells st) key) as [c |] eqn:Hget;
    pose proof Hget as Hget'; unfold key in Hget';
    destruct action as [p | p | p | p]; try discriminate.
  - destruct (Nonogram.solution c) eqn:Hc; intros Hrun;
      apply some_eq in Hrun; subst st';
      cbn [Nonogram.cells Nonogram.mistakes];
      (split; [| split; [| rewrite ?Hget', ?Hc; lia]]); apply Hset;
      first [intros _; now exists c | discriminate].
  - intros Hrun. apply some_eq in Hrun. subst st'.
    cbn [Nonogram.cells Nonogram.mistakes].
    (split; [| split; [| rewrite ?Hget', ?Hc; lia]]); apply Hset; discriminate.
  - intros Hrun. apply some_eq in Hrun. subst st'.
    cbn [Nonogram.cells Nonogram.mistakes].
    (split; [| split; [| rewrite ?Hget', ?Hc; lia]]); apply Hset; discriminate.
  - intros Hrun. apply some_eq in Hrun. subst st'.
    cbn [Nonogram.cells Nonogram.mistakes].
    (split; [| split; [| rewrite ?Hget', ?Hc; lia]]); apply Hset;
      destruct (Nonogram.solution c) eqn:Hc;
      first [intros _; now exists c | discriminate].
  - intros Hrun. apply some_eq in Hrun. subst st'.
    cbn [Nonogram.cells Nonogram.mistakes].
    (split; [| split; [| rewrite ?Hget', ?Hc; lia]]); apply Hset; discriminate.
  - intros Hrun. apply some_eq in Hrun. subst st'.
    cbn [Nonogram.cells Nonogram.mistakes].
    (split; [| split; [| rewrite ?Hget', ?Hc; lia]]); apply Hset; discriminate.
Qed.
Lemma init_pictured pattern game :
  pictured (Nonogram.cells (Nonogram.init pattern game)).
Proof.
  rewrite init_board. unfold board.
  intros key cell Hget Hstate. apply get_Some_In in Hget.
  apply in_map_iff in Hget. destruct Hget as [p [[= _ <-] _]].
  discriminate.
Qed.

Lemma nonogram_filled_cells_are_solution_witness :
  exists st',
    Nonogram.applyAction tinyGame (Nonogram.init tinyPattern tinyGame)
      (Nonogram.Fill (mkCubePosition FRONT 1 1)) = Some st' /\
    pictured (Nonogram.cells st') /\
    Nonogram.mistakes st' = 1.
Proof.
  destruct (Nonogram.applyAction tinyGame (Nonogram.init tinyPattern tinyGame)
              (Nonogram.Fill (mkCubePosition FRONT 1 1))) as [st' |] eqn:Hrun;
    [| vm_compute in Hrun; discriminate].
  exists st'. split; [reflexivity |].
  destruct (nonogram_filled_cells_are_solution tinyGame
              (Nonogram.init tinyPattern tinyGame) st'
              (Nonogram.Fill (mkCubePosition FRONT 1 1))
              (init_pictured tinyPattern tinyGame) Hrun) as [Hpic [_ Hm]].
  split; [exact Hpic |]. rewrite Hm. vm_compute. reflexivity.
Defined.

(** ** The completed faces *)

Lemma isFaceComplete_iff cells f g :
  Nonogram.isFaceComplete cells f g = true <->
  (forall px py, 0 <= px < g -> 0 <= py < g ->
                 exists cell,
                   JsMap.get cells (posKey (mkCubePosition f px py)) = Some cell /\
                   Nonogram.cellUnsolved cell = false).
Proof.
  unfold Nonogram.isFaceComplete. rewrite forallb_forall. split.
  - intros H px py Hx Hy.
    specialize (H py (proj2 (In_upTo g py) Hy)).
    rewrite forallb_forall in H. specialize (H px (proj2 (In_upTo g px) Hx)).
    destruct (JsMap.get cells (posKey (mkCubePosition f px py))) as [cell |];
      [| discriminate].
    exists cell. split; trivial. now apply negb_true_iff.
  - intros H py Hy. apply forallb_forall. intros px Hx.
    apply In_upTo in Hx, Hy. destruct (H px py Hx Hy) as [cell [-> Hc]].
    now rewrite Hc.
Qed.

Lemma faceAdd_In s a f : In f (Nonogram.faceAdd s a) <-> In f s \/ f = a.
Proof.
  unfold Nonogram.faceAdd. destruct (existsb (CubeFace_eqb a) s) eqn:Hex.
  - apply existsb_exists in Hex. destruct Hex as [b [Hb Heq]].
    apply CubeFace_eqb_eq in Heq. subst b. intuition (subst; trivial).
  - rewrite in_app_iff. simpl. intuition.
Qed.

Lemma faceDelete_In s a f : In f (Nonogram.faceDelete s a) <-> In f s /\ f <> a.
Proof.
  unfold Nonogram.faceDelete. rewrite filter_In, negb_true_iff.
  split; intros [Hin Hne]; split; trivial.
  - intros ->. now rewrite CubeFace_eqb_refl in Hne.
  - destruct (CubeFace_eqb a f) eqn:E; trivial.
    apply CubeFace_eqb_eq in E. congruence.
Qed.

Lemma faces_fold (complete : CubeFace -> bool) fs : forall s f,
  In f (fold_left (fun s f => if complete f then Nonogram.faceAdd s f
                              else Nonogram.faceDelete s f) fs s)
  <-> (In f fs /\ complete f = true) \/ (~ In f fs /\ In f s).
Proof.
  assert (Hdec : forall a b : CubeFace, {a = b} + {a <> b})
    by (intros; decide equality).
  induction fs as [| a fs IH]; intros s f; cbn [fold_left].
  - simpl. tauto.
  - rewrite IH. cbn [In].
    destruct (in_dec Hdec f fs) as [Hin | Hout], (Hdec a f) as [-> | Hne].
    + tauto.
    + tauto.
    + destruct (complete f) eqn:Hc.
      * rewrite faceAdd_In. tauto.
      * rewrite faceDelete_In. split; [tauto |].
        intros [[_ H] | [H _]]; [discriminate | tauto].
    + destruct (complete a).
      * rewrite faceAdd_In. split; [| tauto].
        intros [H | [_ [H | H]]]; [tauto | tauto | congruence].
      * rewrite faceDelete_In. split; [tauto |].
        intros [H | [H1 H2]]; [tauto |]. right. split; [tauto |].
        split; [exact H2 | congruence].
Qed.

(** X28.  [completedFaces] holds exactly the complete faces.  In the
    state returned by [applyAction], whatever the set held before, a face
    belongs to [completedFaces] if and only if [isFaceComplete] holds of
    it: each position of the face, on the grid of the game, has a cell,
    and none of these cells has [solution] true without being [FILLED].
    When the cell map has one cell for each position of the grid, the game
    is won if and only if all six faces are in [completedFaces]. *)
Theorem nonogram_completedFaces_exact (game : Nonogram.NonogramConfig)
  (st st' : Nonogram.NonogramGameState) (action : Nonogram.NonogramAction) :
  Nonogram.applyAction game st action = Some st' ->
  (forall f,
      In f (Nonogram.completedFaces st') <->
      Nonogram.isFaceComplete (Nonogram.cells st') f
        (Nonogram.configGridSize game) = true) /\
  (forall f,
      In f (Nonogram.completedFaces st') <->
      forall px py,
        0 <= px < Nonogram.configGridSize game ->
        0 <= py < Nonogram.configGridSize game ->
        exists cell,
          JsMap.get (Nonogram.cells st') (posKey (mkCubePosition f px py))
          = Some cell /\
          (Nonogram.solution cell = true ->
           Nonogram.state cell = Nonogram.FILLED)) /\
  (JsMap.keys (Nonogram.cells st')
   = map posKey (Nonogram.allPositions (Nonogram.configGridSize game)) ->
   (Nonogram.isWon st' = true <->
    forall f, In f (Nonogram.completedFaces st'))).
Proof.
  intros Hrun.
  assert (Hfaces : forall f,
             In f (Nonogram.completedFaces st') <->
             Nonogram.isFaceComplete (Nonogram.cells st') f
               (Nonogram.configGridSize game) = true).
  { unfold Nonogram.applyAction in Hrun.
    match type of Hrun with
    | match ?u with _ => _ end = _ => destruct u as [[[newCells m] h] |]
    end; [| discriminate].
    apply some_eq in Hrun. subst st'.
    cbn [Nonogram.completedFaces Nonogram.cells]. intros f.
    rewrite (faces_fold (fun f => Nonogram.isFaceComplete newCells f
                                    (Nonogram.configGridSize game))).
    assert (Hall : In f Nonogram.ALL_FACES) by (destruct f; simpl; tauto).
    tauto. }
  assert (Hcells : forall f,
             In f (Nonogram.completedFaces st') <->
             forall px py,
               0 <= px < Nonogram.configGridSize game ->
               0 <= py < Nonogram.configGridSize game ->
               exists cell,
                 JsMap.get (Nonogram.cells st') (posKey (mkCubePosition f px py))
                 = Some cell /\
                 (Nonogram.solution cell = true ->
                  Nonogram.state cell = Nonogram.FILLED)).
  { intros f. rewrite Hfaces, isFaceComplete_iff.
    split; intros H px py Hx Hy; destruct (H px py Hx Hy) as [cell [Hget Hc]];
      exists cell; split; trivial; now apply cellUnsolved_false. }
  split; [exact Hfaces |]. split; [exact Hcells |].
  intros Hkeys.
  destruct (applyAction_result _ _ _ _ Hrun) as [-> _].
  rewrite checkWinCondition_iff.
  assert (Hnd : NoDup (JsMap.keys (Nonogram.cells st'))).
  { rewrite Hkeys. apply NoDup_posKeys, NoDup_nonogram_positions. }
  split.
  - intros Hwon f. apply Hcells. intros px py Hx Hy.
    destruct (JsMap.get (Nonogram.cells st') (posKey (mkCubePosition f px py)))
      as [cell |] eqn:Hget.
    + exists cell. split; trivial.
      apply (Hwon (posKey (mkCubePosition f px py)) cell).
      now apply get_Some_In.
    + exfalso. apply get_None_keys in Hget. apply Hget. rewrite Hkeys.
      apply in_map, In_nonogram_positions. split; simpl; lia.
  - intros Hall key cell Hin.
    assert (Hk : In key (JsMap.keys (Nonogram.cells st')))
      by (change key with (fst (key, cell)); now apply in_map).
    rewrite Hkeys in Hk. apply in_map_iff in Hk. destruct Hk as [[f px py] [<- Hp]].
    apply In_nonogram_positions in Hp. destruct Hp as [Hx Hy]. simpl in Hx, Hy.
    destruct (proj1 (Hcells f) (Hall f) px py Hx Hy) as [cell' [Hget Hc]].
    rewrite (get_In _ _ cell Hnd Hin) in Hget. now injection Hget as <-.
Qed.

Lemma nonogram_completedFaces_exact_witness :
  exists st',
    Nonogram.applyAction tinyGame (Nonogram.init tinyPattern tinyGame)
      (Nonogram.Fill (mkCubePosition FRONT 0 0)) = Some st' /\
    forall f,
      In f (Nonogram.completedFaces st') <->
      Nonogram.isFaceComplete (Nonogram.cells st') f
        (Nonogram.configGridSize tinyGame) = true.
Proof.
  destruct (Nonogram.applyAction tinyGame (Nonogram.init tinyPattern tinyGame)
              (Nonogram.Fill (mkCubePosition FRONT 0 0))) as [st' |] eqn:Hrun;
    [| vm_compute in Hrun; discriminate].
  exists st'. split; [reflexivity |].
  apply (nonogram_completedFaces_exact tinyGame
           (Nonogram.init tinyPattern tinyGame) st'
           (Nonogram.Fill (mkCubePosition FRONT 0 0)) Hrun).
Defined.

(* ===================================================================== *)
(** * Further properties of the seeded generator *)
(* ===================================================================== *)








(* ===================================================================== *)
(** * Further properties of the game store *)
(* ===================================================================== *)

Section StoreFacts.

Variables TState TAction Game : Type.
Variable init : Game -> RandomSource -> TState.
Variable isValidAction : Game -> TState -> TAction -> bool.
Variable applyAction : Game -> RandomSource -> TState -> TAction -> TState.

Lemma sliceTo_within (h : list TState) n :
  0 <= n <= Z.of_nat (length h) ->
  GameStore.sliceTo n h = firstn (Z.to_nat n) h /\
  length (GameStore.sliceTo n h) = Z.to_nat n.
Proof.
  intros Hn. unfold GameStore.sliceTo.
  destruct (Z.ltb_spec n 0); [lia |]. split; trivial.
  rewrite length_firstn. lia.
Qed.

Lemma historyAt_app_left (h : list TState) extra i :
  0 <= i < Z.of_nat (length h) ->
  GameStore.historyAt (h ++ extra) i = GameStore.historyAt h i.
Proof.
  intros Hi. unfold GameStore.historyAt.
  destruct (Z.ltb_spec i 0); [lia |]. apply nth_error_app1. lia.
Qed.

Lemma historyAt_last (h : list TState) s :
  GameStore.historyAt (h ++ [s]) (Z.of_nat (length h)) = Some s.
Proof.
  unfold GameStore.historyAt.
  destruct (Z.ltb_spec (Z.of_nat (length h)) 0); [lia |].
  rewrite Nat2Z.id, nth_error_app2, Nat.sub_diag by lia. reflexivity.
Qed.

Lemma historyAt_firstn (h : list TState) n i :
  0 <= i < Z.of_nat n ->
  GameStore.historyAt (firstn n h) i = GameStore.historyAt h i.
Proof.
  intros Hi. unfold GameStore.historyAt.
  destruct (Z.ltb_spec i 0); [lia |]. rewrite nth_error_firstn.
  destruct (Nat.ltb_spec (Z.to_nat i) n); [reflexivity | lia].
Qed.

(** X30.  Undo and redo after a dispatch.  When the store is in step
    with its history and [dispatch] is given an action that the current
    game accepts, the new game state is put in the history right after the
    current one, the states that could be redone are dropped, and the
    store is still in step; [redo] then does nothing, [undo] brings the
    game state back to what it was before the dispatch, and [redo] after
    that [undo] gives the store as the dispatch left it. *)
Theorem store_dispatch_undo_redo (rnd : RandomSource)
  (store : GameStore.GameManagerState TState Game) (game : Game)
  (current : TState) (action : TAction) :
  inStep store ->
  GameStore.currentGame store = Some game ->
  GameStore.gameState store = Some current ->
  isValidAction game current action = true ->
  let after := GameStore.dispatch isValidAction applyAction rnd store action in
  inStep after /\
  GameStore.gameState after = Some (applyAction game rnd current action) /\
  GameStore.history after
  = firstn (Z.to_nat (GameStore.historyIndex store + 1)) (GameStore.history store)
    ++ [applyAction game rnd current action] /\
  GameStore.historyIndex after = GameStore.historyIndex store + 1 /\
  GameStore.redo after = after /\
  GameStore.gameState (GameStore.undo after) = Some current /\
  GameStore.redo (GameStore.undo after) = after.
Proof.
  intros [Hstate Hindex] Hgame Hcurrent Hvalid after.
  assert (Hidx : 0 <= GameStore.historyIndex store).
  { destruct (Z.ltb_spec (GameStore.historyIndex store) 0) as [Hneg | Hpos];
      trivial.
    rewrite Hcurrent in Hstate. unfold GameStore.historyAt in Hstate.
    destruct (Z.ltb_spec (GameStore.historyIndex store) 0); [discriminate | lia]. }
  set (new := applyAction game rnd current action).
  set (idx := GameStore.historyIndex store) in *.
  destruct (sliceTo_within (GameStore.history store) (idx + 1) ltac:(lia))
    as [Hslice Hlen].
  set (kept := firstn (Z.to_nat (idx + 1)) (GameStore.history store)) in *.
  assert (Hafter : after
                   = GameStore.mkGameManagerState (Some game) (Some new) None
                       (GameStore.hoveredPieceId store)
                       (GameStore.currentFace store) (GameStore.isPaused store)
                       (kept ++ [new]) (idx + 1)).
  { unfold after, GameStore.dispatch. rewrite Hgame, Hcurrent, Hvalid.
    cbn [negb]. cbv zeta. fold new idx. rewrite Hslice. f_equal.
    rewrite length_app. cbn [length]. rewrite <- Hslice, Hlen. lia. }
  assert (Hkept : length kept = Z.to_nat (idx + 1))
    by (rewrite <- Hslice; exact Hlen).
  assert (Hnew : GameStore.historyAt (kept ++ [new]) (idx + 1) = Some new).
  { replace (idx + 1) with (Z.of_nat (length kept)) by lia.
    apply historyAt_last. }
  assert (Hold : GameStore.historyAt (kept ++ [new]) idx = Some current).
  { rewrite historyAt_app_left by lia. unfold kept.
    rewrite historyAt_firstn by lia. congruence. }
  rewrite Hafter.
  split.
  { split; cbn [GameStore.gameState GameStore.history GameStore.historyIndex].
    - now rewrite Hnew.
    - rewrite length_app. cbn [length]. lia. }
  split; [reflexivity |]. split; [reflexivity |]. split; [reflexivity |].
  split.
  { unfold GameStore.redo. cbn [GameStore.history GameStore.historyIndex].
    rewrite length_app. cbn [length].
    destruct (Z.geb_spec (idx + 1) (Z.of_nat (length kept + 1) - 1));
      [reflexivity | lia]. }
  assert (Hundo : GameStore.undo
                    (GameStore.mkGameManagerState (Some game) (Some new) None
                       (GameStore.hoveredPieceId store)
                       (GameStore.currentFace store) (GameStore.isPaused store)
                       (kept ++ [new]) (idx + 1))
                  = GameStore.mkGameManagerState (Some game) (Some current) None
                      (GameStore.hoveredPieceId store)
                      (GameStore.currentFace store) (GameStore.isPaused store)
                      (kept ++ [new]) idx).
  { unfold GameStore.undo. cbn [GameStore.history GameStore.historyIndex
      GameStore.currentGame GameStore.hoveredPieceId GameStore.currentFace
      GameStore.isPaused].
    destruct (Z.leb_spec (idx + 1) 0); [lia |].
    replace (idx + 1 - 1) with idx by lia. now rewrite Hold. }
  rewrite Hundo. split; [reflexivity |].
  unfold GameStore.redo. cbn [GameStore.history GameStore.historyIndex
    GameStore.currentGame GameStore.hoveredPieceId GameStore.currentFace
    GameStore.isPaused].
  rewrite length_app. cbn [length].
  destruct (Z.geb_spec idx (Z.of_nat (length kept + 1) - 1)); [lia |].
  now rewrite Hnew.
Qed.

End StoreFacts.

Lemma store_dispatch_undo_redo_witness :
  let store :=
    GameStore.loadGame (fun (_ : unit) (_ : RandomSource) => 0) (fun k => k)
      GameStore.initialState tt in
  let after :=
    GameStore.dispatch (fun (_ : unit) (_ _ : Z) => true)
      (fun (_ : unit) (_ : RandomSource) (s a : Z) => s + a) (fun k => k)
      store 5 in
  inStep after /\
  GameStore.gameState after = Some 5 /\
  GameStore.history after = [0; 5] /\
  GameStore.historyIndex after = 1 /\
  GameStore.redo after = after /\
  GameStore.gameState (GameStore.undo after) = Some 0 /\
  GameStore.redo (GameStore.undo after) = after.
Proof.
  apply (store_dispatch_undo_redo Z Z unit (fun _ _ _ => true)
           (fun _ _ s a => s + a) (fun k => k)
           (GameStore.loadGame (fun _ _ => 0) (fun k => k)
              GameStore.initialState tt) tt 0 5).
  - split; [reflexivity | simpl; lia].
  - reflexivity.
  - reflexivity.
  - reflexivity.
Defined.
